(** * parallelSimplex.cpp

    A shallow embedding of src/parallelSimplex.cpp: the parallel region of
    [main] (lines 289-368) with the two declared reductions (lines 75-85),
    and the functions around it, [alocate_matrix], [delete_matrix],
    [My_diff], [string_to_vector], [get_dimension] and [read_data] (lines
    93-251).

    Modelling choices.
    - [double] is modelled in exact arithmetic by the canonical rationals
      [Qc]; [HUGE_VAL], which only ever sits in [min.val], is a separate
      constructor of [xval].  The only divisions are by an entry that has
      just been tested positive (line 310) and by the pivot value (line
      335), which is such an entry ([iteration_ok]).
    - [int] is [Z].  The only counter that is not bounded by a dimension of
      the matrix is [ni]; it needs 2^31 pivots to wrap and is left unbounded.
      Where the source computes on [int] or [long] values that come from
      outside (the clock, the file name), the arithmetic is checked:
      overflow is undefined and ends the run in [Fault].
    - [tableau] is a list of rows.  Every access [tableau[i][j]] is checked:
      an index outside the allocated rows and columns makes the run end in
      [Fault] (the C++ program has undefined behaviour there).
    - [exit(1)] and [exit(EXIT_FAILURE)] are the result [Exit1].
    - The OpenMP team is first taken with one thread, which runs the phases
      in program order: every work-sharing loop runs its iterations in
      index order on the private copies of its reduction variables
      (initialised as the declared reductions say), which are then combined
      into the shared originals with [maximo], [minimo] and [+].
    - A team of several threads is modelled by its schedule: which
      iterations of a loop every thread runs and in which order, and the
      order in which the threads combine their private copies at the end of
      a loop with reductions.  The iterations of a loop write different
      cells and are run one after the other, and so are the two loops that
      [nowait] lets overlap (lines 338-359), which write different rows.
      What the other threads do while one thread is in a [single nowait]
      block (lines 302-303 and 319-327) is outside the model.
    - A C string is the list of its characters; the file that is read is the
      list of its lines; the conversion of a word to a [double] by the
      stream library and the outcome of every request for storage are
      parameters of the model.  What is printed or logged is left out,
      except the two numbers of line 381 ([report]). *)

From Stdlib Require Import ZArith QArith Qcanon Lia Lqa Ascii.
From stdpp Require Import base decidable list numbers.

Local Open Scope Z_scope.

(** ** Results of fallible code *)

Inductive res (A : Type) : Type :=
| Ok (a : A)
| Exit1
| Fault.
Arguments Ok {A} a.
Arguments Exit1 {A}.
Arguments Fault {A}.

Definition bind {A B : Type} (m : res A) (k : A -> res B) : res B :=
  match m with
  | Ok a => k a
  | Exit1 => Exit1
  | Fault => Fault
  end.

Notation "'do' x <- m ; k" := (bind m (fun x => k))
  (at level 10, x name, m at level 100, k at level 200, only parsing).

(** [for (j = from; j < from + n; j++) body] over a threaded state. *)
Fixpoint for_loop {T : Type} (n : nat) (from : Z) (body : Z -> T -> res T) (s : T)
  : res T :=
  match n with
  | O => Ok s
  | S n' => do s' <- body from s; for_loop n' (from + 1) body s'
  end.

(** ** The matrix *)

Abbreviation matrix := (list (list Qc)).

Definition rd (t : matrix) (i j : Z) : res Qc :=
  if (0 <=? i) && (0 <=? j) then
    match t !! Z.to_nat i with
    | Some row =>
        match row !! Z.to_nat j with
        | Some x => Ok x
        | None => Fault
        end
    | None => Fault
    end
  else Fault.

Definition wr (t : matrix) (i j : Z) (x : Qc) : res matrix :=
  if (0 <=? i) && (0 <=? j) then
    match t !! Z.to_nat i with
    | Some row =>
        if (Z.to_nat j <? length row)%nat
        then Ok (<[Z.to_nat i := <[Z.to_nat j := x]> row]> t)
        else Fault
    | None => Fault
    end
  else Fault.

(** ** Candidates and their reductions (lines 75-85) *)

Inductive xval : Type :=
| Num (q : Qc)
| HUGE_VAL.

(** [a < b] on values that may be [HUGE_VAL] *)
Definition xlt (a b : xval) : bool :=
  match a, b with
  | Num x, Num y => bool_decide (x < y)%Qc
  | Num _, HUGE_VAL => true
  | HUGE_VAL, _ => false
  end.

Module Compare_Max.
Record t : Type := make { val : Qc; index : Z }.
Definition init : t := make 0%Qc (-1).
End Compare_Max.

Module Compare_Min.
Record t : Type := make { val : xval; index : Z }.
Definition init : t := make HUGE_VAL (-1).
End Compare_Min.

(** omp_out = omp_in.val < omp_out.val ? omp_in : omp_out *)
Definition minimo (omp_in omp_out : Compare_Min.t) : Compare_Min.t :=
  if xlt (Compare_Min.val omp_in) (Compare_Min.val omp_out) then omp_in else omp_out.

(** omp_out = omp_in.val > omp_out.val ? omp_in : omp_out *)
Definition maximo (omp_in omp_out : Compare_Max.t) : Compare_Max.t :=
  if bool_decide (Compare_Max.val omp_out < Compare_Max.val omp_in)%Qc
  then omp_in else omp_out.

(** ** The shared variables of the parallel region *)

Module St.
Record t : Type := make {
  tableau : matrix;
  max : Compare_Max.t;
  min : Compare_Min.t;
  count : Z;
  conta : Z;
  ni : Z
}.
End St.

Section Engine.

(** [constraintNumb] and [colNumb] after their decrement (lines 265-266):
    the index of the objective row and of the right-hand-side column. *)
Variables constraintNumb colNumb : Z.

(** lines 294-299, one iteration on the private [max] *)
Definition scan_body (t : matrix) (j : Z) (mx : Compare_Max.t)
  : res Compare_Max.t :=
  do x <- rd t constraintNumb j;
  if bool_decide (x < 0)%Qc && bool_decide (Compare_Max.val mx < - x)%Qc
  then Ok (Compare_Max.make (- x)%Qc j)
  else Ok mx.

(** lines 294-303 *)
Definition initial_scan (s : St.t) : res St.t :=
  do priv <- for_loop (Z.to_nat (colNumb + 1)) 0 (scan_body (St.tableau s))
            Compare_Max.init;
  let mx := maximo priv (St.max s) in
  Ok (St.make (St.tableau s) (Compare_Max.make 0%Qc (Compare_Max.index mx))
        (St.min s) (St.count s) (St.conta s) (St.ni s)).

(** lines 308-317, one iteration on the private [min] and [count] *)
Definition ratio_body (t : matrix) (col : Z) (i : Z) (acc : Compare_Min.t * Z)
  : res (Compare_Min.t * Z) :=
  let '(mn, cnt) := acc in
  do a <- rd t i col;
  if bool_decide (0 < a)%Qc then
    do b <- rd t i colNumb;
    let pivot := (b / a)%Qc in
    if xlt (Num pivot) (Compare_Min.val mn)
    then Ok (Compare_Min.make (Num pivot) i, cnt)
    else Ok (mn, cnt)
  else Ok (mn, cnt + 1).

(** lines 307-317 *)
Definition ratio_test (s : St.t) : res St.t :=
  do r <- for_loop (Z.to_nat constraintNumb) 0
         (ratio_body (St.tableau s) (Compare_Max.index (St.max s)))
         (Compare_Min.init, 0);
  Ok (St.make (St.tableau s) (St.max s) (minimo (fst r) (St.min s))
        (St.count s + snd r) (St.conta s) (St.ni s)).

(** lines 319-327 *)
Definition check_unbounded (s : St.t) : res St.t :=
  if St.count s =? constraintNumb then Exit1
  else Ok (St.make (St.tableau s) (St.max s) (St.min s) 0 0 (St.ni s)).

(** lines 334-336, one iteration *)
Definition normalize_body (row : Z) (pivot : Qc) (j : Z) (t : matrix) : res matrix :=
  do x <- rd t row j;
  wr t row j (x / pivot)%Qc.

(** lines 343-345 and 351: t[i][j] = factor * t[row][j] + t[i][j] *)
Definition eliminate_cell (row : Z) (factor : Qc) (i j : Z) (t : matrix) : res matrix :=
  do p <- rd t row j;
  do x <- rd t i j;
  wr t i j (factor * p + x)%Qc.

(** lines 339-347, one iteration of the outer loop *)
Definition eliminate_body (row col : Z) (i : Z) (t : matrix) : res matrix :=
  if negb (i =? row) then
    do a <- rd t i col;
    let pivot2 := (- a)%Qc in
    for_loop (Z.to_nat (colNumb + 1)) 0 (eliminate_cell row pivot2 i) t
  else Ok t.

(** lines 350-359, one iteration on the matrix and the private [conta]
    and [max] *)
Definition objective_body (row : Z) (pivot3 : Qc) (j : Z)
    (acc : matrix * Z * Compare_Max.t) : res (matrix * Z * Compare_Max.t) :=
  let '(t, cnt, mx) := acc in
  do t' <- eliminate_cell row pivot3 constraintNumb j t;
  do x <- rd t' constraintNumb j;
  if (j <? colNumb) && bool_decide (x < 0)%Qc then
    if bool_decide (Compare_Max.val mx < - x)%Qc
    then Ok (t', cnt + 1, Compare_Max.make (- x)%Qc j)
    else Ok (t', cnt + 1, mx)
  else Ok (t', cnt, mx).

(** lines 329-366: the pivot on row [min.index] and column [max.index] *)
Definition pivoting (s : St.t) : res St.t :=
  let row := Compare_Min.index (St.min s) in
  let col := Compare_Max.index (St.max s) in
  do pivot <- rd (St.tableau s) row col;
  do o <- rd (St.tableau s) constraintNumb col;
  let pivot3 := (- o)%Qc in
  do t1 <- for_loop (Z.to_nat (colNumb + 1)) 0 (normalize_body row pivot) (St.tableau s);
  do t2 <- for_loop (Z.to_nat constraintNumb) 0 (eliminate_body row col) t1;
  do r <- for_loop (Z.to_nat (colNumb + 1)) 0 (objective_body row pivot3)
         (t2, 0, Compare_Max.init);
  let '(t3, cnt, priv) := r in
  let mx := maximo priv (St.max s) in
  Ok (St.make t3 (Compare_Max.make 0%Qc (Compare_Max.index mx))
        (Compare_Min.make HUGE_VAL (Compare_Min.index (St.min s)))
        (St.count s) (St.conta s + cnt) (St.ni s + 1)).

(** the body of the do-while, lines 305-366 *)
Definition iteration (s : St.t) : res St.t :=
  do s1 <- ratio_test s;
  do s2 <- check_unbounded s1;
  pivoting s2.

(** do { ... } while (conta); [None] when the fuel runs out *)
Fixpoint do_while (fuel : nat) (s : St.t) : option (res St.t) :=
  match fuel with
  | O => None
  | S fuel' =>
      match iteration s with
      | Ok s' => if St.conta s' =? 0 then Some (Ok s') else do_while fuel' s'
      | Exit1 => Some Exit1
      | Fault => Some Fault
      end
  end.

(** the shared variables when the parallel region is entered *)
Definition enter (t : matrix) : St.t :=
  St.make t Compare_Max.init Compare_Min.init 0 0 0.

(** the parallel region, lines 289-368 *)
Definition engine (fuel : nat) (t : matrix) : option (res St.t) :=
  match initial_scan (enter t) with
  | Ok s => do_while fuel s
  | Exit1 => Some Exit1
  | Fault => Some Fault
  end.

(** line 381: the iteration count and the objective value that are printed *)
Definition report (s : St.t) : res (Z * Qc) :=
  do z <- rd (St.tableau s) constraintNumb colNumb;
  Ok (St.ni s, z).

Definition simplex (fuel : nat) (t : matrix) : option (res (Z * Qc)) :=
  match engine fuel t with
  | Some r => Some (do s <- r; report s)
  | None => None
  end.

End Engine.

(** ** Reading the matrix in statements *)

(** The entry [t[i][j]] of an allocated cell (0 outside the matrix, where the
    program itself would fault). *)
Definition cell (t : matrix) (i j : Z) : Qc :=
  match rd t i j with
  | Ok x => x
  | _ => 0%Qc
  end.

(** [t] has rows [0..constraintNumb] and columns [0..colNumb]. *)
Definition well_formed (constraintNumb colNumb : Z) (t : matrix) : Prop :=
  0 <= constraintNumb /\ 0 <= colNumb /\
  length t = Z.to_nat (constraintNumb + 1) /\
  Forall (fun row => length row = Z.to_nat (colNumb + 1)) t.

(** ** The searches, on a row or a column seen as a function *)

(** [mx] is what a search for the most negative of [f 0 .. f (n-1)] leaves
    in a candidate that started as [Compare_Max.init]. *)
Definition most_negative (f : Z -> Qc) (n : Z) (mx : Compare_Max.t) : Prop :=
  (Compare_Max.index mx = -1 /\ Compare_Max.val mx = 0%Qc /\
   forall j, 0 <= j < n -> (0 <= f j)%Qc)
  \/
  (0 <= Compare_Max.index mx < n /\
   (f (Compare_Max.index mx) < 0)%Qc /\
   Compare_Max.val mx = (- f (Compare_Max.index mx))%Qc /\
   forall j, 0 <= j < n -> (f (Compare_Max.index mx) <= f j)%Qc).

(** lines 296-299 and 352-357 on a value [x = f k] *)
Definition scan_step (x : Qc) (k : Z) (mx : Compare_Max.t) : Compare_Max.t :=
  if bool_decide (x < 0)%Qc && bool_decide (Compare_Max.val mx < - x)%Qc
  then Compare_Max.make (- x)%Qc k
  else mx.

(** the number of strictly negative values among [f 0 .. f (n-1)] *)
Fixpoint count_neg (f : Z -> Qc) (n : nat) : Z :=
  match n with
  | O => 0
  | S n' => count_neg f n' + (if bool_decide (f (Z.of_nat n') < 0)%Qc then 1 else 0)
  end.

(** [idx] is the column an entering-variable search over [f 0 .. f (n-1)]
    leaves in [max.index], when [max.index] was [keep] before the search. *)
Definition entering (f : Z -> Qc) (n : Z) (keep idx : Z) : Prop :=
  (idx = keep /\ forall j, 0 <= j < n -> (0 <= f j)%Qc)
  \/
  (0 <= idx < n /\ (f idx < 0)%Qc /\ forall j, 0 <= j < n -> (f idx <= f j)%Qc).

(** ** The pivot and the run *)

(** The entry [(i, j)] after a pivot of [t] on row [p] and column [c]. *)
Definition pivoted (t : matrix) (p c i j : Z) : Qc :=
  if i =? p
  then (cell t p j / cell t p c)%Qc
  else (- cell t i c * (cell t p j / cell t p c) + cell t i j)%Qc.

Section Vocabulary.
Variables constraintNumb colNumb : Z.

(** the ratio of row [i] for the entering column [c] *)
Definition ratio (t : matrix) (c i : Z) : Qc :=
  (cell t i colNumb / cell t i c)%Qc.

(** what the ratio test over rows [0 .. n-1] leaves in its private [min]
    and [count] *)
Definition least_ratio (t : matrix) (c n : Z) (acc : Compare_Min.t * Z) : Prop :=
  (Compare_Min.val (fst acc) = HUGE_VAL /\ Compare_Min.index (fst acc) = -1 /\
   snd acc = n /\
   forall i, 0 <= i < n -> (cell t i c <= 0)%Qc)
  \/
  (0 <= Compare_Min.index (fst acc) < n /\
   (0 < cell t (Compare_Min.index (fst acc)) c)%Qc /\
   Compare_Min.val (fst acc) = Num (ratio t c (Compare_Min.index (fst acc))) /\
   0 <= snd acc < n /\
   forall i, 0 <= i < n -> (0 < cell t i c)%Qc ->
             (ratio t c (Compare_Min.index (fst acc)) <= ratio t c i)%Qc).

(** the shared variables as every pass through [do {] finds them *)
Definition loop_top (s : St.t) : Prop :=
  well_formed constraintNumb colNumb (St.tableau s) /\ St.count s = 0 /\
  Compare_Max.val (St.max s) = 0%Qc /\ Compare_Min.val (St.min s) = HUGE_VAL.

(** [at_iteration t k s]: started on [t], the engine enters the body of
    the do-while for the [k]-th time (counting from 0) with the shared
    variables [s]. *)
Inductive at_iteration (t : matrix) : nat -> St.t -> Prop :=
| at_first s :
    initial_scan constraintNumb colNumb (enter t) = Ok s ->
    at_iteration t O s
| at_next k s s' :
    at_iteration t k s ->
    iteration constraintNumb colNumb s = Ok s' ->
    St.conta s' <> 0 ->
    at_iteration t (S k) s'.

(** the right-hand sides of the constraint rows are non-negative *)
Definition feasible (t : matrix) : Prop :=
  forall i, 0 <= i < constraintNumb -> (0 <= cell t i colNumb)%Qc.

(** [tableau[constraintNumb][colNumb]] *)
Definition objective_value (t : matrix) : Qc := cell t constraintNumb colNumb.

(** at [do {], [max.index] is a column whose objective entry is negative,
    or still the initial -1 *)
Definition entering_ready (s : St.t) : Prop :=
  loop_top s /\
  (Compare_Max.index (St.max s) = -1 \/
   (0 <= Compare_Max.index (St.max s) <= colNumb /\
    (cell (St.tableau s) constraintNumb (Compare_Max.index (St.max s)) < 0)%Qc)).

End Vocabulary.

(** ** Concrete tableaux and runs *)

Definition qz (z : Z) : Qc := Q2Qc (inject_Z z).
Definition qf (n : Z) (d : positive) : Qc := Q2Qc (n # d).
Definition qrow (l : list Z) : list Qc := map qz l.

(** maximize 3x1+5x2 subject to x1<=4, 2x2<=12, 3x1+2x2<=18 *)
Definition scenario_optimal : matrix :=
  [ qrow [1; 0; 1; 0; 0; 4];
    qrow [0; 2; 0; 1; 0; 12];
    qrow [3; 2; 0; 0; 1; 18];
    qrow [-3; -5; 0; 0; 0; 0] ].

Definition scenario_unbounded : matrix :=
  [ qrow [-1; 0; 5];
    qrow [-1; 0; 0] ].

(** Beale's degenerate problem: maximize 3/4 x1 - 150 x2 + 1/50 x3 - 6 x4
    subject to 1/4 x1 - 60 x2 - 1/25 x3 + 9 x4 <= 0,
    1/2 x1 - 90 x2 - 1/50 x3 + 3 x4 <= 0, x3 <= 1. *)
Definition beale : matrix :=
  [ [qf 1 4; qz (-60); qf (-1) 25; qz 9; qz 1; qz 0; qz 0; qz 0];
    [qf 1 2; qz (-90); qf (-1) 50; qz 3; qz 0; qz 1; qz 0; qz 0];
    [qz 0; qz 0; qz 1; qz 0; qz 0; qz 0; qz 1; qz 1];
    [qf (-3) 4; qz 150; qf (-1) 50; qz 6; qz 0; qz 0; qz 0; qz 0] ].

Definition set_ni (n : Z) (s : St.t) : St.t :=
  St.make (St.tableau s) (St.max s) (St.min s) (St.count s) (St.conta s) n.

(** [k] passes through the body of the do-while, each of which ends with
    [conta] non-zero *)
Fixpoint steps (constraintNumb colNumb : Z) (k : nat) (s : St.t) : option St.t :=
  match k with
  | O => Some s
  | S k' =>
      match iteration constraintNumb colNumb s with
      | Ok s' => if St.conta s' =? 0 then None else steps constraintNumb colNumb k' s'
      | _ => None
      end
  end.

(** a state without the canonicity proofs of its rationals *)
Definition view_xval (v : xval) : option Q :=
  match v with
  | Num q => Some (this q)
  | HUGE_VAL => None
  end.

Definition view (s : St.t) :=
  (map (map this) (St.tableau s),
   (this (Compare_Max.val (St.max s)), Compare_Max.index (St.max s)),
   (view_xval (Compare_Min.val (St.min s)), Compare_Min.index (St.min s)),
   (St.count s, St.conta s, St.ni s)).

(** the shared variables of the run on [beale] at the first and at the
    seventh pass through [do {] *)
Definition beale_0 : St.t :=
  match initial_scan 3 7 (enter beale) with
  | Ok s => s
  | _ => enter beale
  end.

Definition beale_6 : St.t :=
  match steps 3 7 6 beale_0 with
  | Some s => s
  | None => beale_0
  end.

(** the shared variables of the run on [scenario_optimal] when its first
    ratio test has chosen row 1 for column 1 *)
Definition scenario_optimal_pivot : St.t :=
  St.make scenario_optimal (Compare_Max.make 0%Qc 1)
    (Compare_Min.make (Num (qz 6)) 1) 0 0 0.

(** the shared variables when the run on [scenario_optimal] leaves the
    loop *)
Definition scenario_optimal_end : St.t :=
  match engine 3 5 2 scenario_optimal with
  | Some (Ok s) => s
  | _ => enter scenario_optimal
  end.

(** the shared variables of the run on [scenario_unbounded] after the
    initial scan *)
Definition scenario_unbounded_0 : St.t :=
  St.make scenario_unbounded (Compare_Max.make 0%Qc 0) Compare_Min.init 0 0 0.

(** the shared variables of the run on [scenario_optimal] when it enters
    the loop for the second time *)
Definition scenario_optimal_1 : St.t :=
  match steps 3 5 1 (St.make scenario_optimal (Compare_Max.make 0%Qc 1)
                       Compare_Min.init 0 0 0) with
  | Some s => s
  | None => enter scenario_optimal
  end.

(** a tableau whose objective row ends with a negative value *)
Definition negative_objective_value : matrix :=
  [ qrow [1; 1; 4];
    qrow [-1; 0; -7] ].

(** a tableau that is optimal as it stands *)
Definition already_optimal : matrix :=
  [ qrow [1; 1; 4];
    qrow [1; 0; 0] ].

(** ** The tableau as a system of equations *)

(** [t[i][0] * x 0 + ... + t[i][n-1] * x (n-1)] *)
Fixpoint row_dot (t : matrix) (i : Z) (x : Z -> Qc) (n : nat) : Qc :=
  match n with
  | O => 0%Qc
  | S n' => (row_dot t i x n' + cell t i (Z.of_nat n') * x (Z.of_nat n'))%Qc
  end.

(** [x] and the objective value [z] satisfy the rows of [t]: every
    constraint row [i] reads [t[i] . x = t[i][colNumb]] and the objective
    row, which holds [-c], reads [t[constraintNumb] . x + z =
    t[constraintNumb][colNumb]]. *)
Definition satisfies (constraintNumb colNumb : Z) (t : matrix)
    (x : Z -> Qc) (z : Qc) : Prop :=
  (forall i, 0 <= i < constraintNumb ->
     row_dot t i x (Z.to_nat colNumb) = cell t i colNumb) /\
  (row_dot t constraintNumb x (Z.to_nat colNumb) + z
   = cell t constraintNumb colNumb)%Qc.

(** [x] is non-negative on the columns of the variables *)
Definition nonneg_point (colNumb : Z) (x : Z -> Qc) : Prop :=
  forall j, 0 <= j < colNumb -> (0 <= x j)%Qc.

(** the optimal point of [scenario_optimal]: x1 = 2, x2 = 6, slacks 2, 0, 0 *)
Definition scenario_optimal_point (j : Z) : Qc :=
  if j =? 0 then qz 2 else if j =? 1 then qz 6 else if j =? 2 then qz 2 else 0%Qc.

(** ** Elapsed time (lines 135-146) *)

(** The value of an expression of type [long] (64 bits, as [time_t] and the
    fields of [struct timespec] are on the platform the program is built
    for); signed overflow is undefined. *)
Definition long (z : Z) : res Z :=
  if (- 2 ^ 63 <=? z) && (z <=? 2 ^ 63 - 1) then Ok z else Fault.

(** The value of an expression of type [int]. *)
Definition int (z : Z) : res Z :=
  if (- 2 ^ 31 <=? z) && (z <=? 2 ^ 31 - 1) then Ok z else Fault.

Module timespec.
Record t : Type := make { tv_sec : Z; tv_nsec : Z }.
End timespec.

Definition My_diff (start end_ : timespec.t) : res timespec.t :=
  do d <- long (timespec.tv_nsec end_ - timespec.tv_nsec start);
  if d <? 0 then
    do a <- long (timespec.tv_sec end_ - timespec.tv_sec start);
    do sec <- long (a - 1);
    do b <- long (1000000000 + timespec.tv_nsec end_);
    do nsec <- long (b - timespec.tv_nsec start);
    Ok (timespec.make sec nsec)
  else
    do sec <- long (timespec.tv_sec end_ - timespec.tv_sec start);
    do nsec <- long (timespec.tv_nsec end_ - timespec.tv_nsec start);
    Ok (timespec.make sec nsec).

(** the nanoseconds a [timespec] stands for *)
Definition nanoseconds (ts : timespec.t) : Z :=
  timespec.tv_sec ts * 1000000000 + timespec.tv_nsec ts.

(** a [timespec] as [clock_gettime] fills it *)
Definition normalized (ts : timespec.t) : Prop :=
  0 <= timespec.tv_sec ts <= 2 ^ 63 - 1 /\ 0 <= timespec.tv_nsec ts < 1000000000.

(** ** The dimensions from the file name (lines 187-204) *)

(** A C string is the list of its characters before the terminating NUL. *)

(** [strchr(delim, c) != NULL] *)
Definition is_delim (delim : list ascii) (c : ascii) : bool :=
  existsb (Ascii.eqb c) delim.

(** [s + strspn(s, delim)] *)
Fixpoint skip_delims (delim : list ascii) (s : list ascii) : list ascii :=
  match s with
  | [] => []
  | c :: s' => if is_delim delim c then skip_delims delim s' else s
  end.

(** the token at the head of [s] and what follows the delimiter that ends
    it *)
Fixpoint take_token (delim : list ascii) (s : list ascii)
  : list ascii * list ascii :=
  match s with
  | [] => ([], [])
  | c :: s' =>
      if is_delim delim c then ([], s')
      else let '(tok, rest) := take_token delim s' in (c :: tok, rest)
  end.

(** One call of [strtok] on the text [s] that is left to scan: [None] is
    [NULL], otherwise the token and the text left for the next call. *)
Definition strtok (delim : list ascii) (s : list ascii)
  : option (list ascii * list ascii) :=
  match skip_delims delim s with
  | [] => None
  | s' => Some (take_token delim s')
  end.

(** [isspace] and [isdigit] in the C locale *)
Definition isspace (c : ascii) : bool :=
  let n := Z.of_N (N_of_ascii c) in (n =? 32) || ((9 <=? n) && (n <=? 13)).

Definition isdigit (c : ascii) : bool :=
  let n := Z.of_N (N_of_ascii c) in (48 <=? n) && (n <=? 57).

Fixpoint skip_spaces (s : list ascii) : list ascii :=
  match s with
  | [] => []
  | c :: s' => if isspace c then skip_spaces s' else s
  end.

(** the value of the decimal digits at the head of [s], after [acc] *)
Fixpoint digits_value (s : list ascii) (acc : Z) : Z :=
  match s with
  | [] => acc
  | c :: s' =>
      if isdigit c then digits_value s' (10 * acc + (Z.of_N (N_of_ascii c) - 48))
      else acc
  end.

(** [atoi]: white space, an optional sign, then decimal digits; undefined
    when the value is not an [int]. *)
Definition atoi (s : list ascii) : res Z :=
  match skip_spaces s with
  | c :: s' =>
      if Ascii.eqb c "-" then int (- digits_value s' 0)
      else if Ascii.eqb c "+" then int (digits_value s' 0)
      else int (digits_value (c :: s') 0)
  | [] => int 0
  end.

(** the delimiters of line 190 *)
Definition name_delims : list ascii := ["x"; "/"; "_"]%char.

(** lines 191-201: the loop, entered with the result [pch] of the last call
    of [strtok]; [None] when the fuel runs out *)
Fixpoint dimension_loop (fuel : nat) (pch : option (list ascii * list ascii))
    (dimension0 dimension1 : Z) (i : Z) : option (res (Z * Z)) :=
  match pch with
  | None => Some (Ok (dimension0, dimension1))
  | Some (tok, rest) =>
      match fuel with
      | O => None
      | S fuel' =>
          match (if i =? 1 then atoi tok else Ok dimension0) with
          | Ok d0 =>
              match (if i =? 2 then atoi tok else Ok dimension1) with
              | Ok d1 => dimension_loop fuel' (strtok name_delims rest) d0 d1 (i + 1)
              | Exit1 => Some Exit1
              | Fault => Some Fault
              end
          | Exit1 => Some Exit1
          | Fault => Some Fault
          end
      end
  end.

(** lines 187-204: [nL] and [nC] from [argv[1]] *)
Definition get_dimension (fuel : nat) (argv1 : list ascii) : option (res (Z * Z)) :=
  match dimension_loop fuel (strtok name_delims argv1) 0 0 0 with
  | Some r =>
      Some (do d <- r;
            do nL <- int (fst d + 1);
            do a <- int (fst d + snd d);
            do nC <- int (a + 1);
            Ok (nL, nC))
  | None => None
  end.

(** the decimal numeral of the digits [ds], most significant first *)
Definition digit_char (d : Z) : ascii := ascii_of_N (Z.to_N (48 + d)).

Definition numeral (ds : list Z) : list ascii := map digit_char ds.

Fixpoint numeral_value (ds : list Z) (acc : Z) : Z :=
  match ds with
  | [] => acc
  | d :: ds' => numeral_value ds' (10 * acc + d)
  end.

(** the characters of [s] are all delimiters, none is a delimiter, the
    numbers [ds] are decimal digits *)
Definition all_delims (s : list ascii) : Prop :=
  Forall (fun c => is_delim name_delims c = true) s.

Definition no_delim (s : list ascii) : Prop :=
  Forall (fun c => is_delim name_delims c = false) s.

Definition digits (ds : list Z) : Prop := Forall (fun d => 0 <= d <= 9) ds.

(** ** Reading the tableau (lines 93-127 and 155-251) *)

(** [iss >> sub] on the text [iss] that is left in the stream: the white
    space at its head is passed over and [sub] takes the characters up to
    the next white space, which stays in the stream, or up to the end. *)
Fixpoint take_word (s : list ascii) : list ascii * list ascii :=
  match s with
  | [] => ([], [])
  | c :: s' =>
      if isspace c then ([], s)
      else let '(w, rest) := take_word s' in (c :: w, rest)
  end.

Definition extract_word (iss : list ascii) : list ascii * list ascii :=
  take_word (skip_spaces iss).

(** lines 170-177.  [from_string] stands for [from_string<double>] of lines
    155-159 on a word, the conversion of the stream library: [None] when the
    extraction fails, the number otherwise.  The stream has failed after
    [iss >> sub] exactly when no character was extracted. *)
Fixpoint words_loop (from_string : list ascii -> option Qc) (fuel : nat)
    (iss : list ascii) (vec : list Qc) : option (list Qc) :=
  match fuel with
  | O => None
  | S fuel' =>
      let '(sub, iss') := extract_word iss in
      let vec' := match from_string sub with
                  | Some numb => vec ++ [numb]
                  | None => vec
                  end in
      match sub with
      | [] => Some vec'
      | _ :: _ => words_loop from_string fuel' iss' vec'
      end
  end.

(** lines 166-179; every pass but the last takes a character from the
    stream, so one pass more than [s] has characters is enough *)
Definition string_to_vector (from_string : list ascii -> option Qc)
    (s : list ascii) : option (list Qc) :=
  words_loop from_string (S (length s)) s [].

(** A row as [new double[nC]] gives it: [nC] cells, [None] while nothing
    has been stored in them.  The array of the rows: [None] is a null
    pointer. *)
Abbreviation cells := (list (option Qc)).
Abbreviation table := (list (option cells)).

(** lines 103-107.  [new_ok k] tells whether the [k]-th request for storage
    is granted ([new (nothrow)] gives a null pointer when it is not): request
    0 is the array of rows, request [i + 1] is row [i].  The test of line
    104 is on the address [tableau + i] of the entry, which is never null,
    so a row that was not granted stays in the array as a null pointer.  A
    negative length is not a valid request; the model stops there. *)
Definition alocate_row (new_ok : Z -> bool) (nC : Z) (i : Z) (tableau : table)
  : res table :=
  if nC <? 0 then Fault
  else Ok (tableau ++
           [if new_ok (i + 1) then Some (replicate (Z.to_nat nC) None) else None]).

(** lines 93-110; the entries of the array are set in order;
    [EXIT_FAILURE] is 1 *)
Definition alocate_matrix (new_ok : Z -> bool) (nL nC : Z) : res table :=
  if nL <? 0 then Fault
  else if new_ok 0 then for_loop (Z.to_nat nL) 0 (alocate_row new_ok nC) []
  else Exit1.

(** line 238: [copy(contraint.begin(), contraint.end(), tableau[lin])],
    which checks neither [lin] nor the length of the row *)
Definition copy_row (contraint : list Qc) (tableau : table) (lin : Z) : res table :=
  match tableau !! Z.to_nat lin with
  | Some (Some row) =>
      if (length contraint <=? length row)%nat
      then Ok (<[Z.to_nat lin :=
                   Some (map Some contraint ++ drop (length contraint) row)]> tableau)
      else Fault
  | Some None =>
      match contraint with
      | [] => Ok tableau
      | _ :: _ => Fault
      end
  | None => Fault
  end.

(** lines 233-241 on the lines that [getline] yields one after the other *)
Fixpoint read_lines (from_string : list ascii -> option Qc)
    (file : list (list ascii)) (tableau : table) (lin : Z) : option (res table) :=
  match file with
  | [] => Some (Ok tableau)
  | [] :: _ => Some (Ok tableau)
  | line :: file' =>
      match string_to_vector from_string line with
      | Some contraint =>
          match copy_row contraint tableau lin with
          | Ok tableau' => read_lines from_string file' tableau' (lin + 1)
          | Exit1 => Some Exit1
          | Fault => Some Fault
          end
      | None => None
      end
  end.

(** lines 213-251.  [file] is what opening [argv[1]] gives: [None] when the
    file cannot be opened, its lines otherwise; [fuel] bounds the loop of
    [get_dimension].  What is written to the log is left out. *)
Definition read_data (from_string : list ascii -> option Qc) (new_ok : Z -> bool)
    (fuel : nat) (argv1 : list ascii) (file : option (list (list ascii)))
  : option (res (table * Z * Z)) :=
  match file with
  | None => Some Exit1
  | Some lines =>
      match get_dimension fuel argv1 with
      | Some (Ok (nL, nC)) =>
          match alocate_matrix new_ok nL nC with
          | Ok tableau =>
              match read_lines from_string lines tableau 0 with
              | Some r => Some (do t <- r; Ok (t, nL, nC))
              | None => None
              end
          | Exit1 => Some Exit1
          | Fault => Some Fault
          end
      | Some Exit1 => Some Exit1
      | Some Fault => Some Fault
      | None => None
      end
  end.

(** lines 121-124, one iteration: the row is given back; an entry that is
    [None] afterwards is a row that is no longer allocated *)
Definition delete_row (i : Z) (tableau : table) : res table :=
  match tableau !! Z.to_nat i with
  | Some _ => Ok (<[Z.to_nat i := None]> tableau)
  | None => Fault
  end.

(** lines 117-127 on an array that is not null: the rows that are still
    allocated when the array itself has been given back *)
Definition delete_matrix (tableau : table) (nL : Z) : res (list cells) :=
  do t <- for_loop (Z.to_nat nL) 0 delete_row tableau;
  Ok (omap id t).

(** the matrix that the engine finds in [tableau], when every row is
    allocated and every cell has been stored *)
Definition initialised (tableau : table) : option matrix :=
  mapM (fun row => match row with
                   | Some r => mapM id r
                   | None => None
                   end) tableau.

(** a row of [nC] cells in which the numbers [v] have been stored *)
Definition stored (nC : Z) (v : list Qc) : cells :=
  map Some v ++ replicate (Z.to_nat nC - length v) None.

(** every row of the array that is not null has [nC] cells *)
Definition rows_of_length (nC : Z) (tableau : table) : Prop :=
  Forall (fun r => match r with
                   | Some row => length row = Z.to_nat nC
                   | None => True
                   end) tableau.

(** the lines [tail] that follow the rows in a file: none, or an empty line
    and anything after it *)
Definition ends_rows (tail : list (list ascii)) : Prop :=
  tail = [] \/ exists more, tail = [] :: more.

(** [line] is not empty and holds the numbers [v], at most [nC] of them *)
Definition row_line (from_string : list ascii -> option Qc) (nC : Z)
    (line : list ascii) (v : list Qc) : Prop :=
  line <> [] /\ string_to_vector from_string line = Some v /\
  Z.of_nat (length v) <= nC.

(** [s] is the words [ws], separated and possibly surrounded by white
    space *)
Inductive words_of : list ascii -> list (list ascii) -> Prop :=
| words_end s :
    Forall (fun c => isspace c = true) s -> words_of s []
| words_last lead w :
    Forall (fun c => isspace c = true) lead ->
    w <> [] -> Forall (fun c => isspace c = false) w ->
    words_of (lead ++ w) [w]
| words_more lead w c rest ws :
    Forall (fun c => isspace c = true) lead ->
    w <> [] -> Forall (fun c => isspace c = false) w ->
    isspace c = true ->
    words_of (c :: rest) ws ->
    words_of (lead ++ w ++ c :: rest) (w :: ws).

(** a conversion to use for [from_string] in examples: it converts the
    words that are made of decimal digits only *)
Definition numeral_word (w : list ascii) : option Qc :=
  match w with
  | [] => None
  | _ :: _ => if forallb isdigit w then Some (qz (digits_value w 0)) else None
  end.

(** ** A team of several threads on the first search (lines 294-303) *)

(** the private [max] of a thread that is given the iterations [js] of the
    loop of line 295 and runs them in the order of the list *)
Fixpoint scan_thread (constraintNumb : Z) (t : matrix) (js : list Z)
    (priv : Compare_Max.t) : res Compare_Max.t :=
  match js with
  | [] => Ok priv
  | j :: js' =>
      do priv' <- scan_body constraintNumb t j priv;
      scan_thread constraintNumb t js' priv'
  end.

(** the reduction at the end of the loop: every thread of [team] starts its
    private copy as the declared reduction initialises it and, when it is
    done, combines it into the shared [max] with [maximo]; the threads
    come to this in the order of the list *)
Fixpoint scan_team (constraintNumb : Z) (t : matrix) (team : list (list Z))
    (shared : Compare_Max.t) : res Compare_Max.t :=
  match team with
  | [] => Ok shared
  | js :: team' =>
      do priv <- scan_thread constraintNumb t js Compare_Max.init;
      scan_team constraintNumb t team' (maximo priv shared)
  end.

(** lines 294-303 for a team: [team] gives every thread its iterations *)
Definition initial_scan_team (constraintNumb : Z) (team : list (list Z)) (s : St.t)
  : res St.t :=
  do mx <- scan_team constraintNumb (St.tableau s) team (St.max s);
  Ok (St.make (St.tableau s) (Compare_Max.make 0%Qc (Compare_Max.index mx))
        (St.min s) (St.count s) (St.conta s) (St.ni s)).

(** as [most_negative], for the values of [f] at the indices [js] *)
Definition most_negative_on (f : Z -> Qc) (js : list Z) (mx : Compare_Max.t) : Prop :=
  (Compare_Max.index mx = -1 /\ Compare_Max.val mx = 0%Qc /\
   forall j, j ∈ js -> (0 <= f j)%Qc)
  \/
  (Compare_Max.index mx ∈ js /\
   (f (Compare_Max.index mx) < 0)%Qc /\
   Compare_Max.val mx = (- f (Compare_Max.index mx))%Qc /\
   forall j, j ∈ js -> (f (Compare_Max.index mx) <= f j)%Qc).

(** the shared variables of the run on [scenario_optimal] when it enters
    the loop for the first time *)
Definition scenario_optimal_0 : St.t :=
  St.make scenario_optimal (Compare_Max.make 0%Qc 1) Compare_Min.init 0 0 0.

(** ** A team of several threads on the ratio test (lines 307-317) *)

(** the private [min] and [count] of a thread that is given the iterations
    [rows] of the loop of line 308 *)
Fixpoint ratio_thread (colNumb : Z) (t : matrix) (col : Z) (rows : list Z)
    (priv : Compare_Min.t * Z) : res (Compare_Min.t * Z) :=
  match rows with
  | [] => Ok priv
  | i :: rows' =>
      do priv' <- ratio_body colNumb t col i priv;
      ratio_thread colNumb t col rows' priv'
  end.

(** the two reductions at the end of the loop, the threads coming to them
    in the order of the list *)
Fixpoint ratio_team (colNumb : Z) (t : matrix) (col : Z) (team : list (list Z))
    (shared : Compare_Min.t * Z) : res (Compare_Min.t * Z) :=
  match team with
  | [] => Ok shared
  | rows :: team' =>
      do priv <- ratio_thread colNumb t col rows (Compare_Min.init, 0);
      ratio_team colNumb t col team'
        (minimo (fst priv) (fst shared), snd shared + snd priv)
  end.

(** lines 307-317 for a team *)
Definition ratio_test_team (colNumb : Z) (team : list (list Z)) (s : St.t)
  : res St.t :=
  do r <- ratio_team colNumb (St.tableau s) (Compare_Max.index (St.max s)) team
         (St.min s, St.count s);
  Ok (St.make (St.tableau s) (St.max s) (fst r) (snd r) (St.conta s) (St.ni s)).

(** as [least_ratio], for the rows [rows]; [min.index] is left open while no
    row is eligible *)
Definition least_ratio_on (colNumb : Z) (t : matrix) (c : Z) (rows : list Z)
    (acc : Compare_Min.t * Z) : Prop :=
  (Compare_Min.val (fst acc) = HUGE_VAL /\
   snd acc = Z.of_nat (length rows) /\
   forall i, i ∈ rows -> (cell t i c <= 0)%Qc)
  \/
  (Compare_Min.index (fst acc) ∈ rows /\
   (0 < cell t (Compare_Min.index (fst acc)) c)%Qc /\
   Compare_Min.val (fst acc) = Num (ratio colNumb t c (Compare_Min.index (fst acc))) /\
   0 <= snd acc < Z.of_nat (length rows) /\
   forall i, i ∈ rows -> (0 < cell t i c)%Qc ->
             (ratio colNumb t c (Compare_Min.index (fst acc)) <= ratio colNumb t c i)%Qc).

(** a tableau whose objective row has its most negative value in two
    columns, and whose two constraint rows have the same ratio for each *)
Definition tied : matrix :=
  [ qrow [1; 1; 1; 0; 4];
    qrow [1; 1; 0; 1; 4];
    qrow [-1; -1; 0; 0; 0] ].

Definition tied_0 : St.t :=
  St.make tied (Compare_Max.make 0%Qc 0) Compare_Min.init 0 0 0.

(** the team of two threads in which one thread runs iteration [k] alone
    and the other one the rest of [0 .. n-1] *)
Definition alone (k n : Z) : list (list Z) :=
  [[k]; seqZ 0 k ++ seqZ (k + 1) (n - k - 1)].

(** ** A team of several threads on the pivot (lines 329-366) *)

(** the iterations [order] of a work-sharing loop on shared data, one after
    the other *)
Fixpoint for_order {T : Type} (order : list Z) (body : Z -> T -> res T) (s : T)
  : res T :=
  match order with
  | [] => Ok s
  | k :: order' => do s' <- body k s; for_order order' body s'
  end.

(** lines 349-359 for a team: every thread runs its iterations on the
    shared matrix and on its private [conta] and [max], which it then
    combines into the shared ones *)
Fixpoint objective_team (constraintNumb colNumb row : Z) (pivot3 : Qc)
    (team : list (list Z)) (acc : matrix * Z * Compare_Max.t)
  : res (matrix * Z * Compare_Max.t) :=
  match team with
  | [] => Ok acc
  | js :: team' =>
      let '(t, conta, shared) := acc in
      do r <- for_order js (objective_body constraintNumb colNumb row pivot3)
             (t, 0, Compare_Max.init);
      let '(t', cnt, priv) := r in
      objective_team constraintNumb colNumb row pivot3 team'
        (t', conta + cnt, maximo priv shared)
  end.

(** who runs what in the three loops of the pivot: the order of the
    iterations of lines 334-336, that of the iterations of lines 339-347,
    and the iterations of every thread in lines 350-359 *)
Module Schedule.
Record t : Type := make {
  normalize : list Z;
  eliminate : list Z;
  objective : list (list Z)
}.
End Schedule.

(** lines 329-366 for a team.  The iterations of lines 339-347 and those of
    lines 350-359 write different rows and read the pivot row only; the
    two loops are run one after the other. *)
Definition pivoting_team (constraintNumb colNumb : Z) (sch : Schedule.t) (s : St.t)
  : res St.t :=
  let row := Compare_Min.index (St.min s) in
  let col := Compare_Max.index (St.max s) in
  do pivot <- rd (St.tableau s) row col;
  do o <- rd (St.tableau s) constraintNumb col;
  let pivot3 := (- o)%Qc in
  do t1 <- for_order (Schedule.normalize sch) (normalize_body row pivot) (St.tableau s);
  do t2 <- for_order (Schedule.eliminate sch) (eliminate_body colNumb row col) t1;
  do r <- objective_team constraintNumb colNumb row pivot3 (Schedule.objective sch)
         (t2, St.conta s, St.max s);
  let '(t3, conta, mx) := r in
  Ok (St.make t3 (Compare_Max.make 0%Qc (Compare_Max.index mx))
        (Compare_Min.make HUGE_VAL (Compare_Min.index (St.min s)))
        (St.count s) conta (St.ni s + 1)).

(** [sch] gives every iteration of the three loops to one thread, once *)
Definition complete (constraintNumb colNumb : Z) (sch : Schedule.t) : Prop :=
  Schedule.normalize sch ≡ₚ seqZ 0 (colNumb + 1) /\
  Schedule.eliminate sch ≡ₚ seqZ 0 constraintNumb /\
  concat (Schedule.objective sch) ≡ₚ seqZ 0 (colNumb + 1).

(** as [entering], for the values of [f] at the indices [js], on the
    candidate itself *)
Definition entering_on (f : Z -> Qc) (js : list Z) (keep : Z) (mx : Compare_Max.t)
  : Prop :=
  (Compare_Max.index mx = keep /\ Compare_Max.val mx = 0%Qc /\
   forall j, j ∈ js -> (0 <= f j)%Qc)
  \/
  (Compare_Max.index mx ∈ js /\
   (f (Compare_Max.index mx) < 0)%Qc /\
   Compare_Max.val mx = (- f (Compare_Max.index mx))%Qc /\
   forall j, j ∈ js -> (f (Compare_Max.index mx) <= f j)%Qc).

(** the number of strictly negative values of [f] at the indices of [js]
    that are below [n] *)
Fixpoint count_neg_on (f : Z -> Qc) (n : Z) (js : list Z) : Z :=
  match js with
  | [] => 0
  | j :: js' =>
      (if (j <? n) && bool_decide (f j < 0)%Qc then 1 else 0) + count_neg_on f n js'
  end.

(** a schedule of the pivot on [scenario_optimal] that is not the one of a
    single thread *)
Definition scenario_schedule : Schedule.t :=
  Schedule.make [3; 4; 5; 0; 1; 2] [2; 0; 1] [[3; 4; 5]; [0; 1; 2]].

(** ** A team of several threads on the whole run (lines 289-368) *)

(** who runs what in one pass of the do-while: the iterations of every
    thread in the ratio test, and the schedule of the pivot *)
Module Pass.
Record t : Type := make {
  ratio : list (list Z);
  pivot : Schedule.t
}.
End Pass.

(** the body of the do-while for a team *)
Definition iteration_team (constraintNumb colNumb : Z) (sch : Pass.t) (s : St.t)
  : res St.t :=
  do s1 <- ratio_test_team colNumb (Pass.ratio sch) s;
  do s2 <- check_unbounded constraintNumb s1;
  pivoting_team constraintNumb colNumb (Pass.pivot sch) s2.

(** the do-while for a team; [sch k] is the schedule of pass [k] *)
Fixpoint do_while_team (constraintNumb colNumb : Z) (fuel : nat)
    (sch : nat -> Pass.t) (k : nat) (s : St.t) : option (res St.t) :=
  match fuel with
  | O => None
  | S fuel' =>
      match iteration_team constraintNumb colNumb (sch k) s with
      | Ok s' =>
          if St.conta s' =? 0 then Some (Ok s')
          else do_while_team constraintNumb colNumb fuel' sch (S k) s'
      | Exit1 => Some Exit1
      | Fault => Some Fault
      end
  end.

(** the parallel region for a team; [first] is the schedule of the first
    search *)
Definition engine_team (constraintNumb colNumb : Z) (fuel : nat)
    (first : list (list Z)) (sch : nat -> Pass.t) (t : matrix)
  : option (res St.t) :=
  match initial_scan_team constraintNumb first (enter t) with
  | Ok s => do_while_team constraintNumb colNumb fuel sch 0 s
  | Exit1 => Some Exit1
  | Fault => Some Fault
  end.

Definition complete_pass (constraintNumb colNumb : Z) (sch : Pass.t) : Prop :=
  concat (Pass.ratio sch) ≡ₚ seqZ 0 constraintNumb /\
  complete constraintNumb colNumb (Pass.pivot sch).

(** no two eligible rows have the same ratio for column [c] *)
Definition no_tied_rows (constraintNumb colNumb : Z) (t : matrix) (c : Z) : Prop :=
  forall i1 i2,
    0 <= i1 < constraintNumb -> 0 <= i2 < constraintNumb ->
    (0 < cell t i1 c)%Qc -> (0 < cell t i2 c)%Qc ->
    ratio colNumb t c i1 = ratio colNumb t c i2 -> i1 = i2.

(** no negative value of [f 0 .. f (n-1)] is there twice *)
Definition no_tied_columns (f : Z -> Qc) (n : Z) : Prop :=
  forall j1 j2,
    0 <= j1 < n -> 0 <= j2 < n -> (f j1 < 0)%Qc -> f j1 = f j2 -> j1 = j2.

(** the run of one thread on [t] meets no tie: not in the first search,
    and in no pass, neither in its ratio test nor in the search that ends
    it *)
Definition no_ties (constraintNumb colNumb : Z) (t : matrix) : Prop :=
  no_tied_columns (cell t constraintNumb) (colNumb + 1) /\
  forall k s,
    at_iteration constraintNumb colNumb t k s ->
    no_tied_rows constraintNumb colNumb (St.tableau s) (Compare_Max.index (St.max s)) /\
    forall s', iteration constraintNumb colNumb s = Ok s' ->
               no_tied_columns (cell (St.tableau s') constraintNumb) colNumb.

(** a schedule of the first search and one of every pass of the run on
    [scenario_optimal] *)
Definition scenario_first : list (list Z) := [[3; 4; 5]; [0; 1; 2]].

Definition scenario_pass (k : nat) : Pass.t :=
  Pass.make [[2]; [0; 1]] scenario_schedule.

(** the shared variables when the run of a team on [tied] that enters
    column 1 and pivots on row 1 leaves the loop *)
Definition tied_pass (k : nat) : Pass.t :=
  Pass.make (alone 1 2) (Schedule.make [4; 3; 2; 1; 0] [1; 0] (alone 1 5)).

Definition tied_end : St.t :=
  match engine_team 2 4 1 (alone 1 5) tied_pass tied with
  | Some (Ok s) => s
  | _ => enter tied
  end.

(** a point of [tied] with the objective value 4 *)
Definition tied_point (j : Z) : Qc := if j =? 1 then qz 4 else 0%Qc.

(** * Properties *)

(** ** Loops *)

Lemma for_loop_from {T : Type} (P : Z -> T -> Prop) (body : Z -> T -> res T) :
  forall (m : nat) (from : Z) (s : T),
    P from s ->
    (forall k x, from <= k < from + Z.of_nat m -> P k x ->
                 exists x', body k x = Ok x' /\ P (k + 1) x') ->
    exists s', for_loop m from body s = Ok s' /\ P (from + Z.of_nat m) s'.
Proof.
  induction m as [|m IH]; intros from s H0 Hstep.
  - exists s. split; [reflexivity|]. now replace (from + Z.of_nat 0) with from by lia.
  - destruct (Hstep from s) as (x' & Hb & Hx'); [lia|assumption|].
    destruct (IH (from + 1) x' Hx') as (s' & Hl & Hs').
    + intros k x Hk. apply Hstep. lia.
    + exists s'. split.
      * simpl. rewrite Hb. exact Hl.
      * now replace (from + Z.of_nat (S m)) with (from + 1 + Z.of_nat m) by lia.
Qed.

(** The invariant rule for [for (k = 0; k < n; k++)]. *)
Lemma for_loop_total {T : Type} (P : Z -> T -> Prop) (body : Z -> T -> res T)
    (n : Z) (s : T) :
  0 <= n ->
  P 0 s ->
  (forall k x, 0 <= k < n -> P k x -> exists x', body k x = Ok x' /\ P (k + 1) x') ->
  exists s', for_loop (Z.to_nat n) 0 body s = Ok s' /\ P n s'.
Proof.
  intros Hn H0 Hstep.
  destruct (for_loop_from P body (Z.to_nat n) 0 s H0) as (s' & Hl & Hs').
  - intros k x Hk. apply Hstep. lia.
  - exists s'. split; [exact Hl|]. now replace n with (0 + Z.of_nat (Z.to_nat n)) by lia.
Qed.

(** ** Reads and writes *)

Section Memory.
Variables constraintNumb colNumb : Z.
Local Abbreviation wf := (well_formed constraintNumb colNumb).

Lemma rd_in_bounds t i j :
  wf t -> 0 <= i <= constraintNumb -> 0 <= j <= colNumb ->
  rd t i j = Ok (cell t i j).
Proof.
  intros (Hc & Hl & Hlen & Hrows) Hi Hj. unfold cell, rd.
  replace (0 <=? i) with true by lia. replace (0 <=? j) with true by lia. simpl.
  destruct (t !! Z.to_nat i) as [row|] eqn:Hrow.
  - assert (Hr : length row = Z.to_nat (colNumb + 1))
      by (eapply (Forall_lookup_1 _ _ _ _ Hrows); eauto).
    destruct (row !! Z.to_nat j) as [x|] eqn:Hx; [reflexivity|].
    apply lookup_ge_None in Hx. lia.
  - apply lookup_ge_None in Hrow. lia.
Qed.

Lemma rd_column_out t i j : j < 0 -> rd t i j = Fault.
Proof.
  intros Hj. unfold rd. replace (0 <=? j) with false by lia.
  now rewrite andb_false_r.
Qed.

Lemma wr_in_bounds t i j x :
  wf t -> 0 <= i <= constraintNumb -> 0 <= j <= colNumb ->
  exists t', wr t i j x = Ok t' /\ wf t'.
Proof.
  intros (Hc & Hl & Hlen & Hrows) Hi Hj. unfold wr.
  replace (0 <=? i) with true by lia. replace (0 <=? j) with true by lia. simpl.
  destruct (t !! Z.to_nat i) as [row|] eqn:Hrow.
  - assert (Hr : length row = Z.to_nat (colNumb + 1))
      by (eapply (Forall_lookup_1 _ _ _ _ Hrows); eauto).
    replace (Z.to_nat j <? length row)%nat with true
      by (symmetry; apply Nat.ltb_lt; lia).
    eexists. split; [reflexivity|].
    split; [assumption|]. split; [assumption|]. split.
    + now rewrite length_insert.
    + apply Forall_insert; [assumption|]. now rewrite length_insert.
  - apply lookup_ge_None in Hrow. lia.
Qed.

Lemma cell_wr t t' i j x i' j' :
  wr t i j x = Ok t' ->
  cell t' i' j' = if (i' =? i) && (j' =? j) then x else cell t i' j'.
Proof.
  unfold wr, cell, rd. intros Hw.
  destruct (0 <=? i) eqn:Hi; [|discriminate].
  destruct (0 <=? j) eqn:Hj; [|discriminate]. simpl in Hw.
  destruct (t !! Z.to_nat i) as [row|] eqn:Hrow; [|discriminate].
  destruct (Z.to_nat j <? length row)%nat eqn:Hlt; [|discriminate].
  apply Nat.ltb_lt in Hlt. injection Hw as <-.
  destruct (0 <=? i') eqn:Hi'; [|now replace (i' =? i) with false by lia].
  destruct (0 <=? j') eqn:Hj'; simpl;
    [|now replace (j' =? j) with false by lia; rewrite andb_false_r].
  destruct (i' =? i) eqn:Eii; simpl.
  - apply Z.eqb_eq in Eii. subst i'.
    rewrite list_lookup_insert_eq by (eapply lookup_lt_Some; eauto).
    destruct (j' =? j) eqn:Ejj.
    + apply Z.eqb_eq in Ejj. subst j'. now rewrite list_lookup_insert_eq.
    + rewrite list_lookup_insert_ne by lia. now rewrite Hrow.
  - rewrite list_lookup_insert_ne by lia. reflexivity.
Qed.
End Memory.

(** ** Arithmetic on [Qc] through [Q] *)

Lemma Qc_eq_Qeq (x y : Qc) : x = y -> (this x == this y)%Q.
Proof. now intros ->. Qed.

Ltac qc_to_q :=
  repeat match goal with
  | H : @eq Qc _ _ |- _ => apply Qc_eq_Qeq in H
  | |- @eq Qc _ _ => apply Qc_is_canon
  end;
  unfold Qcle, Qclt, Qcdiv, Qcminus, Qcplus, Qcmult, Qcopp, Q2Qc in *;
  simpl this in *;
  repeat (rewrite !Qred_correct in * ).

Ltac qc_lra := qc_to_q; lra.
Ltac qc_nra := qc_to_q; nra.

Lemma Qc_pos_neq0 (a : Qc) : (0 < a)%Qc -> a <> 0%Qc.
Proof. intros Ha ->. inversion Ha. Qed.

Lemma Qcdiv_nonneg (a b : Qc) : (0 < a -> 0 <= b -> 0 <= b / a)%Qc.
Proof.
  intros Ha Hb.
  assert (Hr : (b = b / a * a)%Qc) by (field; now apply Qc_pos_neq0).
  destruct (Qclt_le_dec (b / a) 0) as [Hn|]; [exfalso|assumption].
  revert Hr Hn. generalize (b / a)%Qc. intros r Hr Hn. qc_nra.
Qed.

(** a row that stays non-negative when the row of the least ratio is
    subtracted from it *)
Lemma ratio_keeps_nonneg (a b c d : Qc) :
  (0 < a -> 0 <= b -> 0 <= d -> (0 < c -> b / a <= d / c) ->
   0 <= - c * (b / a) + d)%Qc.
Proof.
  intros Ha Hb Hd Hmin.
  assert (Hr : (b = b / a * a)%Qc) by (field; now apply Qc_pos_neq0).
  assert (Hr0 : (0 <= b / a)%Qc) by now apply Qcdiv_nonneg.
  destruct (Qclt_le_dec 0 c) as [Hc|Hc].
  - specialize (Hmin Hc).
    assert (Hq : (d = d / c * c)%Qc) by (field; now apply Qc_pos_neq0).
    revert Hr Hr0 Hmin Hq. generalize (b / a)%Qc (d / c)%Qc. intros r q Hr Hr0 Hmin Hq.
    qc_nra.
  - clear Hmin Hr. revert Hr0. generalize (b / a)%Qc. intros r Hr0. qc_nra.
Qed.

(** comparisons that the context settles are replaced by their value, the
    others are split *)
Ltac zbool_step :=
  match goal with
  | |- context [?a =? ?b] =>
      first [ replace (a =? b) with true by (symmetry; apply Z.eqb_eq; lia)
            | replace (a =? b) with false by (symmetry; apply Z.eqb_neq; lia)
            | destruct (Z.eqb_spec a b) ]
  | |- context [?a <? ?b] =>
      first [ replace (a <? b) with true by (symmetry; apply Z.ltb_lt; lia)
            | replace (a <? b) with false by (symmetry; apply Z.ltb_ge; lia)
            | destruct (Z.ltb_spec a b) ]
  | |- context [?a <=? ?b] =>
      first [ replace (a <=? b) with true by (symmetry; apply Z.leb_le; lia)
            | replace (a <=? b) with false by (symmetry; apply Z.leb_gt; lia)
            | destruct (Z.leb_spec a b) ]
  end.

Ltac zbool := repeat zbool_step; simpl; try lia; try congruence.

(** ** The two searches *)

Lemma most_negative_step f k mx :
  0 <= k ->
  most_negative f k mx ->
  most_negative f (k + 1) (scan_step (f k) k mx).
Proof.
  intros Hk [(Hi & Hv & Hall)|(Hi & Hneg & Hv & Hall)]; unfold scan_step.
  - rewrite Hv. case_bool_decide as Hx; simpl.
    + case_bool_decide as Hlt; [|exfalso; apply Hlt; clear -Hx; qc_lra].
      right. simpl. repeat split; try lia; try assumption.
      intros j Hj. destruct (Z.eq_dec j k) as [->|Hne]; [apply Qcle_refl|].
      assert (0 <= f j)%Qc by (apply Hall; lia).
      clear -Hx H. qc_lra.
    + left. repeat split; try assumption.
      intros j Hj. destruct (Z.eq_dec j k) as [->|Hne].
      * now apply Qcnot_lt_le.
      * apply Hall. lia.
  - case_bool_decide as Hx; simpl; [case_bool_decide as Hlt|]; simpl.
    + right. simpl. repeat split; try lia; try assumption.
      intros j Hj. destruct (Z.eq_dec j k) as [->|Hne]; [apply Qcle_refl|].
      assert (f (Compare_Max.index mx) <= f j)%Qc by (apply Hall; lia).
      rewrite Hv in Hlt. clear -Hlt H. qc_lra.
    + right. repeat split; try lia; try assumption.
      intros j Hj. destruct (Z.eq_dec j k) as [->|Hne]; [|apply Hall; lia].
      rewrite Hv in Hlt. apply Qcnot_lt_le in Hlt. clear -Hlt. qc_lra.
    + right. repeat split; try lia; try assumption.
      intros j Hj. destruct (Z.eq_dec j k) as [->|Hne]; [|apply Hall; lia].
      apply Qcnot_lt_le in Hx. clear -Hx Hneg. qc_lra.
Qed.

Lemma most_negative_init f : most_negative f 0 Compare_Max.init.
Proof. left. repeat split. intros j Hj. lia. Qed.

Lemma count_neg_succ f k :
  0 <= k ->
  count_neg f (Z.to_nat (k + 1)) =
  count_neg f (Z.to_nat k) + (if bool_decide (f k < 0)%Qc then 1 else 0).
Proof.
  intros Hk. replace (Z.to_nat (k + 1)) with (S (Z.to_nat k)) by lia.
  simpl. now rewrite Z2Nat.id by lia.
Qed.

Lemma count_neg_nonneg f n : 0 <= count_neg f n.
Proof. induction n as [|n IH]; simpl; [lia|]. case_bool_decide; lia. Qed.

Lemma count_neg_zero f n :
  count_neg f n = 0 <-> forall j, 0 <= j < Z.of_nat n -> (0 <= f j)%Qc.
Proof.
  induction n as [|n IH]; simpl.
  - split; [intros _ j Hj; lia|reflexivity].
  - pose proof (count_neg_nonneg f n) as Hnn. split.
    + intros Hc j Hj. case_bool_decide as Hx; [lia|].
      destruct (Z.eq_dec j (Z.of_nat n)) as [->|Hne].
      * now apply Qcnot_lt_le.
      * apply IH; lia.
    + intros Hall. case_bool_decide as Hx.
      * exfalso. apply (Qclt_not_le _ _ Hx). apply Hall. lia.
      * rewrite Z.add_0_r. apply IH. intros j Hj. apply Hall. lia.
Qed.

Lemma maximo_entering f n priv keep :
  most_negative f n priv ->
  entering f n keep
    (Compare_Max.index (maximo priv (Compare_Max.make 0%Qc keep))).
Proof.
  intros [(Hi & Hv & Hall)|(Hi & Hneg & Hv & Hall)]; unfold maximo; simpl.
  - rewrite Hv. case_bool_decide as H0; [inversion H0|]. left. now split.
  - rewrite Hv. case_bool_decide as H0.
    + right. now repeat split.
    + exfalso. apply H0. clear -Hneg. qc_lra.
Qed.

Section Searches.
Variables constraintNumb colNumb : Z.
Local Abbreviation wf := (well_formed constraintNumb colNumb).

Lemma scan_body_step t j mx :
  wf t -> 0 <= j <= colNumb ->
  scan_body constraintNumb t j mx
  = Ok (scan_step (cell t constraintNumb j) j mx).
Proof.
  intros Hwf Hj. unfold scan_body, scan_step.
  rewrite (rd_in_bounds constraintNumb colNumb) by (try assumption; destruct Hwf; lia).
  simpl. now destruct (_ && _).
Qed.

Lemma scan_loop t n :
  wf t -> 0 <= n <= colNumb + 1 ->
  exists mx,
    for_loop (Z.to_nat n) 0 (scan_body constraintNumb t) Compare_Max.init = Ok mx /\
    most_negative (cell t constraintNumb) n mx.
Proof.
  intros Hwf Hn.
  apply (for_loop_total (most_negative (cell t constraintNumb))); [lia| |].
  - apply most_negative_init.
  - intros k mx Hk Hmx. eexists. split.
    + apply scan_body_step; [assumption|lia].
    + apply most_negative_step; [lia|assumption].
Qed.

(** lines 294-303: the matrix and the counters are left as they were,
    [max.val] is 0 again and [max.index] is the entering column, or still
    -1 when no entry of the objective row, its last one included, is
    negative. *)
Lemma initial_scan_spec t :
  wf t ->
  exists idx,
    initial_scan constraintNumb colNumb (enter t)
    = Ok (St.make t (Compare_Max.make 0%Qc idx) Compare_Min.init 0 0 0) /\
    entering (cell t constraintNumb) (colNumb + 1) (-1) idx.
Proof.
  intros Hwf. destruct (scan_loop t (colNumb + 1) Hwf) as (mx & Hl & Hmx);
    [destruct Hwf; lia|].
  eexists. unfold initial_scan. simpl. rewrite Hl. simpl. split; [reflexivity|].
  now apply maximo_entering.
Qed.

Lemma ratio_body_step t c k acc :
  wf t -> 0 <= c <= colNumb -> 0 <= k < constraintNumb ->
  least_ratio colNumb t c k acc ->
  exists acc',
    ratio_body colNumb t c k acc = Ok acc' /\ least_ratio colNumb t c (k + 1) acc'.
Proof.
  intros Hwf Hc Hk Hacc. destruct acc as [mn cnt]. unfold ratio_body.
  rewrite (rd_in_bounds constraintNumb colNumb) by (try assumption; lia). simpl.
  case_bool_decide as Ha.
  - rewrite (rd_in_bounds constraintNumb colNumb) by (try assumption; destruct Hwf; lia).
    simpl. fold (ratio colNumb t c k).
    destruct Hacc as [(Hv & Hi & Hcnt & Hall)|(Hi & Hpos & Hv & Hcnt & Hall)];
      simpl in *; rewrite Hv; simpl.
    + eexists. split; [reflexivity|]. right. simpl.
      repeat split; try lia; try assumption.
      intros i Hi' Hpi. destruct (Z.eq_dec i k) as [->|Hne]; [apply Qcle_refl|].
      exfalso. apply (Qclt_not_le _ _ Hpi). apply Hall. lia.
    + case_bool_decide as Hlt; eexists; (split; [reflexivity|]); right; simpl.
      * repeat split; try lia; try assumption.
        intros i Hi' Hpi. destruct (Z.eq_dec i k) as [->|Hne]; [apply Qcle_refl|].
        apply Qclt_le_weak. eapply Qclt_le_trans; [exact Hlt|].
        apply Hall; [lia|assumption].
      * repeat split; try lia; try assumption.
        intros i Hi' Hpi. destruct (Z.eq_dec i k) as [->|Hne].
        -- now apply Qcnot_lt_le.
        -- apply Hall; [lia|assumption].
  - apply Qcnot_lt_le in Ha.
    destruct Hacc as [(Hv & Hi & Hcnt & Hall)|(Hi & Hpos & Hv & Hcnt & Hall)];
      simpl in *; eexists; (split; [reflexivity|]).
    + left. simpl. repeat split; try lia; try assumption.
      intros i Hi'. destruct (Z.eq_dec i k) as [->|Hne]; [assumption|apply Hall; lia].
    + right. simpl. repeat split; try lia; try assumption.
      intros i Hi' Hpi. destruct (Z.eq_dec i k) as [->|Hne].
      * exfalso. now apply (Qclt_not_le _ _ Hpi).
      * apply Hall; [lia|assumption].
Qed.

Lemma ratio_loop t c :
  wf t -> 0 <= c <= colNumb ->
  exists acc,
    for_loop (Z.to_nat constraintNumb) 0 (ratio_body colNumb t c) (Compare_Min.init, 0)
    = Ok acc /\
    least_ratio colNumb t c constraintNumb acc.
Proof.
  intros Hwf Hc.
  apply (for_loop_total (least_ratio colNumb t c)); [destruct Hwf; lia| |].
  - left. simpl. repeat split. intros i Hi. lia.
  - intros k acc Hk Hacc. now apply ratio_body_step.
Qed.
End Searches.

(** ** The three loops of the pivot *)

Section RowLoops.
Variables constraintNumb colNumb : Z.
Local Abbreviation wf := (well_formed constraintNumb colNumb).

(** lines 334-336 *)
Lemma normalize_loop t p pivot :
  wf t -> 0 <= p <= constraintNumb ->
  exists t',
    for_loop (Z.to_nat (colNumb + 1)) 0 (normalize_body p pivot) t = Ok t' /\
    wf t' /\
    forall i j,
      cell t' i j =
      if (i =? p) && (0 <=? j) && (j <=? colNumb)
      then (cell t p j / pivot)%Qc else cell t i j.
Proof.
  intros Hwf Hp.
  destruct (for_loop_total
    (fun k t' => wf t' /\ forall i j,
       cell t' i j = if (i =? p) && (0 <=? j) && (j <? k)
                     then (cell t p j / pivot)%Qc else cell t i j)
    (normalize_body p pivot) (colNumb + 1) t) as (t' & Hl & Hwf' & Hcell).
  - destruct Hwf; lia.
  - split; [assumption|]. intros i j. zbool.
  - intros k x Hk (Hx & Hc). unfold normalize_body.
    rewrite (rd_in_bounds constraintNumb colNumb) by (try assumption; lia). simpl.
    destruct (wr_in_bounds constraintNumb colNumb x p k (cell x p k / pivot)%Qc)
      as (x' & Hw & Hx'); [assumption|lia|lia|].
    exists x'. split; [assumption|]. split; [assumption|].
    intros i j. rewrite (cell_wr _ _ _ _ _ i j Hw), !Hc. zbool.
  - exists t'. split; [assumption|]. split; [assumption|].
    intros i j. rewrite Hcell. zbool.
Qed.

(** lines 344 and 351, at column [k] of a row [i] whose columns before [k]
    are done *)
Lemma eliminate_cell_step t0 t p f i k :
  wf t -> 0 <= p <= constraintNumb -> 0 <= i <= constraintNumb -> i <> p ->
  0 <= k <= colNumb ->
  (forall i' j, cell t i' j =
                if (i' =? i) && (0 <=? j) && (j <? k)
                then (f * cell t0 p j + cell t0 i j)%Qc else cell t0 i' j) ->
  exists t',
    eliminate_cell p f i k t = Ok t' /\ wf t' /\
    cell t' i k = (f * cell t0 p k + cell t0 i k)%Qc /\
    forall i' j, cell t' i' j =
                 if (i' =? i) && (0 <=? j) && (j <? k + 1)
                 then (f * cell t0 p j + cell t0 i j)%Qc else cell t0 i' j.
Proof.
  intros Hwf Hp Hi Hne Hk Hc. unfold eliminate_cell.
  rewrite !(rd_in_bounds constraintNumb colNumb) by (try assumption; lia). simpl.
  destruct (wr_in_bounds constraintNumb colNumb t i k (f * cell t p k + cell t i k)%Qc)
    as (t' & Hw & Hwf'); [assumption|lia|lia|].
  assert (Hnew : (f * cell t p k + cell t i k = f * cell t0 p k + cell t0 i k)%Qc).
  { rewrite !Hc. zbool. }
  exists t'. split; [assumption|]. split; [assumption|]. split.
  - rewrite (cell_wr _ _ _ _ _ i k Hw), Hnew. zbool.
  - intros i' j. rewrite (cell_wr _ _ _ _ _ i' j Hw), Hnew, Hc. zbool.
Qed.

(** lines 343-345 *)
Lemma eliminate_row_loop t p f i :
  wf t -> 0 <= p <= constraintNumb -> 0 <= i <= constraintNumb -> i <> p ->
  exists t',
    for_loop (Z.to_nat (colNumb + 1)) 0 (eliminate_cell p f i) t = Ok t' /\
    wf t' /\
    forall i' j,
      cell t' i' j =
      if (i' =? i) && (0 <=? j) && (j <=? colNumb)
      then (f * cell t p j + cell t i j)%Qc else cell t i' j.
Proof.
  intros Hwf Hp Hi Hne.
  destruct (for_loop_total
    (fun k t' => wf t' /\ forall i' j,
       cell t' i' j = if (i' =? i) && (0 <=? j) && (j <? k)
                      then (f * cell t p j + cell t i j)%Qc else cell t i' j)
    (eliminate_cell p f i) (colNumb + 1) t) as (t' & Hl & Hwf' & Hcell).
  - destruct Hwf; lia.
  - split; [assumption|]. intros i' j. zbool.
  - intros k x Hk (Hx & Hc).
    destruct (eliminate_cell_step t x p f i k) as (x' & He & Hx' & _ & Hc');
      try assumption; try lia.
    exists x'. auto.
  - exists t'. split; [assumption|]. split; [assumption|].
    intros i' j. rewrite Hcell. zbool.
Qed.

(** lines 339-347 *)
Lemma eliminate_loop t p c :
  wf t -> 0 <= p <= constraintNumb -> 0 <= c <= colNumb ->
  exists t',
    for_loop (Z.to_nat constraintNumb) 0 (eliminate_body colNumb p c) t = Ok t' /\
    wf t' /\
    forall i j,
      cell t' i j =
      if (0 <=? i) && (i <? constraintNumb) && negb (i =? p)
         && (0 <=? j) && (j <=? colNumb)
      then (- cell t i c * cell t p j + cell t i j)%Qc else cell t i j.
Proof.
  intros Hwf Hp Hc.
  apply (for_loop_total
    (fun k t' => wf t' /\ forall i j,
       cell t' i j = if (0 <=? i) && (i <? k) && negb (i =? p)
                        && (0 <=? j) && (j <=? colNumb)
                     then (- cell t i c * cell t p j + cell t i j)%Qc else cell t i j)).
  - destruct Hwf; lia.
  - split; [assumption|]. intros i j. zbool.
  - intros k x Hk (Hx & Hcell). unfold eliminate_body.
    destruct (Z.eqb_spec k p) as [->|Hkp]; simpl.
    + exists x. split; [reflexivity|]. split; [assumption|].
      intros i j. rewrite Hcell. zbool.
    + rewrite (rd_in_bounds constraintNumb colNumb) by (try assumption; lia). simpl.
      destruct (eliminate_row_loop x p (- cell x k c)%Qc k) as (x' & Hl & Hx' & Hc');
        try assumption; try lia.
      exists x'. split; [assumption|]. split; [assumption|].
      intros i j. rewrite Hc', !Hcell. zbool.
Qed.
End RowLoops.

Lemma most_negative_ext f g n mx :
  (forall j, 0 <= j < n -> f j = g j) ->
  most_negative f n mx -> most_negative g n mx.
Proof.
  intros Hfg [(Hi & Hv & Hall)|(Hi & Hneg & Hv & Hall)].
  - left. repeat split; try assumption. intros j Hj. rewrite <- Hfg by lia. now apply Hall.
  - right. rewrite <- (Hfg (Compare_Max.index mx)) by lia.
    repeat split; try assumption; try lia.
    intros j Hj. rewrite <- Hfg by lia. now apply Hall.
Qed.

Lemma count_neg_ext f g n :
  (forall j, 0 <= j < Z.of_nat n -> f j = g j) ->
  count_neg f n = count_neg g n.
Proof.
  induction n as [|n IH]; intros Hfg; simpl; [reflexivity|].
  rewrite IH by (intros j Hj; apply Hfg; lia).
  now rewrite (Hfg (Z.of_nat n)) by lia.
Qed.

(** ** The pivot *)

Section Pivot.
Variables constraintNumb colNumb : Z.
Local Abbreviation wf := (well_formed constraintNumb colNumb).

(** lines 349-359 *)
Lemma objective_loop t p pivot3 :
  wf t -> 0 <= p < constraintNumb ->
  let g := fun j => (pivot3 * cell t p j + cell t constraintNumb j)%Qc in
  exists t' mx,
    for_loop (Z.to_nat (colNumb + 1)) 0
      (objective_body constraintNumb colNumb p pivot3) (t, 0, Compare_Max.init)
    = Ok (t', count_neg g (Z.to_nat colNumb), mx) /\
    wf t' /\
    (forall i j,
       cell t' i j =
       if (i =? constraintNumb) && (0 <=? j) && (j <=? colNumb)
       then g j else cell t i j) /\
    most_negative g colNumb mx.
Proof.
  intros Hwf Hp g.
  destruct (for_loop_total
    (fun k acc =>
       wf (fst (fst acc)) /\
       (forall i j,
          cell (fst (fst acc)) i j =
          if (i =? constraintNumb) && (0 <=? j) && (j <? k) then g j else cell t i j) /\
       snd (fst acc) = count_neg g (Z.to_nat (Z.min k colNumb)) /\
       most_negative g (Z.min k colNumb) (snd acc))
    (objective_body constraintNumb colNumb p pivot3) (colNumb + 1)
    (t, 0, Compare_Max.init)) as ([[t' cnt] mx] & Hl & Hwf' & Hcell & Hcnt & Hmx).
  - destruct Hwf; lia.
  - simpl. split; [assumption|]. split; [intros i j; zbool|].
    replace (Z.min 0 colNumb) with 0 by (destruct Hwf; lia).
    split; [reflexivity|apply most_negative_init].
  - intros k [[x cnt] mx] Hk (Hx & Hc & Hcnt & Hmx). simpl in Hx, Hc, Hcnt, Hmx.
    unfold objective_body.
    destruct (eliminate_cell_step constraintNumb colNumb t x p pivot3 constraintNumb k)
      as (x' & He & Hx' & Hk' & Hc'); try assumption; try lia.
    rewrite He. simpl.
    rewrite (rd_in_bounds constraintNumb colNumb) by (try assumption; lia). simpl.
    rewrite Hk'. fold (g k).
    destruct (Z.ltb_spec k colNumb) as [Hlt|Hge]; simpl.
    + replace (Z.min k colNumb) with k in * by lia.
      replace (Z.min (k + 1) colNumb) with (k + 1) by lia.
      assert (Hs := most_negative_step g k mx (proj1 Hk) Hmx). unfold scan_step in Hs.
      case_bool_decide as Hneg; simpl in Hs.
      * case_bool_decide as Hbig; eexists; (split; [reflexivity|]); simpl;
          (split; [assumption|]); (split; [assumption|]);
          (split; [|assumption]);
          rewrite count_neg_succ, Hcnt by lia; now rewrite bool_decide_true.
      * eexists; (split; [reflexivity|]); simpl.
        split; [assumption|]. split; [assumption|]. split; [|assumption].
        rewrite count_neg_succ, Hcnt by lia. rewrite bool_decide_false by assumption. lia.
    + replace (Z.min k colNumb) with colNumb in * by lia.
      replace (Z.min (k + 1) colNumb) with colNumb by lia.
      eexists; (split; [reflexivity|]); simpl. auto.
  - simpl in Hwf', Hcell, Hcnt, Hmx.
    replace (Z.min (colNumb + 1) colNumb) with colNumb in * by lia.
    exists t', mx. subst cnt. split; [assumption|]. split; [assumption|].
    split; [|assumption]. intros i j. rewrite Hcell. zbool.
Qed.

(** lines 329-366, from a state in which [max.val] has been reset *)
Lemma pivoting_spec s :
  let t := St.tableau s in
  let p := Compare_Min.index (St.min s) in
  let c := Compare_Max.index (St.max s) in
  wf t -> 0 <= p < constraintNumb -> 0 <= c <= colNumb ->
  exists t' idx,
    pivoting constraintNumb colNumb s
    = Ok (St.make t' (Compare_Max.make 0%Qc idx) (Compare_Min.make HUGE_VAL p)
            (St.count s)
            (St.conta s + count_neg (cell t' constraintNumb) (Z.to_nat colNumb))
            (St.ni s + 1)) /\
    wf t' /\
    (forall i j, 0 <= i <= constraintNumb -> 0 <= j <= colNumb ->
                 cell t' i j = pivoted t p c i j) /\
    (Compare_Max.val (St.max s) = 0%Qc ->
     entering (cell t' constraintNumb) colNumb c idx).
Proof.
  intros t p c Hwf Hp Hc. unfold pivoting. fold t p c.
  rewrite !(rd_in_bounds constraintNumb colNumb) by (try assumption; lia). simpl.
  destruct (normalize_loop constraintNumb colNumb t p (cell t p c))
    as (t1 & H1 & Hwf1 & Hc1); [assumption|lia|].
  rewrite H1. simpl.
  destruct (eliminate_loop constraintNumb colNumb t1 p c)
    as (t2 & H2 & Hwf2 & Hc2); [assumption|lia|lia|].
  rewrite H2. simpl.
  destruct (objective_loop t2 p (- cell t constraintNumb c)%Qc)
    as (t3 & mx & H3 & Hwf3 & Hc3 & Hmx); [assumption|lia|].
  rewrite H3. simpl.
  assert (Hrow : forall j, 0 <= j <= colNumb ->
            cell t3 constraintNumb j
            = (- cell t constraintNumb c * cell t2 p j + cell t2 constraintNumb j)%Qc).
  { intros j Hj. rewrite Hc3. zbool. }
  exists t3, (Compare_Max.index (maximo mx (St.max s))).
  split; [|split; [assumption|split]].
  - erewrite count_neg_ext; [reflexivity|].
    intros j Hj. simpl. rewrite Hrow by lia. reflexivity.
  - intros i j Hi Hj. unfold pivoted.
    rewrite Hc3, !Hc2, !Hc1. zbool.
  - intros Hval. replace (St.max s) with (Compare_Max.make 0%Qc c)
      by (subst c; destruct (St.max s); simpl in *; now subst).
    apply maximo_entering.
    eapply most_negative_ext; [|exact Hmx].
    intros j Hj. simpl. rewrite Hrow by lia. reflexivity.
Qed.
End Pivot.

(** ** One iteration of the do-while *)

Section Iteration.
Variables constraintNumb colNumb : Z.
Local Abbreviation wf := (well_formed constraintNumb colNumb).

(** lines 307-327 *)
Lemma ratio_phase s :
  let t := St.tableau s in
  let c := Compare_Max.index (St.max s) in
  loop_top constraintNumb colNumb s -> 0 <= c <= colNumb ->
  ((forall i, 0 <= i < constraintNumb -> (cell t i c <= 0)%Qc) /\
   (do s1 <- ratio_test constraintNumb colNumb s; check_unbounded constraintNumb s1)
   = Exit1)
  \/
  (exists p,
     0 <= p < constraintNumb /\ (0 < cell t p c)%Qc /\
     (forall i, 0 <= i < constraintNumb -> (0 < cell t i c)%Qc ->
                (ratio colNumb t c p <= ratio colNumb t c i)%Qc) /\
     (do s1 <- ratio_test constraintNumb colNumb s; check_unbounded constraintNumb s1)
     = Ok (St.make t (St.max s) (Compare_Min.make (Num (ratio colNumb t c p)) p)
             0 0 (St.ni s))).
Proof.
  intros t c (Hwf & Hcount & Hmax & Hmin) Hc. unfold ratio_test. fold t c.
  destruct (ratio_loop constraintNumb colNumb t c Hwf Hc) as ([mn cnt] & Hl & Hr).
  rewrite Hl. simpl. unfold check_unbounded, minimo. simpl. rewrite Hcount, Hmin.
  destruct Hr as [(Hv & Hi & Hcnt & Hall)|(Hi & Hpos & Hv & Hcnt & Hall)];
    simpl in *; rewrite Hv; simpl.
  - left. split; [assumption|]. subst cnt. now rewrite Z.add_0_l, Z.eqb_refl.
  - right. exists (Compare_Min.index mn). repeat split; try lia; try assumption.
    rewrite Z.add_0_l. destruct (Z.eqb_spec cnt constraintNumb); [lia|].
    destruct mn; simpl in *. now subst.
Qed.

(** lines 305-366, from a column [max.index] inside the matrix *)
Lemma iteration_spec s :
  let t := St.tableau s in
  let c := Compare_Max.index (St.max s) in
  loop_top constraintNumb colNumb s -> 0 <= c <= colNumb ->
  ((forall i, 0 <= i < constraintNumb -> (cell t i c <= 0)%Qc) /\
   iteration constraintNumb colNumb s = Exit1)
  \/
  (exists p t' idx,
     0 <= p < constraintNumb /\ (0 < cell t p c)%Qc /\
     (forall i, 0 <= i < constraintNumb -> (0 < cell t i c)%Qc ->
                (ratio colNumb t c p <= ratio colNumb t c i)%Qc) /\
     iteration constraintNumb colNumb s
     = Ok (St.make t' (Compare_Max.make 0%Qc idx) (Compare_Min.make HUGE_VAL p) 0
             (count_neg (cell t' constraintNumb) (Z.to_nat colNumb)) (St.ni s + 1)) /\
     wf t' /\
     (forall i j, 0 <= i <= constraintNumb -> 0 <= j <= colNumb ->
                  cell t' i j = pivoted t p c i j) /\
     entering (cell t' constraintNumb) colNumb c idx).
Proof.
  intros t c Htop Hc.
  assert (Hit : iteration constraintNumb colNumb s
                = do s2 <- (do s1 <- ratio_test constraintNumb colNumb s;
                            check_unbounded constraintNumb s1);
                  pivoting constraintNumb colNumb s2).
  { unfold iteration. now destruct (ratio_test constraintNumb colNumb s). }
  destruct (ratio_phase s Htop Hc) as [(Hall & He)|(p & Hp & Hpos & Hleast & He)];
    fold t c in He; rewrite Hit, He; simpl.
  - left. now split.
  - right. destruct Htop as (Hwf & _ & Hmax & _).
    destruct (pivoting_spec constraintNumb colNumb
                (St.make t (St.max s) (Compare_Min.make (Num (ratio colNumb t c p)) p)
                   0 0 (St.ni s)))
      as (t' & idx & Hpv & Hwf' & Hcell & Hent); simpl; try assumption.
    simpl in Hpv, Hcell, Hent. fold c in Hcell, Hent.
    exists p, t', idx. rewrite Hpv, Z.add_0_l.
    split; [lia|]. split; [assumption|]. split; [assumption|].
    split; [reflexivity|]. split; [assumption|]. split; [assumption|].
    now apply Hent.
Qed.

(** with [max.index] still at its initial -1, the ratio test reads
    [tableau[0][-1]], unless there is no constraint row to test *)
Lemma ratio_test_sentinel s :
  Compare_Max.index (St.max s) = -1 -> 0 < constraintNumb ->
  ratio_test constraintNumb colNumb s = Fault.
Proof.
  intros Hidx Hn. unfold ratio_test. rewrite Hidx.
  replace (Z.to_nat constraintNumb) with (S (Z.to_nat (constraintNumb - 1))) by lia.
  cbn [for_loop]. unfold ratio_body at 1. now rewrite rd_column_out by lia.
Qed.

Lemma iteration_sentinel s :
  St.count s = 0 -> Compare_Max.index (St.max s) = -1 -> 0 <= constraintNumb ->
  forall s', iteration constraintNumb colNumb s <> Ok s'.
Proof.
  intros Hcount Hidx Hn s'. unfold iteration.
  destruct (Z.eq_dec constraintNumb 0) as [H0|H0].
  - unfold ratio_test. rewrite H0. simpl. unfold check_unbounded. simpl.
    rewrite Hcount. simpl. discriminate.
  - rewrite ratio_test_sentinel by (try assumption; lia). discriminate.
Qed.
End Iteration.

(** ** The run *)

Section Run.
Variables constraintNumb colNumb : Z.
Local Abbreviation wf := (well_formed constraintNumb colNumb).

Lemma engine_at t k s fuel :
  at_iteration constraintNumb colNumb t k s ->
  engine constraintNumb colNumb (k + fuel) t = do_while constraintNumb colNumb fuel s.
Proof.
  intros H. revert fuel. induction H as [s H|k s s' _ IH Hit Hc]; intros fuel.
  - unfold engine. now rewrite H.
  - replace (S k + fuel)%nat with (k + S fuel)%nat by lia. rewrite IH. simpl.
    rewrite Hit. destruct (Z.eqb_spec (St.conta s') 0); [contradiction|reflexivity].
Qed.

Lemma do_while_optimal t r fuel :
  forall k s,
    at_iteration constraintNumb colNumb t k s ->
    do_while constraintNumb colNumb fuel s = Some (Ok r) ->
    exists k' s', at_iteration constraintNumb colNumb t k' s' /\
                  iteration constraintNumb colNumb s' = Ok r /\ St.conta r = 0.
Proof.
  induction fuel as [|fuel IH]; intros k s Hat Hd; simpl in Hd; [discriminate|].
  destruct (iteration constraintNumb colNumb s) as [s'| |] eqn:Hit; try discriminate.
  destruct (Z.eqb_spec (St.conta s') 0) as [Hc|Hc].
  - injection Hd as <-. now exists k, s.
  - apply (IH (S k) s'); [|assumption]. now apply (at_next constraintNumb colNumb t k s s').
Qed.

Lemma engine_optimal t r fuel :
  engine constraintNumb colNumb fuel t = Some (Ok r) ->
  exists k s, at_iteration constraintNumb colNumb t k s /\
              iteration constraintNumb colNumb s = Ok r /\ St.conta r = 0.
Proof.
  unfold engine.
  destruct (initial_scan constraintNumb colNumb (enter t)) as [s| |] eqn:Hs;
    try discriminate.
  apply (do_while_optimal t r fuel O s). now apply at_first.
Qed.

(** what a completed iteration has done *)
Lemma iteration_ok s s' :
  let t := St.tableau s in
  let c := Compare_Max.index (St.max s) in
  let t' := St.tableau s' in
  entering_ready constraintNumb colNumb s ->
  iteration constraintNumb colNumb s = Ok s' ->
  exists p,
    (0 <= c <= colNumb /\ (cell t constraintNumb c < 0)%Qc) /\
    (0 <= p < constraintNumb /\ (0 < cell t p c)%Qc /\
     forall i, 0 <= i < constraintNumb -> (0 < cell t i c)%Qc ->
               (ratio colNumb t c p <= ratio colNumb t c i)%Qc) /\
    loop_top constraintNumb colNumb s' /\
    (forall i j, 0 <= i <= constraintNumb -> 0 <= j <= colNumb ->
                 cell t' i j = pivoted t p c i j) /\
    St.conta s' = count_neg (cell t' constraintNumb) (Z.to_nat colNumb) /\
    St.ni s' = St.ni s + 1 /\
    Compare_Min.index (St.min s') = p /\
    entering (cell t' constraintNumb) colNumb c (Compare_Max.index (St.max s')).
Proof.
  intros t c t' (Htop & Hidx) Hit.
  destruct Hidx as [Hidx|(Hc & Hneg)].
  - exfalso. destruct Htop as (Hwf & Hcount & _).
    apply (iteration_sentinel constraintNumb colNumb s Hcount Hidx (proj1 Hwf) s' Hit).
  - destruct (iteration_spec constraintNumb colNumb s Htop Hc)
      as [(_ & He)|(p & t1 & idx & Hp & Hpos & Hleast & He & Hwf' & Hcell & Hent)].
    + rewrite He in Hit. discriminate.
    + rewrite He in Hit. injection Hit as <-. subst t'. simpl.
      exists p. repeat split; try lia; try assumption; apply Hwf'.
Qed.

Lemma initial_scan_ready t :
  wf t ->
  exists s, initial_scan constraintNumb colNumb (enter t) = Ok s /\
            St.tableau s = t /\ St.ni s = 0 /\ entering_ready constraintNumb colNumb s /\
            entering (cell t constraintNumb) (colNumb + 1) (-1)
              (Compare_Max.index (St.max s)).
Proof.
  intros Hwf. destruct (initial_scan_spec constraintNumb colNumb t Hwf) as (idx & Hs & He).
  eexists. split; [exact Hs|]. simpl. split; [reflexivity|]. split; [reflexivity|].
  split; [|assumption]. split.
  - unfold loop_top. simpl. auto.
  - simpl. destruct He as [(Hi & _)|(Hi & Hneg & _)]; [now left|right].
    split; [lia|assumption].
Qed.

Lemma entering_ready_next s s' :
  entering_ready constraintNumb colNumb s ->
  iteration constraintNumb colNumb s = Ok s' ->
  St.conta s' <> 0 ->
  entering_ready constraintNumb colNumb s'.
Proof.
  intros Hr Hit Hc.
  destruct (iteration_ok s s' Hr Hit)
    as (p & _ & _ & Htop & _ & Hconta & _ & _ & Hent).
  split; [assumption|]. right.
  destruct Hent as [(_ & Hall)|(Hi & Hneg & _)].
  - exfalso. apply Hc. rewrite Hconta. apply count_neg_zero.
    intros j Hj. apply Hall. lia.
  - split; [lia|assumption].
Qed.

Lemma at_iteration_ready t k s :
  wf t ->
  at_iteration constraintNumb colNumb t k s ->
  entering_ready constraintNumb colNumb s.
Proof.
  intros Hwf H. induction H as [s H|k s s' _ IH Hit Hc].
  - destruct (initial_scan_ready t Hwf) as (s0 & Hs0 & _ & _ & Hr & _).
    rewrite Hs0 in H. now injection H as <-.
  - now apply (entering_ready_next s s').
Qed.

(** the ratio test keeps the right-hand sides non-negative *)
Lemma feasible_next s s' :
  entering_ready constraintNumb colNumb s ->
  iteration constraintNumb colNumb s = Ok s' ->
  feasible constraintNumb colNumb (St.tableau s) ->
  feasible constraintNumb colNumb (St.tableau s').
Proof.
  intros Hr Hit Hf.
  destruct (iteration_ok s s' Hr Hit)
    as (p & (Hc & _) & (Hp & Hpos & Hleast) & _ & Hcell & _).
  intros i Hi. rewrite Hcell by lia. unfold pivoted.
  destruct (Z.eqb_spec i p) as [->|Hne].
  - apply Qcdiv_nonneg; [assumption|]. now apply Hf.
  - apply ratio_keeps_nonneg; try assumption; try (apply Hf; lia).
    intros Hpi. now apply Hleast.
Qed.

Lemma at_iteration_feasible t k s :
  wf t ->
  feasible constraintNumb colNumb t ->
  at_iteration constraintNumb colNumb t k s ->
  feasible constraintNumb colNumb (St.tableau s).
Proof.
  intros Hwf Hf H. induction H as [s H|k s s' Hat IH Hit Hc].
  - destruct (initial_scan_ready t Hwf) as (s0 & Hs0 & Ht & _).
    rewrite Hs0 in H. injection H as <-. now rewrite Ht.
  - apply (feasible_next s s'); try assumption. now apply (at_iteration_ready t k).
Qed.
End Run.

(** ** The reductions *)

Lemma maximo_assoc a b c : maximo a (maximo b c) = maximo (maximo a b) c.
Proof.
  unfold maximo.
  repeat (case_bool_decide; simpl); try reflexivity; exfalso; qc_lra.
Qed.

Lemma maximo_val_comm a b :
  Compare_Max.val (maximo a b) = Compare_Max.val (maximo b a).
Proof.
  unfold maximo.
  repeat (case_bool_decide; simpl); try reflexivity; qc_lra.
Qed.

Lemma minimo_assoc a b c : minimo a (minimo b c) = minimo (minimo a b) c.
Proof.
  destruct a as [[va|] ia], b as [[vb|] ib], c as [[vc|] ic];
    unfold minimo, xlt; simpl;
    repeat (case_bool_decide; simpl); try reflexivity; exfalso; qc_lra.
Qed.

Lemma minimo_val_comm a b :
  Compare_Min.val (minimo a b) = Compare_Min.val (minimo b a).
Proof.
  destruct a as [[va|] ia], b as [[vb|] ib];
    unfold minimo, xlt; simpl;
    repeat (case_bool_decide; simpl); try reflexivity; f_equal; qc_lra.
Qed.

(** ** Runs that come back to a tableau they have been in *)

Lemma this_inj (x y : Qc) : this x = this y -> x = y.
Proof. intros H. apply Qc_is_canon. now rewrite H. Qed.

Lemma view_inj s s' : view s = view s' -> s = s'.
Proof.
  destruct s as [t [mv mi] [nv ni] c1 c2 c3], s' as [t' [mv' mi'] [nv' ni'] c1' c2' c3'].
  unfold view. simpl. intros H. injection H as Ht Hmv Hmi Hnv Hni Hc1 Hc2 Hc3. subst.
  assert (t = t') as ->.
  { eapply (inj (fmap (fmap this))). exact Ht. Unshelve.
    apply list_fmap_eq_inj, list_fmap_eq_inj. intros x y. apply this_inj. }
  apply this_inj in Hmv. subst.
  assert (nv = nv') as ->.
  { destruct nv, nv'; simpl in Hnv; try discriminate; [|reflexivity].
    injection Hnv as Hq. apply this_inj in Hq. now subst. }
  reflexivity.
Qed.

Section Cycles.
Variables constraintNumb colNumb : Z.

(** the iteration count is only ever incremented *)
Lemma ratio_test_ni n s :
  ratio_test constraintNumb colNumb (set_ni n s)
  = do s' <- ratio_test constraintNumb colNumb s; Ok (set_ni n s').
Proof.
  unfold ratio_test, set_ni. simpl.
  now destruct (for_loop _ _ _ _).
Qed.

Lemma check_unbounded_ni n s :
  check_unbounded constraintNumb (set_ni n s)
  = do s' <- check_unbounded constraintNumb s; Ok (set_ni n s').
Proof.
  unfold check_unbounded, set_ni. simpl.
  now destruct (St.count s =? constraintNumb).
Qed.

Lemma pivoting_ni n s :
  pivoting constraintNumb colNumb (set_ni n s)
  = do s' <- pivoting constraintNumb colNumb s; Ok (set_ni (n + 1) s').
Proof.
  unfold pivoting, set_ni. simpl.
  destruct (rd _ _ _); simpl; try reflexivity.
  destruct (rd _ _ _); simpl; try reflexivity.
  destruct (for_loop _ _ _ _); simpl; try reflexivity.
  destruct (for_loop _ _ _ _); simpl; try reflexivity.
  destruct (for_loop _ _ _ _) as [[[t3 cnt] priv]| |]; simpl; reflexivity.
Qed.

Lemma iteration_ni n s :
  iteration constraintNumb colNumb (set_ni n s)
  = do s' <- iteration constraintNumb colNumb s; Ok (set_ni (n + 1) s').
Proof.
  unfold iteration. rewrite ratio_test_ni.
  destruct (ratio_test constraintNumb colNumb s) as [s1| |]; simpl; try reflexivity.
  rewrite check_unbounded_ni.
  destruct (check_unbounded constraintNumb s1) as [s2| |]; simpl; try reflexivity.
  apply pivoting_ni.
Qed.

Lemma steps_ni k : forall n s s',
  steps constraintNumb colNumb k s = Some s' ->
  steps constraintNumb colNumb k (set_ni n s) = Some (set_ni (n + Z.of_nat k) s').
Proof.
  induction k as [|k IH]; intros n s s' H; simpl in *.
  - injection H as <-. now rewrite Z.add_0_r.
  - rewrite iteration_ni.
    destruct (iteration constraintNumb colNumb s) as [s1| |]; try discriminate. simpl.
    destruct (St.conta s1 =? 0); [discriminate|].
    rewrite (IH (n + 1) s1 s' H). f_equal. f_equal. lia.
Qed.

Lemma do_while_steps k : forall s s' fuel,
  steps constraintNumb colNumb k s = Some s' ->
  do_while constraintNumb colNumb (k + fuel) s = do_while constraintNumb colNumb fuel s'.
Proof.
  induction k as [|k IH]; intros s s' fuel H; simpl in *.
  - now injection H as <-.
  - destruct (iteration constraintNumb colNumb s) as [s1| |]; try discriminate.
    destruct (St.conta s1 =? 0); [discriminate|]. now apply IH.
Qed.

Lemma do_while_short k : forall s s' fuel,
  steps constraintNumb colNumb k s = Some s' ->
  (fuel <= k)%nat ->
  do_while constraintNumb colNumb fuel s = None.
Proof.
  induction k as [|k IH]; intros s s' fuel H Hle.
  - now replace fuel with O by lia.
  - destruct fuel as [|fuel]; [reflexivity|]. simpl in *.
    destruct (iteration constraintNumb colNumb s) as [s1| |]; try discriminate.
    destruct (St.conta s1 =? 0); [discriminate|]. apply (IH s1 s'); [assumption|lia].
Qed.

(** a state that comes back after [k > 0] iterations, but for [ni], is
    never left *)
Lemma cycle_runs_forever k c m :
  (0 < k)%nat ->
  steps constraintNumb colNumb k c = Some (set_ni m c) ->
  forall fuel n, do_while constraintNumb colNumb fuel (set_ni n c) = None.
Proof.
  intros Hk Hc fuel. induction fuel as [fuel IH] using lt_wf_ind. intros n.
  pose proof (steps_ni k n c _ Hc) as Hn.
  destruct (le_lt_dec fuel k) as [Hle|Hlt].
  - now apply (do_while_short k _ _ fuel Hn).
  - replace fuel with (k + (fuel - k))%nat by lia.
    rewrite (do_while_steps k _ _ _ Hn).
    change (set_ni (n + Z.of_nat k) (set_ni m c)) with (set_ni (n + Z.of_nat k) c).
    apply IH. lia.
Qed.
End Cycles.

Lemma steps_view cN cl k s s' :
  option_map view (steps cN cl k s) = Some (view s') ->
  steps cN cl k s = Some s'.
Proof.
  destruct (steps cN cl k s) as [x|]; simpl; [|discriminate].
  intros H. f_equal. apply view_inj. congruence.
Qed.

Lemma beale_scan : initial_scan 3 7 (enter beale) = Ok beale_0.
Proof. vm_compute. reflexivity. Qed.

Lemma beale_first_six : steps 3 7 6 beale_0 = Some beale_6.
Proof. vm_compute. reflexivity. Qed.

Lemma beale_next_six : steps 3 7 6 beale_6 = Some (set_ni 12 beale_6).
Proof. apply steps_view. vm_compute. reflexivity. Qed.

Lemma beale_same_tableau : map (map this) (St.tableau beale_6) = map (map this) beale.
Proof. vm_compute. reflexivity. Qed.

(** ** Further facts about the run *)

Lemma res_this_eq (r : res Qc) (q : Qc) :
  match r with Ok x => this x = this q | _ => False end -> r = Ok q.
Proof. destruct r as [x| |]; try contradiction. intros H. f_equal. now apply this_inj. Qed.

Lemma well_formed_scenario_optimal : well_formed 3 5 scenario_optimal.
Proof. unfold well_formed. repeat split; try lia. repeat constructor. Qed.

Lemma well_formed_scenario_unbounded : well_formed 1 2 scenario_unbounded.
Proof. unfold well_formed. repeat split; try lia. repeat constructor. Qed.

Lemma well_formed_beale : well_formed 3 7 beale.
Proof. unfold well_formed. repeat split; try lia. repeat constructor. Qed.

Section RunFacts.
Variables constraintNumb colNumb : Z.
Local Abbreviation wf := (well_formed constraintNumb colNumb).

Lemma initial_scan_count t s :
  initial_scan constraintNumb colNumb (enter t) = Ok s -> St.count s = 0.
Proof.
  unfold initial_scan. destruct (for_loop _ _ _ _); simpl; try discriminate.
  intros H. now injection H as <-.
Qed.

Lemma pivoting_count s s' :
  pivoting constraintNumb colNumb s = Ok s' -> St.count s' = St.count s.
Proof.
  unfold pivoting.
  destruct (rd _ _ _); simpl; try discriminate.
  destruct (rd _ _ _); simpl; try discriminate.
  destruct (for_loop _ _ _ _); simpl; try discriminate.
  destruct (for_loop _ _ _ _); simpl; try discriminate.
  destruct (for_loop _ _ _ _) as [[[t3 cnt] priv]| |]; simpl; try discriminate.
  intros H. now injection H as <-.
Qed.

Lemma iteration_count s s' :
  iteration constraintNumb colNumb s = Ok s' -> St.count s' = 0.
Proof.
  unfold iteration.
  destruct (ratio_test constraintNumb colNumb s) as [s1| |]; simpl; try discriminate.
  unfold check_unbounded. destruct (St.count s1 =? constraintNumb); simpl; try discriminate.
  intros H. now rewrite (pivoting_count _ _ H).
Qed.

Lemma at_iteration_count t k s :
  at_iteration constraintNumb colNumb t k s -> St.count s = 0.
Proof.
  intros [s0 H|k' s0 s1 _ H _].
  - now apply (initial_scan_count t).
  - now apply (iteration_count s0).
Qed.

(** the ratio test when no row has a positive entry in column [c] *)
Lemma ratio_loop_ineligible t c :
  0 <= constraintNumb ->
  (forall i, 0 <= i < constraintNumb -> exists a, rd t i c = Ok a /\ (a <= 0)%Qc) ->
  for_loop (Z.to_nat constraintNumb) 0 (ratio_body colNumb t c) (Compare_Min.init, 0)
  = Ok (Compare_Min.init, constraintNumb).
Proof.
  intros Hn Hall.
  destruct (for_loop_total (fun k acc => acc = (Compare_Min.init, k))
              (ratio_body colNumb t c) constraintNumb (Compare_Min.init, 0))
    as (acc & Hl & ->); try assumption; try reflexivity.
  intros k acc Hk ->. destruct (Hall k Hk) as (a & Ha & Hle).
  unfold ratio_body. rewrite Ha. simpl.
  rewrite bool_decide_false by now apply Qcle_not_lt.
  eexists. split; reflexivity.
Qed.

Lemma iteration_ineligible s :
  0 <= constraintNumb -> St.count s = 0 ->
  (forall i, 0 <= i < constraintNumb ->
             exists a, rd (St.tableau s) i (Compare_Max.index (St.max s)) = Ok a /\
                       (a <= 0)%Qc) ->
  iteration constraintNumb colNumb s = Exit1.
Proof.
  intros Hn Hcount Hall. unfold iteration, ratio_test.
  rewrite ratio_loop_ineligible by assumption. simpl.
  unfold check_unbounded. simpl. rewrite Hcount, Z.add_0_l, Z.eqb_refl. reflexivity.
Qed.

Lemma entering_next_index s s' :
  entering_ready constraintNumb colNumb s ->
  iteration constraintNumb colNumb s = Ok s' ->
  St.conta s' <> 0 ->
  0 <= Compare_Max.index (St.max s') < colNumb.
Proof.
  intros Hr Hit Hc.
  destruct (iteration_ok constraintNumb colNumb s s' Hr Hit)
    as (p & _ & _ & _ & _ & Hconta & _ & _ & Hent).
  destruct Hent as [(_ & Hall)|(Hi & _)]; [|assumption].
  exfalso. apply Hc. rewrite Hconta. apply count_neg_zero.
  intros j Hj. apply Hall. lia.
Qed.

(** when the loop is left with [conta] zero, no coefficient of the
    objective row is negative *)
Lemma iteration_optimal s s' :
  entering_ready constraintNumb colNumb s ->
  iteration constraintNumb colNumb s = Ok s' ->
  St.conta s' = 0 ->
  wf (St.tableau s') /\
  forall j, 0 <= j < colNumb -> (0 <= cell (St.tableau s') constraintNumb j)%Qc.
Proof.
  intros Hr Hit Hc.
  destruct (iteration_ok constraintNumb colNumb s s' Hr Hit)
    as (p & (Hcol & _) & _ & Htop & _ & Hconta & _).
  split; [apply Htop|]. rewrite Hconta in Hc.
  intros j Hj. apply (proj1 (count_neg_zero _ _) Hc). lia.
Qed.

(** from a column inside the matrix, the loop never reads or writes
    outside of it *)
Lemma do_while_no_fault fuel :
  forall s,
    entering_ready constraintNumb colNumb s ->
    0 <= Compare_Max.index (St.max s) <= colNumb ->
    do_while constraintNumb colNumb fuel s = None \/
    do_while constraintNumb colNumb fuel s = Some Exit1 \/
    exists s', do_while constraintNumb colNumb fuel s = Some (Ok s') /\
               St.conta s' = 0 /\
               forall j, 0 <= j < colNumb ->
                         (0 <= cell (St.tableau s') constraintNumb j)%Qc.
Proof.
  induction fuel as [|fuel IH]; intros s Hr Hidx; [now left|]. cbn [do_while].
  destruct (iteration constraintNumb colNumb s) as [s'| |] eqn:Hit.
  - destruct (Z.eqb_spec (St.conta s') 0) as [Hc|Hc].
    + right. right. exists s'. split; [reflexivity|]. split; [assumption|].
      now apply (iteration_optimal s s' Hr Hit).
    + apply IH.
      * now apply (entering_ready_next constraintNumb colNumb s s' Hr Hit).
      * pose proof (entering_next_index s s' Hr Hit Hc). lia.
  - right. now left.
  - exfalso.
    destruct (iteration_spec constraintNumb colNumb s (proj1 Hr) Hidx)
      as [(_ & He)|(p & t' & idx & _ & _ & _ & He & _)];
      rewrite He in Hit; discriminate.
Qed.
End RunFacts.

(** * The engine against its specification *)






(** C4. When the engine leaves the loop, which it does only with
    [conta = 0], every entry of the objective row but the last one is >= 0. *)
Theorem C4_optimal_objective_row_nonneg
    (constraintNumb colNumb : Z) (t : matrix) (fuel : nat) (s : St.t) :
  well_formed constraintNumb colNumb t ->
  engine constraintNumb colNumb fuel t = Some (Ok s) ->
  St.conta s = 0 /\
  forall j, 0 <= j < colNumb ->
    exists x, rd (St.tableau s) constraintNumb j = Ok x /\ (0 <= x)%Qc.
Proof.
  intros Hwf He.
  destruct (engine_optimal constraintNumb colNumb t s fuel He) as (k & s0 & Hat & Hit & Hc).
  split; [assumption|].
  pose proof (at_iteration_ready constraintNumb colNumb t k s0 Hwf Hat) as Hr.
  destruct (iteration_optimal constraintNumb colNumb s0 s Hr Hit Hc) as (Hwf' & Hall).
  intros j Hj. exists (cell (St.tableau s) constraintNumb j). split.
  - apply (rd_in_bounds constraintNumb colNumb); [assumption|destruct Hwf; lia|lia].
  - now apply Hall.
Qed.

Lemma C4_witness :
  St.conta scenario_optimal_end = 0 /\
  forall j, 0 <= j < 5 ->
    exists x, rd (St.tableau scenario_optimal_end) 3 j = Ok x /\ (0 <= x)%Qc.
Proof.
  apply (C4_optimal_objective_row_nonneg 3 5 scenario_optimal 2).
  - exact well_formed_scenario_optimal.
  - vm_compute. reflexivity.
Defined.


Lemma scenario_optimal_feasible : feasible 3 5 scenario_optimal.
Proof.
  intros i Hi.
  assert (i = 0 \/ i = 1 \/ i = 2) as [->|[->| ->]] by lia; vm_compute; discriminate.
Qed.

Lemma scenario_optimal_at_1 : at_iteration 3 5 scenario_optimal 1 scenario_optimal_1.
Proof.
  eapply at_next.
  - apply at_first. vm_compute. reflexivity.
  - vm_compute. reflexivity.
  - vm_compute. discriminate.
Qed.




Lemma beale_feasible : feasible 3 7 beale.
Proof.
  intros i Hi.
  assert (i = 0 \/ i = 1 \/ i = 2) as [->|[->| ->]] by lia; vm_compute; discriminate.
Qed.




(** C8, at an input where the code departs from it: on the objective row
    -1 0 | -7 the initial scan (lines 294-299, [j <= colNumb]) leaves in
    [max.index] the right-hand-side column 2, not the column 0 of the only
    negative coefficient; the first pivot is made on that column and the run
    reports the value 0 after it.  (The scan of lines 350-359 stops before
    that column, see [pivoting_spec]; the initial one runs over it, see
    [initial_scan_spec].) *)
Theorem C8_initial_scan_reads_rhs_column :
  well_formed 1 2 negative_objective_value /\
  (cell negative_objective_value 1 0 < 0)%Qc /\
  (0 <= cell negative_objective_value 1 1)%Qc /\
  (exists s,
     initial_scan 1 2 (enter negative_objective_value) = Ok s /\
     Compare_Max.index (St.max s) = 2) /\
  forall fuel, simplex 1 2 (1 + fuel) negative_objective_value = Some (Ok (1, 0%Qc)).
Proof.
  split; [unfold well_formed; repeat split; try lia; repeat constructor|].
  split; [vm_compute; reflexivity|]. split; [vm_compute; discriminate|].
  split; [eexists; split; [vm_compute; reflexivity|reflexivity]|].
  intros fuel.
  destruct (engine 1 2 (1 + fuel) negative_objective_value) as [[s| |]|] eqn:He;
    try (vm_compute in He; discriminate).
  unfold simplex. rewrite He. cbn [bind]. unfold report.
  assert (Hni : St.ni s = 1) by (vm_compute in He; now injection He as <-).
  assert (Hrd : rd (St.tableau s) 1 2 = Ok 0%Qc).
  { apply res_this_eq. vm_compute in He. injection He as <-. vm_compute. reflexivity. }
  rewrite Hrd, Hni. reflexivity.
Qed.

(** C9. [maximo] and [minimo] are associative, and the value they keep
    does not depend on the order of their two arguments. *)
Theorem C9_reductions_associative_commutative_in_value :
  (forall a b c, maximo a (maximo b c) = maximo (maximo a b) c) /\
  (forall a b c, minimo a (minimo b c) = minimo (minimo a b) c) /\
  (forall a b, Compare_Max.val (maximo a b) = Compare_Max.val (maximo b a)) /\
  (forall a b, Compare_Min.val (minimo a b) = Compare_Min.val (minimo b a)).
Proof.
  split; [exact maximo_assoc|]. split; [exact minimo_assoc|].
  split; [exact maximo_val_comm|exact minimo_val_comm].
Qed.

(** C10. The loop is a do-while: whatever the initial scan has found, the
    ratio test is run on the state the scan leaves.  The column it reads,
    [max.index], is inside the matrix exactly when the objective row has a
    strictly negative entry, and then no pass of the run leaves the matrix;
    otherwise [max.index] is still -1, and with at least one constraint row
    the ratio test reads [tableau[0][-1]]. *)
Theorem C10_ratio_test_runs_on_sentinel (constraintNumb colNumb : Z) (t : matrix) :
  well_formed constraintNumb colNumb t ->
  exists s0,
    initial_scan constraintNumb colNumb (enter t) = Ok s0 /\
    (forall fuel,
       engine constraintNumb colNumb (S fuel) t
       = match iteration constraintNumb colNumb s0 with
         | Ok s' => if St.conta s' =? 0 then Some (Ok s')
                    else do_while constraintNumb colNumb fuel s'
         | Exit1 => Some Exit1
         | Fault => Some Fault
         end) /\
    ((exists j, 0 <= j <= colNumb /\ (cell t constraintNumb j < 0)%Qc) <->
     0 <= Compare_Max.index (St.max s0) <= colNumb) /\
    (0 <= Compare_Max.index (St.max s0) <= colNumb ->
     (exists s1, ratio_test constraintNumb colNumb s0 = Ok s1) /\
     forall fuel, engine constraintNumb colNumb fuel t <> Some Fault) /\
    ((forall j, 0 <= j <= colNumb -> (0 <= cell t constraintNumb j)%Qc) ->
     Compare_Max.index (St.max s0) = -1 /\
     (0 < constraintNumb ->
      ratio_test constraintNumb colNumb s0 = Fault /\
      forall fuel, engine constraintNumb colNumb (S fuel) t = Some Fault)).
Proof.
  intros Hwf.
  destruct (initial_scan_ready constraintNumb colNumb t Hwf)
    as (s0 & Hs0 & Ht & _ & Hr & Hent).
  assert (He : forall fuel, engine constraintNumb colNumb (S fuel) t
               = match iteration constraintNumb colNumb s0 with
                 | Ok s' => if St.conta s' =? 0 then Some (Ok s')
                            else do_while constraintNumb colNumb fuel s'
                 | Exit1 => Some Exit1
                 | Fault => Some Fault
                 end)
    by (intros fuel; unfold engine; now rewrite Hs0).
  exists s0. split; [assumption|]. split; [exact He|]. split; [|split].
  - split.
    + intros (j & Hj & Hneg). destruct Hent as [(_ & Hall)|(Hi & _)]; [|lia].
      exfalso. apply (Qclt_not_le _ _ Hneg). apply Hall. lia.
    + intros Hidx. destruct Hent as [(Hi & _)|(Hi & Hneg & _)]; [lia|].
      exists (Compare_Max.index (St.max s0)). split; [lia|assumption].
  - intros Hidx. split.
    + unfold ratio_test. rewrite Ht.
      destruct (ratio_loop constraintNumb colNumb t _ Hwf Hidx) as (acc & Hl & _).
      rewrite Hl. simpl. eexists. reflexivity.
    + intros fuel. unfold engine. rewrite Hs0.
      destruct (do_while_no_fault constraintNumb colNumb fuel s0 Hr Hidx)
        as [Hd|[Hd|(s & Hd & _)]]; rewrite Hd; discriminate.
  - intros Hall.
    assert (Hidx : Compare_Max.index (St.max s0) = -1).
    { destruct Hent as [(Hi & _)|(Hi & Hneg & _)]; [assumption|].
      exfalso. apply (Qclt_not_le _ _ Hneg). apply Hall. lia. }
    split; [assumption|]. intros Hn.
    pose proof (ratio_test_sentinel constraintNumb colNumb s0 Hidx Hn) as Hf.
    split; [assumption|]. intros fuel. rewrite He. unfold iteration. now rewrite Hf.
Qed.

Lemma C10_witness :
  exists s0,
    initial_scan 1 2 (enter already_optimal) = Ok s0 /\
    (forall fuel,
       engine 1 2 (S fuel) already_optimal
       = match iteration 1 2 s0 with
         | Ok s' => if St.conta s' =? 0 then Some (Ok s') else do_while 1 2 fuel s'
         | Exit1 => Some Exit1
         | Fault => Some Fault
         end) /\
    ((exists j, 0 <= j <= 2 /\ (cell already_optimal 1 j < 0)%Qc) <->
     0 <= Compare_Max.index (St.max s0) <= 2) /\
    (0 <= Compare_Max.index (St.max s0) <= 2 ->
     (exists s1, ratio_test 1 2 s0 = Ok s1) /\
     forall fuel, engine 1 2 fuel already_optimal <> Some Fault) /\
    ((forall j, 0 <= j <= 2 -> (0 <= cell already_optimal 1 j)%Qc) ->
     Compare_Max.index (St.max s0) = -1 /\
     (0 < 1 ->
      ratio_test 1 2 s0 = Fault /\
      forall fuel, engine 1 2 (S fuel) already_optimal = Some Fault)).
Proof.
  apply (C10_ratio_test_runs_on_sentinel 1 2 already_optimal).
  unfold well_formed. repeat split; try lia. repeat constructor.
Defined.

(** * Further properties of the engine *)

Section EngineFacts.
Variables constraintNumb colNumb : Z.
Local Abbreviation wf := (well_formed constraintNumb colNumb).

Lemma initial_scan_ni t s :
  initial_scan constraintNumb colNumb (enter t) = Ok s -> St.ni s = 0.
Proof.
  unfold initial_scan. destruct (for_loop _ _ _ _); simpl; try discriminate.
  intros H. now injection H as <-.
Qed.

Lemma pivoting_ni_succ s s' :
  pivoting constraintNumb colNumb s = Ok s' -> St.ni s' = St.ni s + 1.
Proof.
  unfold pivoting.
  destruct (rd _ _ _); simpl; try discriminate.
  destruct (rd _ _ _); simpl; try discriminate.
  destruct (for_loop _ _ _ _); simpl; try discriminate.
  destruct (for_loop _ _ _ _); simpl; try discriminate.
  destruct (for_loop _ _ _ _) as [[[t3 cnt] priv]| |]; simpl; try discriminate.
  intros H. now injection H as <-.
Qed.

Lemma iteration_ni_succ s s' :
  iteration constraintNumb colNumb s = Ok s' -> St.ni s' = St.ni s + 1.
Proof.
  unfold iteration.
  destruct (ratio_test constraintNumb colNumb s) as [s1| |] eqn:H1; simpl; try discriminate.
  assert (Hn1 : St.ni s1 = St.ni s).
  { unfold ratio_test in H1. destruct (for_loop _ _ _ _); simpl in H1; try discriminate.
    now injection H1 as <-. }
  unfold check_unbounded. destruct (St.count s1 =? constraintNumb); simpl; try discriminate.
  intros H. rewrite (pivoting_ni_succ _ _ H). simpl. now rewrite Hn1.
Qed.

Lemma at_iteration_ni t k s :
  at_iteration constraintNumb colNumb t k s -> St.ni s = Z.of_nat k.
Proof.
  intros H. induction H as [s H|k s s' _ IH Hit _].
  - now apply (initial_scan_ni t).
  - rewrite (iteration_ni_succ s s' Hit), IH. lia.
Qed.

Lemma at_iteration_fuel t r fuel :
  forall k s,
    at_iteration constraintNumb colNumb t k s ->
    do_while constraintNumb colNumb fuel s = Some (Ok r) ->
    exists k' s', (k' < k + fuel)%nat /\
                  at_iteration constraintNumb colNumb t k' s' /\
                  iteration constraintNumb colNumb s' = Ok r /\ St.conta r = 0.
Proof.
  induction fuel as [|fuel IH]; intros k s Hat Hd; simpl in Hd; [discriminate|].
  destruct (iteration constraintNumb colNumb s) as [s'| |] eqn:Hit; try discriminate.
  destruct (Z.eqb_spec (St.conta s') 0) as [Hc|Hc].
  - injection Hd as <-. exists k, s. split; [lia|]. now split.
  - destruct (IH (S k) s') as (k' & s1 & Hk & H1); [|assumption|].
    + now apply (at_next constraintNumb colNumb t k s s').
    + exists k', s1. split; [lia|assumption].
Qed.

End EngineFacts.








(** X4. On a run started with right-hand sides >= 0, a pass adds
    [(- objective[c]) * rhs[p] / t[p][c]] to the objective value: the value
    stays the same when the right-hand side of the pivot row is 0 (a
    degenerate pivot) and grows strictly when it is positive. *)
Theorem X4_objective_value_grows_unless_degenerate
    (constraintNumb colNumb : Z) (t : matrix) (k : nat) (s s' : St.t) :
  well_formed constraintNumb colNumb t ->
  feasible constraintNumb colNumb t ->
  at_iteration constraintNumb colNumb t k s ->
  iteration constraintNumb colNumb s = Ok s' ->
  let p := Compare_Min.index (St.min s') in
  (cell (St.tableau s) p colNumb = 0%Qc ->
   objective_value constraintNumb colNumb (St.tableau s')
   = objective_value constraintNumb colNumb (St.tableau s)) /\
  ((0 < cell (St.tableau s) p colNumb)%Qc ->
   (objective_value constraintNumb colNumb (St.tableau s)
    < objective_value constraintNumb colNumb (St.tableau s'))%Qc).
Proof.
  intros Hwf Hf Hat Hit p.
  pose proof (at_iteration_ready constraintNumb colNumb t k s Hwf Hat) as Hr.
  destruct (iteration_ok constraintNumb colNumb s s' Hr Hit)
    as (p' & (Hc & Hneg) & (Hp & Hpos & _) & _ & Hcell & _ & _ & Hidx & _).
  subst p. rewrite Hidx.
  unfold objective_value. rewrite Hcell by (destruct Hwf; lia). unfold pivoted.
  destruct (Z.eqb_spec constraintNumb p'); [lia|].
  assert (Hpiv : cell (St.tableau s) p' (Compare_Max.index (St.max s)) <> 0%Qc)
    by now apply Qc_pos_neq0.
  split.
  - intros ->. now field.
  - intros Hb.
    assert (Hq : (cell (St.tableau s) p' colNumb
                  = cell (St.tableau s) p' colNumb
                    / cell (St.tableau s) p' (Compare_Max.index (St.max s))
                    * cell (St.tableau s) p' (Compare_Max.index (St.max s)))%Qc)
      by now field.
    revert Hq Hb Hpos Hneg.
    generalize (cell (St.tableau s) p' colNumb
                / cell (St.tableau s) p' (Compare_Max.index (St.max s)))%Qc.
    generalize (cell (St.tableau s) p' colNumb).
    generalize (cell (St.tableau s) p' (Compare_Max.index (St.max s))).
    generalize (cell (St.tableau s) constraintNumb (Compare_Max.index (St.max s))).
    generalize (cell (St.tableau s) constraintNumb colNumb).
    intros z o a b r Hq Hb Hpos Hneg. qc_nra.
Qed.

Lemma X4_witness :
  let p := Compare_Min.index (St.min scenario_optimal_end) in
  (cell (St.tableau scenario_optimal_1) p 5 = 0%Qc ->
   objective_value 3 5 (St.tableau scenario_optimal_end)
   = objective_value 3 5 (St.tableau scenario_optimal_1)) /\
  ((0 < cell (St.tableau scenario_optimal_1) p 5)%Qc ->
   (objective_value 3 5 (St.tableau scenario_optimal_1)
    < objective_value 3 5 (St.tableau scenario_optimal_end))%Qc).
Proof.
  apply (X4_objective_value_grows_unless_degenerate 3 5 scenario_optimal 1).
  - exact well_formed_scenario_optimal.
  - exact scenario_optimal_feasible.
  - exact scenario_optimal_at_1.
  - vm_compute. reflexivity.
Defined.

(** X5. When the last entry of the objective row of the input is >= 0, as
    in the documented input [| A b | -c 0 |], the initial scan, which runs
    over that entry too, leaves in [max.index] a column of the coefficients
    with the most negative entry, or -1 when no coefficient is negative. *)
Theorem X5_initial_scan_on_documented_input (constraintNumb colNumb : Z) (t : matrix) :
  well_formed constraintNumb colNumb t ->
  (0 <= cell t constraintNumb colNumb)%Qc ->
  exists s0,
    initial_scan constraintNumb colNumb (enter t) = Ok s0 /\
    entering (cell t constraintNumb) colNumb (-1) (Compare_Max.index (St.max s0)).
Proof.
  intros Hwf Hz.
  destruct (initial_scan_ready constraintNumb colNumb t Hwf)
    as (s0 & Hs0 & _ & _ & _ & Hent).
  exists s0. split; [assumption|].
  destruct Hent as [(Hi & Hall)|(Hi & Hneg & Hall)].
  - left. split; [assumption|]. intros j Hj. apply Hall. lia.
  - right.
    assert (Compare_Max.index (St.max s0) <> colNumb).
    { intros Heq. rewrite Heq in Hneg. now apply (Qclt_not_le _ _ Hneg). }
    split; [lia|]. split; [assumption|]. intros j Hj. apply Hall. lia.
Qed.

Lemma X5_witness :
  exists s0,
    initial_scan 3 5 (enter scenario_optimal) = Ok s0 /\
    entering (cell scenario_optimal 3) 5 (-1) (Compare_Max.index (St.max s0)).
Proof.
  apply (X5_initial_scan_on_documented_input 3 5 scenario_optimal).
  - exact well_formed_scenario_optimal.
  - vm_compute. discriminate.
Defined.


(** ** The rows as equations *)

Lemma row_dot_combine t t' i p (a b : Qc) x n :
  (forall j, 0 <= j < Z.of_nat n ->
             cell t' i j = (a * cell t p j + b * cell t i j)%Qc) ->
  row_dot t' i x n = (a * row_dot t p x n + b * row_dot t i x n)%Qc.
Proof.
  induction n as [|n IH]; intros H; simpl; [ring|].
  rewrite IH by (intros j Hj; apply H; lia).
  rewrite (H (Z.of_nat n)) by lia. ring.
Qed.

Lemma row_dot_nonneg t i x n :
  (forall j, 0 <= j < Z.of_nat n -> (0 <= cell t i j)%Qc) ->
  (forall j, 0 <= j < Z.of_nat n -> (0 <= x j)%Qc) ->
  (0 <= row_dot t i x n)%Qc.
Proof.
  induction n as [|n IH]; intros Hc Hx; simpl; [apply Qcle_refl|].
  assert (H1 : (0 <= row_dot t i x n)%Qc) by (apply IH; intros j Hj; [apply Hc|apply Hx]; lia).
  assert (H2 : (0 <= cell t i (Z.of_nat n))%Qc) by (apply Hc; lia).
  assert (H3 : (0 <= x (Z.of_nat n))%Qc) by (apply Hx; lia).
  revert H1 H2 H3.
  generalize (row_dot t i x n) (cell t i (Z.of_nat n)) (x (Z.of_nat n)).
  intros a b c H1 H2 H3. qc_nra.
Qed.

Section Equations.
Variables constraintNumb colNumb : Z.
Local Abbreviation wf := (well_formed constraintNumb colNumb).

(** the rows after a pivot, as combinations of the rows before it *)
Lemma pivoted_rows t t' p c x :
  0 <= colNumb -> 0 <= p < constraintNumb -> cell t p c <> 0%Qc ->
  (forall i j, 0 <= i <= constraintNumb -> 0 <= j <= colNumb ->
               cell t' i j = pivoted t p c i j) ->
  let n := Z.to_nat colNumb in
  (row_dot t' p x n = / cell t p c * row_dot t p x n /\
   cell t' p colNumb = / cell t p c * cell t p colNumb)%Qc /\
  forall i, 0 <= i <= constraintNumb -> i <> p ->
    (row_dot t' i x n
     = - cell t i c * / cell t p c * row_dot t p x n + row_dot t i x n /\
     cell t' i colNumb
     = - cell t i c * / cell t p c * cell t p colNumb + cell t i colNumb)%Qc.
Proof.
  intros Hn Hp Hpiv Hcell n. split; [split|].
  - rewrite (row_dot_combine t t' p p (/ cell t p c) 0 x n); [ring|].
    intros j Hj. rewrite Hcell by lia. unfold pivoted. rewrite Z.eqb_refl.
    unfold Qcdiv. ring.
  - rewrite Hcell by lia. unfold pivoted. rewrite Z.eqb_refl. unfold Qcdiv. ring.
  - intros i Hi Hne. split.
    + rewrite (row_dot_combine t t' i p (- cell t i c * / cell t p c) 1 x n); [ring|].
      intros j Hj. rewrite Hcell by lia. unfold pivoted.
      destruct (Z.eqb_spec i p); [contradiction|]. unfold Qcdiv. ring.
    + rewrite Hcell by lia. unfold pivoted.
      destruct (Z.eqb_spec i p); [contradiction|]. unfold Qcdiv. ring.
Qed.

Lemma pivoted_satisfies t t' p c x z :
  0 <= colNumb -> 0 <= p < constraintNumb -> cell t p c <> 0%Qc ->
  (forall i j, 0 <= i <= constraintNumb -> 0 <= j <= colNumb ->
               cell t' i j = pivoted t p c i j) ->
  satisfies constraintNumb colNumb t x z <-> satisfies constraintNumb colNumb t' x z.
Proof.
  intros Hn Hp Hpiv Hcell.
  destruct (pivoted_rows t t' p c x Hn Hp Hpiv Hcell) as ((Hdp & Hrp) & Hrest).
  unfold satisfies. split; intros (Hrows & Hobj).
  - split.
    + intros i Hi. destruct (Z.eq_dec i p) as [->|Hne].
      * rewrite Hdp, Hrp, (Hrows p Hp). reflexivity.
      * destruct (Hrest i ltac:(lia) Hne) as (Hd & Hr).
        rewrite Hd, Hr, (Hrows p Hp), (Hrows i Hi). reflexivity.
    + destruct (Hrest constraintNumb ltac:(lia) ltac:(lia)) as (Hd & Hr).
      rewrite Hd, Hr, (Hrows p Hp), <- Hobj. ring.
  - assert (Hp0 : row_dot t p x (Z.to_nat colNumb) = cell t p colNumb).
    { pose proof (Hrows p Hp) as H. rewrite Hdp, Hrp in H.
      transitivity (cell t p c * (/ cell t p c * row_dot t p x (Z.to_nat colNumb)))%Qc;
        [now field|].
      rewrite H. now field. }
    split.
    + intros i Hi. destruct (Z.eq_dec i p) as [->|Hne]; [assumption|].
      destruct (Hrest i ltac:(lia) Hne) as (Hd & Hr).
      pose proof (Hrows i Hi) as H. rewrite Hd, Hr, Hp0 in H.
      apply (Qcplus_inj_r (- cell t i c * / cell t p c * cell t p colNumb)%Qc).
      exact H.
    + destruct (Hrest constraintNumb ltac:(lia) ltac:(lia)) as (Hd & Hr).
      rewrite Hd, Hr, Hp0 in Hobj.
      apply (Qcplus_inj_r
               (- cell t constraintNumb c * / cell t p c * cell t p colNumb)%Qc).
      rewrite <- Hobj. ring.
Qed.

Lemma iteration_satisfies s s' x z :
  entering_ready constraintNumb colNumb s ->
  iteration constraintNumb colNumb s = Ok s' ->
  satisfies constraintNumb colNumb (St.tableau s) x z <->
  satisfies constraintNumb colNumb (St.tableau s') x z.
Proof.
  intros Hr Hit.
  destruct (iteration_ok constraintNumb colNumb s s' Hr Hit)
    as (p & (Hc & _) & (Hp & Hpos & _) & _ & Hcell & _).
  destruct Hr as ((Hwf & _) & _).
  apply (pivoted_satisfies _ _ p (Compare_Max.index (St.max s)));
    try assumption; [apply Hwf|now apply Qc_pos_neq0].
Qed.

Lemma at_iteration_satisfies t k s x z :
  wf t -> at_iteration constraintNumb colNumb t k s ->
  satisfies constraintNumb colNumb t x z <->
  satisfies constraintNumb colNumb (St.tableau s) x z.
Proof.
  intros Hwf H. induction H as [s H|k s s' Hat IH Hit Hc].
  - destruct (initial_scan_ready constraintNumb colNumb t Hwf) as (s0 & Hs0 & Ht & _).
    rewrite Hs0 in H. injection H as <-. now rewrite Ht.
  - rewrite IH. apply iteration_satisfies; [|assumption].
    now apply (at_iteration_ready constraintNumb colNumb t k).
Qed.
End Equations.

(** X6. The pivots are row operations that keep the solutions of the
    tableau read as a system of equations: each time the body of the
    do-while is entered, and when the loop is left, a point [x] and an
    objective value [z] satisfy the rows of the current tableau exactly when
    they satisfy the rows of the input. *)
Theorem X6_pivots_keep_the_solutions
    (constraintNumb colNumb : Z) (t : matrix) (k : nat) (s : St.t)
    (x : Z -> Qc) (z : Qc) :
  well_formed constraintNumb colNumb t ->
  at_iteration constraintNumb colNumb t k s ->
  (satisfies constraintNumb colNumb t x z <->
   satisfies constraintNumb colNumb (St.tableau s) x z) /\
  forall s', iteration constraintNumb colNumb s = Ok s' ->
    (satisfies constraintNumb colNumb t x z <->
     satisfies constraintNumb colNumb (St.tableau s') x z).
Proof.
  intros Hwf Hat.
  pose proof (at_iteration_satisfies constraintNumb colNumb t k s x z Hwf Hat) as H.
  split; [exact H|]. intros s' Hit. rewrite H.
  apply iteration_satisfies; [|assumption].
  now apply (at_iteration_ready constraintNumb colNumb t k).
Qed.

(** X7. The value the engine reports is an upper bound of the objective:
    when the loop is left, every point with non-negative coordinates that
    satisfies the rows of the input has an objective value [z] that is at
    most the final [tableau[constraintNumb][colNumb]]. *)
Theorem X7_reported_value_bounds_the_objective
    (constraintNumb colNumb : Z) (t : matrix) (fuel : nat) (s : St.t)
    (x : Z -> Qc) (z : Qc) :
  well_formed constraintNumb colNumb t ->
  engine constraintNumb colNumb fuel t = Some (Ok s) ->
  nonneg_point colNumb x ->
  satisfies constraintNumb colNumb t x z ->
  exists v, report constraintNumb colNumb s = Ok (St.ni s, v) /\ (z <= v)%Qc.
Proof.
  intros Hwf He Hx Hsat.
  destruct (engine_optimal constraintNumb colNumb t s fuel He) as (k & s1 & Hat & Hit & Hc).
  pose proof (at_iteration_ready constraintNumb colNumb t k s1 Hwf Hat) as Hr.
  destruct (iteration_optimal constraintNumb colNumb s1 s Hr Hit Hc) as (Hwf' & Hall).
  apply (at_iteration_satisfies constraintNumb colNumb t k s1 x z Hwf Hat) in Hsat.
  apply (iteration_satisfies constraintNumb colNumb s1 s x z Hr Hit) in Hsat.
  destruct Hsat as (_ & Hobj).
  exists (cell (St.tableau s) constraintNumb colNumb). split.
  - unfold report.
    rewrite (rd_in_bounds constraintNumb colNumb); try assumption; destruct Hwf; try lia.
    reflexivity.
  - rewrite <- Hobj.
    assert (H0 : (0 <= row_dot (St.tableau s) constraintNumb x (Z.to_nat colNumb))%Qc).
    { apply row_dot_nonneg; intros j Hj; [apply Hall|apply Hx]; lia. }
    revert H0. generalize (row_dot (St.tableau s) constraintNumb x (Z.to_nat colNumb)).
    intros d H0. qc_lra.
Qed.

Lemma scenario_optimal_point_satisfies :
  satisfies 3 5 scenario_optimal scenario_optimal_point (qz 36).
Proof.
  split.
  - intros i Hi.
    assert (i = 0 \/ i = 1 \/ i = 2) as [->|[->| ->]] by lia;
      apply this_inj; vm_compute; reflexivity.
  - apply this_inj. vm_compute. reflexivity.
Qed.

Lemma scenario_optimal_point_nonneg : nonneg_point 5 scenario_optimal_point.
Proof.
  intros j Hj.
  assert (j = 0 \/ j = 1 \/ j = 2 \/ j = 3 \/ j = 4) as [->|[->|[->|[->| ->]]]] by lia;
    vm_compute; discriminate.
Qed.

Lemma X6_witness :
  (satisfies 3 5 scenario_optimal scenario_optimal_point (qz 36) <->
   satisfies 3 5 (St.tableau scenario_optimal_1) scenario_optimal_point (qz 36)) /\
  forall s', iteration 3 5 scenario_optimal_1 = Ok s' ->
    (satisfies 3 5 scenario_optimal scenario_optimal_point (qz 36) <->
     satisfies 3 5 (St.tableau s') scenario_optimal_point (qz 36)).
Proof.
  apply (X6_pivots_keep_the_solutions 3 5 scenario_optimal 1).
  - exact well_formed_scenario_optimal.
  - exact scenario_optimal_at_1.
Defined.

Lemma X7_witness :
  exists v, report 3 5 scenario_optimal_end = Ok (St.ni scenario_optimal_end, v) /\
            (qz 36 <= v)%Qc.
Proof.
  apply (X7_reported_value_bounds_the_objective 3 5 scenario_optimal 2
           scenario_optimal_end scenario_optimal_point).
  - exact well_formed_scenario_optimal.
  - vm_compute. reflexivity.
  - exact scenario_optimal_point_nonneg.
  - exact scenario_optimal_point_satisfies.
Defined.

(** * The functions around the engine *)

(** ** [My_diff] *)

Lemma long_in_range z :
  - 9223372036854775808 <= z <= 9223372036854775807 -> long z = Ok z.
Proof.
  intros Hz. unfold long.
  destruct (Z.leb_spec (- 2 ^ 63) z) as [_|H];
    [|exfalso; change (2 ^ 63) with 9223372036854775808 in H; lia].
  destruct (Z.leb_spec z (2 ^ 63 - 1)) as [_|H];
    [|exfalso; change (2 ^ 63) with 9223372036854775808 in H; lia].
  reflexivity.
Qed.

Lemma long_value z v : long z = Ok v -> v = z.
Proof. unfold long. destruct (_ && _); [|discriminate]. intros H. now injection H. Qed.

(** X8. For two time stamps as [clock_gettime] fills them (seconds >= 0,
    0 <= nanoseconds < 10^9), [My_diff] overflows nowhere and returns the
    difference with its nanoseconds again in [0, 10^9): the result stands
    for exactly end - start, and its seconds are negative exactly when
    [end] is before [start]. *)
Theorem X8_My_diff_is_the_difference (start end_ : timespec.t) :
  normalized start -> normalized end_ ->
  exists d,
    My_diff start end_ = Ok d /\
    0 <= timespec.tv_nsec d < 1000000000 /\
    nanoseconds d = nanoseconds end_ - nanoseconds start /\
    (timespec.tv_sec d < 0 <-> nanoseconds end_ < nanoseconds start).
Proof.
  unfold normalized, nanoseconds. change (2 ^ 63) with 9223372036854775808.
  destruct start as [s1 n1], end_ as [s2 n2]. simpl. intros (Hs1 & Hn1) (Hs2 & Hn2).
  unfold My_diff. simpl.
  rewrite (long_in_range (n2 - n1)) by lia. simpl.
  destruct (Z.ltb_spec (n2 - n1) 0) as [Hlt|Hge].
  - rewrite (long_in_range (s2 - s1)) by lia. simpl.
    rewrite (long_in_range (s2 - s1 - 1)) by lia. simpl.
    rewrite (long_in_range (1000000000 + n2)) by lia. simpl.
    rewrite (long_in_range (1000000000 + n2 - n1)) by lia. simpl.
    eexists. split; [reflexivity|]. simpl. repeat split; lia.
  - rewrite (long_in_range (s2 - s1)) by lia. simpl.
    eexists. split; [reflexivity|]. simpl. repeat split; lia.
Qed.

Lemma X8_witness :
  exists d,
    My_diff (timespec.make 5 999999999) (timespec.make 7 1) = Ok d /\
    0 <= timespec.tv_nsec d < 1000000000 /\
    nanoseconds d
    = nanoseconds (timespec.make 7 1) - nanoseconds (timespec.make 5 999999999) /\
    (timespec.tv_sec d < 0 <->
     nanoseconds (timespec.make 7 1) < nanoseconds (timespec.make 5 999999999)).
Proof.
  apply (X8_My_diff_is_the_difference (timespec.make 5 999999999) (timespec.make 7 1)).
  - unfold normalized. simpl. lia.
  - unfold normalized. simpl. lia.
Defined.

(** X9. Whatever the two time stamps, when [My_diff] returns (no
    overflow), its result stands for exactly end - start; but its
    nanoseconds are only brought back into [0, 10^9) by a single borrow, so
    for an [end] whose nanoseconds exceed those of [start] by 10^9 or more
    the result is not normalized. *)
Theorem X9_My_diff_keeps_the_total (start end_ d : timespec.t) :
  My_diff start end_ = Ok d ->
  nanoseconds d = nanoseconds end_ - nanoseconds start /\
  (timespec.tv_nsec start + 1000000000 <= timespec.tv_nsec end_ ->
   1000000000 <= timespec.tv_nsec d).
Proof.
  unfold nanoseconds. destruct start as [s1 n1], end_ as [s2 n2]. unfold My_diff. simpl.
  destruct (long (n2 - n1)) as [v| |] eqn:Hv; simpl; try discriminate.
  apply long_value in Hv. subst v.
  destruct (Z.ltb_spec (n2 - n1) 0) as [Hlt|Hge].
  - destruct (long (s2 - s1)) as [a| |] eqn:Ha; simpl; try discriminate.
    destruct (long (a - 1)) as [sec| |] eqn:Hsec; simpl; try discriminate.
    destruct (long (1000000000 + n2)) as [b| |] eqn:Hb; simpl; try discriminate.
    destruct (long (b - n1)) as [nsec| |] eqn:Hnsec; simpl; try discriminate.
    apply long_value in Ha, Hsec, Hb, Hnsec. subst.
    intros H. injection H as <-. simpl. split; lia.
  - destruct (long (s2 - s1)) as [sec| |] eqn:Hsec; simpl; try discriminate.
    apply long_value in Hsec. subst.
    intros H. injection H as <-. simpl. split; lia.
Qed.

Lemma X9_witness :
  nanoseconds (timespec.make 1 2)
  = nanoseconds (timespec.make 7 1) - nanoseconds (timespec.make 5 999999999) /\
  (timespec.tv_nsec (timespec.make 5 999999999) + 1000000000
   <= timespec.tv_nsec (timespec.make 7 1) ->
   1000000000 <= timespec.tv_nsec (timespec.make 1 2)).
Proof.
  apply (X9_My_diff_keeps_the_total (timespec.make 5 999999999) (timespec.make 7 1)).
  reflexivity.
Defined.

(** ** [get_dimension] *)

Lemma int_in_range z : - 2147483648 <= z <= 2147483647 -> int z = Ok z.
Proof.
  intros Hz. unfold int.
  destruct (Z.leb_spec (- 2 ^ 31) z) as [_|H];
    [|exfalso; change (2 ^ 31) with 2147483648 in H; lia].
  destruct (Z.leb_spec z (2 ^ 31 - 1)) as [_|H];
    [|exfalso; change (2 ^ 31) with 2147483648 in H; lia].
  reflexivity.
Qed.

Lemma skip_delims_lead delim lead s :
  Forall (fun c => is_delim delim c = true) lead ->
  skip_delims delim (lead ++ s) = skip_delims delim s.
Proof. induction 1 as [|c lead Hc _ IH]; simpl; [reflexivity|]. now rewrite Hc. Qed.

Lemma skip_delims_only delim lead :
  Forall (fun c => is_delim delim c = true) lead -> skip_delims delim lead = [].
Proof. induction 1 as [|c lead Hc _ IH]; simpl; [reflexivity|]. now rewrite Hc. Qed.

Lemma take_token_delim delim tok c rest :
  Forall (fun c => is_delim delim c = false) tok -> is_delim delim c = true ->
  take_token delim (tok ++ c :: rest) = (tok, rest).
Proof.
  intros Htok Hc. induction Htok as [|a tok Ha _ IH]; simpl.
  - now rewrite Hc.
  - now rewrite Ha, IH.
Qed.

Lemma take_token_end delim tok :
  Forall (fun c => is_delim delim c = false) tok ->
  take_token delim tok = (tok, []).
Proof.
  induction 1 as [|a tok Ha _ IH]; simpl; [reflexivity|]. now rewrite Ha, IH.
Qed.

Lemma strtok_token delim lead tok c rest :
  Forall (fun c => is_delim delim c = true) lead ->
  tok <> [] -> Forall (fun c => is_delim delim c = false) tok ->
  is_delim delim c = true ->
  strtok delim (lead ++ tok ++ c :: rest) = Some (tok, rest).
Proof.
  intros Hlead Hne Htok Hc. unfold strtok. rewrite skip_delims_lead by assumption.
  destruct tok as [|a tok]; [contradiction|].
  pose proof (Forall_inv Htok) as Ha.
  assert (H : skip_delims delim ((a :: tok) ++ c :: rest) = (a :: tok) ++ c :: rest)
    by (simpl; now rewrite Ha).
  rewrite H. destruct ((a :: tok) ++ c :: rest) eqn:E; [discriminate E|].
  rewrite <- E. now rewrite take_token_delim.
Qed.

Lemma strtok_last delim lead tok :
  Forall (fun c => is_delim delim c = true) lead ->
  tok <> [] -> Forall (fun c => is_delim delim c = false) tok ->
  strtok delim (lead ++ tok) = Some (tok, []).
Proof.
  intros Hlead Hne Htok. unfold strtok. rewrite skip_delims_lead by assumption.
  destruct tok as [|a tok]; [contradiction|].
  pose proof (Forall_inv Htok) as Ha.
  assert (H : skip_delims delim (a :: tok) = a :: tok) by (simpl; now rewrite Ha).
  rewrite H. now rewrite (take_token_end delim (a :: tok)).
Qed.

Lemma strtok_none delim lead :
  Forall (fun c => is_delim delim c = true) lead -> strtok delim lead = None.
Proof. intros H. unfold strtok. now rewrite skip_delims_only. Qed.

Lemma digit_char_facts d :
  0 <= d <= 9 ->
  isdigit (digit_char d) = true /\ isspace (digit_char d) = false /\
  is_delim name_delims (digit_char d) = false /\
  Ascii.eqb (digit_char d) "-" = false /\ Ascii.eqb (digit_char d) "+" = false /\
  Z.of_N (N_of_ascii (digit_char d)) - 48 = d.
Proof.
  intros Hd.
  assert (d = 0 \/ d = 1 \/ d = 2 \/ d = 3 \/ d = 4 \/ d = 5 \/ d = 6 \/ d = 7 \/
          d = 8 \/ d = 9) as H by lia.
  repeat (destruct H as [->|H]); try subst d; vm_compute; repeat split; reflexivity.
Qed.

Lemma numeral_no_delim ds : digits ds -> no_delim (numeral ds).
Proof.
  induction 1 as [|d ds Hd _ IH]; constructor; [|assumption].
  now destruct (digit_char_facts d Hd) as (_ & _ & H & _).
Qed.

Lemma digits_value_numeral ds : forall acc,
  digits ds -> digits_value (numeral ds) acc = numeral_value ds acc.
Proof.
  induction ds as [|d ds IH]; intros acc Hds; simpl; [reflexivity|].
  inversion Hds as [|? ? Hd Hds']; subst.
  destruct (digit_char_facts d Hd) as (H1 & _ & _ & _ & _ & H6).
  rewrite H1, H6. now apply IH.
Qed.

Lemma numeral_value_nonneg ds : forall acc,
  digits ds -> 0 <= acc -> 0 <= numeral_value ds acc.
Proof.
  induction ds as [|d ds IH]; intros acc Hds Hacc; simpl; [assumption|].
  inversion Hds as [|? ? Hd Hds']; subst. apply IH; [assumption|lia].
Qed.

Lemma atoi_numeral ds :
  digits ds -> numeral_value ds 0 <= 2147483647 ->
  atoi (numeral ds) = Ok (numeral_value ds 0).
Proof.
  intros Hds Hmax.
  pose proof (numeral_value_nonneg ds 0 Hds ltac:(lia)) as Hnn.
  unfold atoi. destruct ds as [|d ds]; simpl; [now apply int_in_range|].
  inversion Hds as [|? ? Hd Hds']; subst.
  destruct (digit_char_facts d Hd) as (H1 & H2 & _ & H4 & H5 & H6).
  rewrite H2, H4, H5. simpl. rewrite H1, H6.
  rewrite digits_value_numeral by assumption.
  apply int_in_range. simpl in Hmax, Hnn. lia.
Qed.

Lemma strtok_first delim tok c rest :
  tok <> [] -> Forall (fun c => is_delim delim c = false) tok ->
  is_delim delim c = true ->
  strtok delim (tok ++ c :: rest) = Some (tok, rest).
Proof. intros. now apply (strtok_token delim [] tok c rest). Qed.

Lemma strtok_only delim tok :
  tok <> [] -> Forall (fun c => is_delim delim c = false) tok ->
  strtok delim tok = Some (tok, []).
Proof. intros. now apply (strtok_last delim [] tok). Qed.

Lemma dimension_loop_end fuel dimension0 dimension1 i :
  dimension_loop fuel None dimension0 dimension1 i = Some (Ok (dimension0, dimension1)).
Proof. now destruct fuel. Qed.

(** X10. For a name made of one component without delimiter, a delimiter,
    the numeral of M, a delimiter and the numeral of N, possibly after
    leading delimiters (as in [./20x30], [/data/20x30] or [lp_20_30]),
    [get_dimension] returns [nL = M + 1] and [nC = M + N + 1]. *)
Theorem X10_get_dimension_of_a_prefixed_name
    (lead dir : list ascii) (c1 c2 : ascii) (m n : list Z) (fuel : nat) :
  all_delims lead ->
  dir <> [] -> no_delim dir ->
  is_delim name_delims c1 = true -> is_delim name_delims c2 = true ->
  m <> [] -> n <> [] -> digits m -> digits n ->
  numeral_value m 0 + numeral_value n 0 + 1 <= 2147483647 ->
  (3 <= fuel)%nat ->
  get_dimension fuel (lead ++ dir ++ c1 :: numeral m ++ c2 :: numeral n)
  = Some (Ok (numeral_value m 0 + 1, numeral_value m 0 + numeral_value n 0 + 1)).
Proof.
  intros Hlead Hdir Hnd Hc1 Hc2 Hm Hn Hdm Hdn Hmax Hfuel.
  pose proof (numeral_value_nonneg m 0 Hdm ltac:(lia)) as Hm0.
  pose proof (numeral_value_nonneg n 0 Hdn ltac:(lia)) as Hn0.
  assert (Hnm : numeral m <> []) by (destruct m; [contradiction|discriminate]).
  assert (Hnn : numeral n <> []) by (destruct n; [contradiction|discriminate]).
  destruct fuel as [|[|[|fuel]]]; try lia.
  unfold get_dimension.
  rewrite (strtok_token name_delims lead dir c1) by assumption.
  cbn [dimension_loop]. change (0 =? 1) with false. change (0 =? 2) with false. cbv iota.
  rewrite (strtok_first name_delims (numeral m) c2 (numeral n));
    [|assumption|now apply numeral_no_delim|assumption].
  cbn [dimension_loop]. change (0 + 1 =? 1) with true. change (0 + 1 =? 2) with false.
  cbv iota. rewrite (atoi_numeral m) by (try assumption; lia).
  rewrite (strtok_only name_delims (numeral n));
    [|assumption|now apply numeral_no_delim].
  cbn [dimension_loop]. change (0 + 1 + 1 =? 1) with false.
  change (0 + 1 + 1 =? 2) with true. cbv iota.
  rewrite (atoi_numeral n) by (try assumption; lia).
  rewrite (strtok_none name_delims []) by constructor.
  rewrite dimension_loop_end. cbn [bind fst snd].
  rewrite (int_in_range (numeral_value m 0 + 1)) by lia. cbn [bind].
  rewrite (int_in_range (numeral_value m 0 + numeral_value n 0)) by lia. cbn [bind].
  rewrite (int_in_range (numeral_value m 0 + numeral_value n 0 + 1)) by lia.
  reflexivity.
Qed.

Lemma X10_witness :
  get_dimension 3 ([] ++ ["."]%char ++ "/"%char :: numeral [2; 0] ++ "x"%char :: numeral [3; 0])
  = Some (Ok (numeral_value [2; 0] 0 + 1,
              numeral_value [2; 0] 0 + numeral_value [3; 0] 0 + 1)).
Proof.
  apply (X10_get_dimension_of_a_prefixed_name [] ["."]%char "/" "x" [2; 0] [3; 0] 3).
  - constructor.
  - discriminate.
  - repeat constructor.
  - reflexivity.
  - reflexivity.
  - discriminate.
  - discriminate.
  - unfold digits. repeat constructor; lia.
  - unfold digits. repeat constructor; lia.
  - vm_compute. discriminate.
  - lia.
Defined.

(** X11. For a name that is only the numeral of M, a delimiter and the
    numeral of N (as [2000x2000] in the usage note of the file), the first
    token is passed over: M is not read, the second numeral is taken for
    the number of constraints and the number of variables stays 0, so
    [get_dimension] returns [nL = N + 1] and [nC = N + 1]. *)
Theorem X11_get_dimension_of_a_bare_name
    (c : ascii) (m n : list Z) (fuel : nat) :
  is_delim name_delims c = true ->
  m <> [] -> n <> [] -> digits m -> digits n ->
  numeral_value n 0 + 1 <= 2147483647 ->
  (2 <= fuel)%nat ->
  get_dimension fuel (numeral m ++ c :: numeral n)
  = Some (Ok (numeral_value n 0 + 1, numeral_value n 0 + 1)).
Proof.
  intros Hc Hm Hn Hdm Hdn Hmax Hfuel.
  pose proof (numeral_value_nonneg n 0 Hdn ltac:(lia)) as Hn0.
  assert (Hnm : numeral m <> []) by (destruct m; [contradiction|discriminate]).
  assert (Hnn : numeral n <> []) by (destruct n; [contradiction|discriminate]).
  destruct fuel as [|[|fuel]]; try lia.
  unfold get_dimension.
  rewrite (strtok_first name_delims (numeral m) c (numeral n));
    [|assumption|now apply numeral_no_delim|assumption].
  cbn [dimension_loop]. change (0 =? 1) with false. change (0 =? 2) with false. cbv iota.
  rewrite (strtok_only name_delims (numeral n));
    [|assumption|now apply numeral_no_delim].
  cbn [dimension_loop]. change (0 + 1 =? 1) with true. change (0 + 1 =? 2) with false.
  cbv iota. rewrite (atoi_numeral n) by (try assumption; lia).
  rewrite (strtok_none name_delims []) by constructor.
  rewrite dimension_loop_end. cbn [bind fst snd].
  rewrite (int_in_range (numeral_value n 0 + 1)) by lia. cbn [bind].
  rewrite Z.add_0_r.
  rewrite (int_in_range (numeral_value n 0)) by lia. cbn [bind].
  rewrite (int_in_range (numeral_value n 0 + 1)) by lia.
  reflexivity.
Qed.

Lemma X11_witness :
  get_dimension 2 (numeral [2; 0; 0; 0] ++ "x"%char :: numeral [2; 0; 0; 0])
  = Some (Ok (numeral_value [2; 0; 0; 0] 0 + 1, numeral_value [2; 0; 0; 0] 0 + 1)).
Proof.
  apply (X11_get_dimension_of_a_bare_name "x" [2; 0; 0; 0] [2; 0; 0; 0] 2).
  - reflexivity.
  - discriminate.
  - discriminate.
  - unfold digits. repeat constructor; lia.
  - unfold digits. repeat constructor; lia.
  - vm_compute. discriminate.
  - lia.
Defined.

(** X12. A name without any of the delimiters [x], [/], [_] gives a single
    token, which is passed over: [get_dimension] returns [nL = 1] and
    [nC = 1], and so does the empty name. *)
Theorem X12_get_dimension_without_delimiter (s : list ascii) (fuel : nat) :
  no_delim s -> (1 <= fuel)%nat ->
  get_dimension fuel s = Some (Ok (1, 1)).
Proof.
  intros Hs Hfuel. destruct fuel as [|fuel]; [lia|]. unfold get_dimension.
  destruct s as [|a s].
  - reflexivity.
  - rewrite (strtok_only name_delims (a :: s)); [|discriminate|assumption].
    cbn [dimension_loop]. change (0 =? 1) with false. change (0 =? 2) with false.
    cbv iota. rewrite (strtok_none name_delims []) by constructor.
    now rewrite dimension_loop_end.
Qed.

Lemma X12_witness : get_dimension 1 ["l"; "p"]%char = Some (Ok (1, 1)).
Proof.
  apply (X12_get_dimension_without_delimiter ["l"; "p"]%char 1).
  - repeat constructor.
  - lia.
Defined.

(** ** [string_to_vector] *)

Lemma skip_spaces_lead lead s :
  Forall (fun c => isspace c = true) lead -> skip_spaces (lead ++ s) = skip_spaces s.
Proof.
  induction 1 as [|c lead Hc _ IH]; [reflexivity|]. simpl. now rewrite Hc.
Qed.

Lemma skip_spaces_all s :
  Forall (fun c => isspace c = true) s -> skip_spaces s = [].
Proof.
  intros H. rewrite <- (app_nil_r s). now rewrite skip_spaces_lead.
Qed.

Lemma skip_spaces_word w s :
  w <> [] -> Forall (fun c => isspace c = false) w -> skip_spaces (w ++ s) = w ++ s.
Proof.
  intros Hne Hw. destruct w as [|a w]; [contradiction|].
  simpl. now rewrite (Forall_inv Hw).
Qed.

Lemma skip_spaces_length s : (length (skip_spaces s) <= length s)%nat.
Proof.
  induction s as [|c s IH]; simpl; [lia|]. destruct (isspace c); simpl; lia.
Qed.

Lemma take_word_word w c rest :
  Forall (fun c => isspace c = false) w -> isspace c = true ->
  take_word (w ++ c :: rest) = (w, c :: rest).
Proof.
  intros Hw Hc. induction Hw as [|a w Ha _ IH]; simpl.
  - now rewrite Hc.
  - now rewrite Ha, IH.
Qed.

Lemma take_word_end w :
  Forall (fun c => isspace c = false) w -> take_word w = (w, []).
Proof.
  induction 1 as [|a w Ha _ IH]; simpl; [reflexivity|]. now rewrite Ha, IH.
Qed.

Lemma take_word_length s :
  (length (fst (take_word s)) + length (snd (take_word s)) = length s)%nat.
Proof.
  induction s as [|c s IH]; simpl; [reflexivity|].
  destruct (isspace c); simpl; [reflexivity|].
  destruct (take_word s) as [w rest]. simpl in *. lia.
Qed.

Lemma extract_word_length iss :
  (length (fst (extract_word iss)) + length (snd (extract_word iss)) <= length iss)%nat.
Proof.
  unfold extract_word. rewrite take_word_length. apply skip_spaces_length.
Qed.

Lemma words_loop_total from_string : forall fuel iss vec,
  (length iss < fuel)%nat -> exists v, words_loop from_string fuel iss vec = Some v.
Proof.
  induction fuel as [|fuel IH]; intros iss vec Hlen; [lia|].
  simpl. pose proof (extract_word_length iss) as Hl.
  destruct (extract_word iss) as [sub iss']. simpl in Hl.
  destruct sub as [|a sub]; [eauto|]. apply IH. simpl in Hl. lia.
Qed.

Lemma string_to_vector_total from_string s :
  exists v, string_to_vector from_string s = Some v.
Proof. apply words_loop_total. lia. Qed.

Lemma words_of_length s ws : words_of s ws -> (length ws <= length s)%nat.
Proof.
  induction 1 as [s _|lead w _ Hne _|lead w c rest ws _ Hne _ _ _ IH]; simpl.
  - lia.
  - rewrite length_app. destruct w; [contradiction|]. simpl. lia.
  - rewrite !length_app. destruct w; [contradiction|]. simpl in *. lia.
Qed.

Lemma words_loop_words from_string s ws :
  from_string [] = None ->
  words_of s ws ->
  forall fuel vec, (length ws < fuel)%nat ->
    words_loop from_string fuel s vec = Some (vec ++ omap from_string ws).
Proof.
  intros Hempty. induction 1 as [s Hs|lead w Hlead Hne Hw|lead w c rest ws Hlead Hne Hw Hc _ IH];
    intros fuel vec Hfuel.
  - destruct fuel as [|fuel]; [lia|]. simpl. unfold extract_word.
    rewrite skip_spaces_all by assumption. simpl. rewrite Hempty.
    now rewrite app_nil_r.
  - destruct fuel as [|[|fuel]]; simpl in Hfuel; try lia.
    cbn [words_loop]. unfold extract_word at 1.
    rewrite skip_spaces_lead by assumption.
    rewrite <- (app_nil_r w) at 1. rewrite skip_spaces_word by assumption.
    rewrite app_nil_r, take_word_end by assumption.
    destruct w as [|a w]; [contradiction|].
    unfold extract_word. simpl skip_spaces. simpl take_word. cbv iota beta.
    rewrite Hempty. simpl omap.
    destruct (from_string (a :: w)); simpl; now rewrite ?app_nil_r.
  - destruct fuel as [|fuel]; [simpl in Hfuel; lia|].
    cbn [words_loop]. unfold extract_word at 1.
    rewrite skip_spaces_lead by assumption.
    rewrite skip_spaces_word by assumption.
    rewrite take_word_word by assumption.
    destruct w as [|a w]; [contradiction|]. cbv iota beta.
    rewrite IH by (simpl in Hfuel; lia). simpl omap.
    destruct (from_string (a :: w)); [|reflexivity].
    now rewrite <- app_assoc.
Qed.

(** X13. On a line made of words separated by white space,
    [string_to_vector] returns the numbers of the words that convert, in
    order; a word that does not convert is left out, so the numbers after
    it move one place to the left. *)
Theorem X13_string_to_vector_keeps_the_words_that_convert
    (from_string : list ascii -> option Qc) (s : list ascii) (ws : list (list ascii)) :
  from_string [] = None ->
  words_of s ws ->
  string_to_vector from_string s = Some (omap from_string ws).
Proof.
  intros Hempty Hws. unfold string_to_vector.
  rewrite (words_loop_words from_string s ws Hempty Hws); [reflexivity|].
  pose proof (words_of_length s ws Hws). lia.
Qed.

Lemma X13_witness :
  string_to_vector numeral_word ["1"; "2"; " "; "a"; " "; " "; "7"]%char
  = Some (omap numeral_word [["1"; "2"]; ["a"]; ["7"]]%char).
Proof.
  apply (X13_string_to_vector_keeps_the_words_that_convert numeral_word).
  - reflexivity.
  - apply (words_more [] ["1"; "2"] " " ["a"; " "; " "; "7"] [["a"]; ["7"]])%char;
      [constructor|discriminate|repeat constructor|reflexivity|].
    apply (words_more [" "] ["a"] " " [" "; "7"] [["7"]])%char;
      [repeat constructor|discriminate|repeat constructor|reflexivity|].
    apply (words_last [" "; " "] ["7"])%char;
      [repeat constructor|discriminate|repeat constructor].
Defined.

(** ** [alocate_matrix], [read_data] and [delete_matrix] *)

Lemma alocate_rows new_ok nC : forall (n : nat) (from : Z) (acc : table),
  0 <= nC ->
  for_loop n from (alocate_row new_ok nC) acc
  = Ok (acc ++ map (fun i => if new_ok (i + 1)
                             then Some (replicate (Z.to_nat nC) None) else None)
                   (seqZ from (Z.of_nat n))).
Proof.
  induction n as [|n IH]; intros from acc HnC.
  - simpl. now rewrite app_nil_r.
  - cbn [for_loop]. unfold alocate_row at 1.
    destruct (Z.ltb_spec nC 0) as [|_]; [lia|]. cbn [bind].
    rewrite IH by assumption. rewrite <- app_assoc.
    rewrite (seqZ_cons from (Z.of_nat (S n))) by lia.
    replace (Z.pred (Z.of_nat (S n))) with (Z.of_nat n) by lia.
    reflexivity.
Qed.

(** X14. For sizes that are not negative, [alocate_matrix] ends the
    program exactly when the array of rows is refused.  When the array is granted it returns [nL] entries, and entry
    [i] is a null pointer exactly when row [i] was refused: the test of
    line 104 does not see it. *)
Theorem X14_a_refused_row_goes_unnoticed (new_ok : Z -> bool) (nL nC : Z) :
  0 <= nL -> 0 <= nC ->
  (alocate_matrix new_ok nL nC = Exit1 <-> new_ok 0 = false) /\
  (new_ok 0 = true ->
   exists tableau,
     alocate_matrix new_ok nL nC = Ok tableau /\
     length tableau = Z.to_nat nL /\
     forall i, 0 <= i < nL ->
       tableau !! Z.to_nat i
       = Some (if new_ok (i + 1) then Some (replicate (Z.to_nat nC) None) else None)).
Proof.
  intros HnL HnC. unfold alocate_matrix.
  destruct (Z.ltb_spec nL 0) as [|_]; [lia|].
  rewrite alocate_rows by assumption. rewrite app_nil_l.
  destruct (new_ok 0); split; try discriminate.
  - split; discriminate.
  - intros _. eexists. split; [reflexivity|]. split.
    + rewrite length_map, length_seqZ. lia.
    + intros i Hi. rewrite list_lookup_fmap.
      rewrite lookup_seqZ_lt by lia.
      simpl. now replace (0 + Z.of_nat (Z.to_nat i)) with i by lia.
  - split; intros _; reflexivity.
Qed.

Lemma X14_witness :
  (alocate_matrix (fun k => negb (k =? 2)) 3 4 = Exit1 <-> negb (0 =? 2) = false) /\
  (negb (0 =? 2) = true ->
   exists tableau,
     alocate_matrix (fun k => negb (k =? 2)) 3 4 = Ok tableau /\
     length tableau = Z.to_nat 3 /\
     forall i, 0 <= i < 3 ->
       tableau !! Z.to_nat i
       = Some (if negb (i + 1 =? 2) then Some (replicate (Z.to_nat 4) None) else None)).
Proof.
  apply (X14_a_refused_row_goes_unnoticed (fun k => negb (k =? 2)) 3 4); lia.
Defined.

Lemma read_lines_end from_string tail tableau lin :
  ends_rows tail -> read_lines from_string tail tableau lin = Some (Ok tableau).
Proof. intros [->|[more ->]]; reflexivity. Qed.

Lemma read_lines_step from_string line file tableau lin contraint :
  line <> [] -> string_to_vector from_string line = Some contraint ->
  read_lines from_string (line :: file) tableau lin
  = match copy_row contraint tableau lin with
    | Ok tableau' => read_lines from_string file tableau' (lin + 1)
    | Exit1 => Some Exit1
    | Fault => Some Fault
    end.
Proof.
  intros Hne Hv. destruct line as [|a line]; [contradiction|].
  cbn [read_lines]. now rewrite Hv.
Qed.

Lemma copy_row_fresh contraint nC done k :
  Z.of_nat (length contraint) <= nC ->
  copy_row contraint
    (done ++ replicate (S k) (Some (replicate (Z.to_nat nC) None)))
    (Z.of_nat (length done))
  = Ok ((done ++ [Some (stored nC contraint)])
        ++ replicate k (Some (replicate (Z.to_nat nC) None))).
Proof.
  intros Hlen. unfold copy_row. rewrite Nat2Z.id.
  rewrite lookup_app_r by lia. rewrite Nat.sub_diag. cbn [replicate lookup list_lookup].
  rewrite length_replicate.
  destruct (Nat.leb_spec (length contraint) (Z.to_nat nC)) as [_|]; [|lia].
  rewrite insert_app_r_alt by lia. rewrite Nat.sub_diag. cbn [insert list_insert].
  rewrite drop_replicate. unfold stored. now rewrite <- app_assoc.
Qed.

Lemma read_lines_rows from_string nC lines vs :
  Forall2 (row_line from_string nC) lines vs ->
  forall done k tail,
    ends_rows tail -> (length vs <= k)%nat ->
    read_lines from_string (lines ++ tail)
      (done ++ replicate k (Some (replicate (Z.to_nat nC) None)))
      (Z.of_nat (length done))
    = Some (Ok (done ++ map (fun v => Some (stored nC v)) vs
                ++ replicate (k - length vs) (Some (replicate (Z.to_nat nC) None)))).
Proof.
  induction 1 as [|line v lines vs (Hne & Hv & Hlen) _ IH]; intros done k tail Htail Hk.
  - simpl. rewrite Nat.sub_0_r. now apply read_lines_end.
  - simpl in Hk. destruct k as [|k]; [lia|].
    rewrite <- app_comm_cons. rewrite (read_lines_step _ _ _ _ _ v Hne Hv).
    rewrite copy_row_fresh by assumption.
    replace (Z.of_nat (length done) + 1) with (Z.of_nat (length (done ++ [Some (stored nC v)])))
      by (rewrite length_app; simpl; lia).
    rewrite IH by (assumption || lia).
    simpl. now rewrite <- app_assoc.
Qed.

Lemma alocate_matrix_granted new_ok nL nC :
  0 <= nL -> 0 <= nC ->
  (forall k, 0 <= k <= nL -> new_ok k = true) ->
  alocate_matrix new_ok nL nC
  = Ok (replicate (Z.to_nat nL) (Some (replicate (Z.to_nat nC) None))).
Proof.
  intros HnL HnC Hok. unfold alocate_matrix.
  destruct (Z.ltb_spec nL 0) as [|_]; [lia|].
  rewrite (Hok 0) by lia. rewrite alocate_rows by assumption. rewrite app_nil_l.
  f_equal. apply list_eq. intros i.
  rewrite list_lookup_fmap.
  destruct (decide (i < Z.to_nat nL)%nat) as [Hi|Hi].
  - rewrite lookup_seqZ_lt by lia. rewrite lookup_replicate_2 by lia.
    simpl. now rewrite Hok by lia.
  - rewrite lookup_seqZ_ge by lia. simpl. symmetry.
    apply lookup_ge_None_2. rewrite length_replicate. lia.
Qed.

Lemma read_data_rows from_string new_ok fuel argv1 nL nC lines vs tail :
  get_dimension fuel argv1 = Some (Ok (nL, nC)) ->
  0 <= nL -> 0 <= nC ->
  (forall k, 0 <= k <= nL -> new_ok k = true) ->
  Forall2 (row_line from_string nC) lines vs ->
  Z.of_nat (length vs) <= nL ->
  ends_rows tail ->
  read_data from_string new_ok fuel argv1 (Some (lines ++ tail))
  = Some (Ok (map (fun v => Some (stored nC v)) vs
              ++ replicate (Z.to_nat nL - length vs)
                   (Some (replicate (Z.to_nat nC) None)), nL, nC)).
Proof.
  intros Hdim HnL HnC Hok Hrows Hlen Htail. unfold read_data.
  rewrite Hdim. rewrite alocate_matrix_granted by assumption.
  pose proof (read_lines_rows from_string nC lines vs Hrows [] (Z.to_nat nL) tail Htail) as H.
  rewrite !app_nil_l in H. change (Z.of_nat (length [])) with 0 in H.
  rewrite H by lia. reflexivity.
Qed.

Lemma mapM_id_Some (v : list Qc) : mapM id (map Some v) = Some v.
Proof. apply mapM_Some. induction v; constructor; auto. Qed.

Lemma initialised_stored nC vs :
  Forall (fun v => Z.of_nat (length v) = nC) vs ->
  initialised (map (fun v => Some (stored nC v)) vs) = Some vs.
Proof.
  intros H. unfold initialised. apply mapM_Some.
  induction H as [|v vs Hv _ IH]; constructor; [|assumption].
  unfold stored. replace (Z.to_nat nC - length v)%nat with 0%nat by lia.
  simpl. rewrite app_nil_r. apply mapM_id_Some.
Qed.

(** X15. On a file of exactly [nL] rows of exactly [nC] numbers each,
    followed by nothing or by an empty line, [read_data] (every request for
    storage being granted) returns the tableau with every cell stored: the
    matrix of these numbers, with rows [0..nL-1] and columns [0..nC-1] as
    the engine indexes them after the decrement of lines 265-266. *)
Theorem X15_read_data_stores_the_rows
    (from_string : list ascii -> option Qc) (new_ok : Z -> bool) (fuel : nat)
    (argv1 : list ascii) (nL nC : Z)
    (lines : list (list ascii)) (vs : matrix) (tail : list (list ascii)) :
  get_dimension fuel argv1 = Some (Ok (nL, nC)) ->
  1 <= nL -> 1 <= nC ->
  (forall k, 0 <= k <= nL -> new_ok k = true) ->
  Forall2 (row_line from_string nC) lines vs ->
  Z.of_nat (length vs) = nL ->
  Forall (fun v => Z.of_nat (length v) = nC) vs ->
  ends_rows tail ->
  exists tableau,
    read_data from_string new_ok fuel argv1 (Some (lines ++ tail))
    = Some (Ok (tableau, nL, nC)) /\
    initialised tableau = Some vs /\
    well_formed (nL - 1) (nC - 1) vs.
Proof.
  intros Hdim HnL HnC Hok Hrows Hlen Hcols Htail.
  eexists. split; [|split].
  - apply (read_data_rows from_string new_ok fuel argv1 nL nC lines vs tail);
      (assumption || lia).
  - replace (Z.to_nat nL - length vs)%nat with 0%nat by lia.
    simpl. rewrite app_nil_r. now apply initialised_stored.
  - unfold well_formed. repeat split; try lia.
    eapply Forall_impl; [|exact Hcols]. simpl. intros v Hv. lia.
Qed.

Lemma X15_witness :
  exists tableau,
    read_data numeral_word (fun _ => true) 3 ["."; "/"; "1"; "x"; "1"]%char
      (Some ([["1"; " "; "1"; " "; "4"]; ["1"; " "; "0"; " "; "0"]]%char
             ++ [[]; ["9"]]%char))
    = Some (Ok (tableau, 2, 3)) /\
    initialised tableau = Some already_optimal /\
    well_formed (2 - 1) (3 - 1) already_optimal.
Proof.
  apply (X15_read_data_stores_the_rows numeral_word (fun _ => true) 3
           ["."; "/"; "1"; "x"; "1"]%char 2 3
           [["1"; " "; "1"; " "; "4"]; ["1"; " "; "0"; " "; "0"]]%char
           already_optimal [[]; ["9"]]%char).
  - reflexivity.
  - lia.
  - lia.
  - reflexivity.
  - repeat constructor; discriminate.
  - reflexivity.
  - repeat constructor.
  - right. eexists. reflexivity.
Defined.

Lemma unset_cell_not_initialised (pre : list (option Qc)) (n : nat) :
  (1 <= n)%nat -> mapM id (pre ++ replicate n None) = None.
Proof.
  intros Hn. apply eq_None_not_Some. rewrite mapM_is_Some.
  intros H. apply Forall_app in H as [_ H].
  destruct n as [|n]; [lia|]. apply Forall_inv in H.
  destruct H as [x Hx]. discriminate.
Qed.

(** X16. When the file has fewer than [nL] rows before its end or its first
    empty line, or a row with fewer than [nC] numbers, [read_data] still
    returns the tableau, and some cell of it has never been stored. *)
Theorem X16_read_data_leaves_cells_unset_on_a_short_file
    (from_string : list ascii -> option Qc) (new_ok : Z -> bool) (fuel : nat)
    (argv1 : list ascii) (nL nC : Z)
    (lines : list (list ascii)) (vs : matrix) (tail : list (list ascii)) :
  get_dimension fuel argv1 = Some (Ok (nL, nC)) ->
  0 <= nL -> 1 <= nC ->
  (forall k, 0 <= k <= nL -> new_ok k = true) ->
  Forall2 (row_line from_string nC) lines vs ->
  Z.of_nat (length vs) <= nL ->
  ends_rows tail ->
  Z.of_nat (length vs) < nL \/ Exists (fun v => Z.of_nat (length v) < nC) vs ->
  exists tableau,
    read_data from_string new_ok fuel argv1 (Some (lines ++ tail))
    = Some (Ok (tableau, nL, nC)) /\
    initialised tableau = None.
Proof.
  intros Hdim HnL HnC Hok Hrows Hlen Htail Hshort.
  eexists. split.
  - apply (read_data_rows from_string new_ok fuel argv1 nL nC lines vs tail);
      (assumption || lia).
  - unfold initialised. apply eq_None_not_Some. rewrite mapM_is_Some.
    intros H. apply Forall_app in H as [Hvs Hrest].
    destruct Hshort as [Hfew|Hrow].
    + destruct (Z.to_nat nL - length vs)%nat as [|k] eqn:Ek; [lia|].
      apply Forall_inv in Hrest. destruct Hrest as [x Hx]. simpl in Hx.
      rewrite <- (app_nil_l (replicate _ _)) in Hx.
      rewrite unset_cell_not_initialised in Hx by lia. discriminate.
    + apply Exists_exists in Hrow as (v & Hin & Hv).
      rewrite Forall_fmap in Hvs. rewrite Forall_forall in Hvs.
      destruct (Hvs v Hin) as [x Hx]. simpl in Hx. unfold stored in Hx.
      rewrite unset_cell_not_initialised in Hx by lia. discriminate.
Qed.

Lemma X16_witness :
  exists tableau,
    read_data numeral_word (fun _ => true) 3 ["."; "/"; "1"; "x"; "1"]%char
      (Some ([["1"; " "; "1"; " "; "4"]; ["1"; " "; "0"]]%char ++ []))
    = Some (Ok (tableau, 2, 3)) /\
    initialised tableau = None.
Proof.
  apply (X16_read_data_leaves_cells_unset_on_a_short_file numeral_word (fun _ => true) 3
           ["."; "/"; "1"; "x"; "1"]%char 2 3
           [["1"; " "; "1"; " "; "4"]; ["1"; " "; "0"]]%char
           [qrow [1; 1; 4]; qrow [1; 0]] []).
  - reflexivity.
  - lia.
  - lia.
  - reflexivity.
  - repeat constructor; discriminate.
  - simpl. lia.
  - left. reflexivity.
  - right. apply Exists_cons_tl. apply Exists_cons_hd. simpl. lia.
Defined.

Lemma copy_row_shape nC contraint tableau lin tableau' :
  copy_row contraint tableau lin = Ok tableau' ->
  (Z.to_nat lin < length tableau)%nat /\
  length tableau' = length tableau /\
  (rows_of_length nC tableau -> rows_of_length nC tableau').
Proof.
  unfold copy_row. intros H.
  destruct (tableau !! Z.to_nat lin) as [[row|]|] eqn:E; [| |discriminate].
  - destruct (Nat.leb_spec (length contraint) (length row)) as [Hle|]; [|discriminate].
    injection H as <-. split; [now apply lookup_lt_Some in E|].
    split; [now rewrite length_insert|].
    intros Hrows. unfold rows_of_length in *.
    pose proof (Forall_lookup_1 _ _ _ _ Hrows E) as Hrow. simpl in Hrow.
    apply Forall_insert; [assumption|]. simpl.
    rewrite length_app, length_map, length_drop. lia.
  - destruct contraint; [|discriminate]. injection H as <-.
    split; [now apply lookup_lt_Some in E|]. split; [reflexivity|auto].
Qed.

Lemma copy_row_never_exits contraint tableau lin : copy_row contraint tableau lin <> Exit1.
Proof.
  unfold copy_row.
  destruct (tableau !! Z.to_nat lin) as [[row|]|]; [| |discriminate].
  - destruct (length contraint <=? length row)%nat; discriminate.
  - destruct contraint; discriminate.
Qed.

Lemma read_lines_too_many from_string tail : forall lines tableau lin,
  Forall (fun line => line <> []) lines ->
  0 <= lin <= Z.of_nat (length tableau) ->
  Z.of_nat (length tableau) - lin < Z.of_nat (length lines) ->
  read_lines from_string (lines ++ tail) tableau lin = Some Fault.
Proof.
  induction lines as [|line lines IH]; intros tableau lin Hne Hlin Hmany.
  - simpl in Hmany. lia.
  - pose proof (Forall_inv Hne) as Hline. apply Forall_inv_tail in Hne.
    destruct (string_to_vector_total from_string line) as [v Hv].
    rewrite <- app_comm_cons. rewrite (read_lines_step _ _ _ _ _ v Hline Hv).
    pose proof (copy_row_never_exits v tableau lin) as Hexit.
    destruct (copy_row v tableau lin) as [tableau'| |] eqn:E;
      [|contradiction|reflexivity].
    apply (copy_row_shape 0) in E as (Hlt & Hlen & _).
    apply IH; [assumption|rewrite Hlen; lia|rewrite Hlen; simpl in Hmany; lia].
Qed.

Lemma read_lines_too_long from_string nC tail line v : forall lines tableau lin,
  Forall (fun line => line <> []) lines ->
  In line lines -> string_to_vector from_string line = Some v ->
  0 <= nC < Z.of_nat (length v) ->
  rows_of_length nC tableau ->
  read_lines from_string (lines ++ tail) tableau lin = Some Fault.
Proof.
  intros lines tableau lin Hne Hin Hv Hlong. revert tableau lin.
  induction lines as [|l lines IH]; intros tableau lin Hrows; [destruct Hin|].
  pose proof (Forall_inv Hne) as Hl. apply Forall_inv_tail in Hne.
  destruct (string_to_vector_total from_string l) as [v' Hv'].
  rewrite <- app_comm_cons. rewrite (read_lines_step _ _ _ _ _ v' Hl Hv').
  pose proof (copy_row_never_exits v' tableau lin) as Hexit.
  destruct (copy_row v' tableau lin) as [tableau'| |] eqn:E;
    [|contradiction|reflexivity].
  destruct Hin as [->|Hin].
  - exfalso. rewrite Hv in Hv'. injection Hv' as <-.
    unfold copy_row in E.
    destruct (tableau !! Z.to_nat lin) as [[row|]|] eqn:El; [| |discriminate].
    + pose proof (Forall_lookup_1 _ _ _ _ Hrows El) as Hrow. simpl in Hrow.
      destruct (Nat.leb_spec (length v) (length row)); [lia|discriminate].
    + destruct v; [simpl in Hlong; lia|discriminate].
  - apply (copy_row_shape nC) in E as (_ & _ & Hrows').
    apply IH; [assumption|assumption|auto].
Qed.

Lemma alocate_matrix_shape new_ok nL nC tableau :
  alocate_matrix new_ok nL nC = Ok tableau ->
  0 <= nL /\ 0 <= nC \/ nL = 0 ->
  length tableau = Z.to_nat nL /\ rows_of_length nC tableau.
Proof.
  unfold alocate_matrix. intros H Hn.
  destruct (Z.ltb_spec nL 0) as [|HnL]; [discriminate|].
  destruct (new_ok 0); [|discriminate].
  destruct Hn as [[_ HnC]| ->].
  - rewrite alocate_rows in H by assumption. injection H as <-.
    rewrite ?app_nil_l, length_map, length_seqZ. split; [lia|].
    unfold rows_of_length. apply Forall_fmap, Forall_forall. intros i _. simpl.
    destruct (new_ok (i + 1)); [|exact I]. now rewrite length_replicate.
  - simpl in H. injection H as <-. split; [reflexivity|constructor].
Qed.

(** X17. [read_data] does not check the row index: when the file has more
    than [nL] lines before its end or its first empty line, the run ends in
    a fault, whatever the lines hold (at the latest when line [nL] is
    copied past the end of the array of rows). *)
Theorem X17_read_data_faults_on_too_many_lines
    (from_string : list ascii -> option Qc) (new_ok : Z -> bool) (fuel : nat)
    (argv1 : list ascii) (nL nC : Z)
    (lines tail : list (list ascii)) :
  get_dimension fuel argv1 = Some (Ok (nL, nC)) ->
  0 <= nL -> 0 <= nC ->
  new_ok 0 = true ->
  Forall (fun line => line <> []) lines ->
  nL < Z.of_nat (length lines) ->
  read_data from_string new_ok fuel argv1 (Some (lines ++ tail)) = Some Fault.
Proof.
  intros Hdim HnL HnC Hok Hne Hmany. unfold read_data. rewrite Hdim.
  destruct (alocate_matrix new_ok nL nC) as [tableau| |] eqn:E.
  - apply alocate_matrix_shape in E as [Hlen _]; [|left; lia].
    rewrite read_lines_too_many; [reflexivity|assumption|lia|lia].
  - exfalso. unfold alocate_matrix in E.
    destruct (nL <? 0); [discriminate|]. rewrite Hok in E.
    rewrite alocate_rows in E by assumption. discriminate.
  - reflexivity.
Qed.

Lemma X17_witness :
  read_data numeral_word (fun _ => true) 3 ["."; "/"; "1"; "x"; "1"]%char
    (Some ([["1"; " "; "1"; " "; "4"]; ["1"; " "; "0"; " "; "0"]; ["9"]]%char ++ []))
  = Some Fault.
Proof.
  apply (X17_read_data_faults_on_too_many_lines numeral_word (fun _ => true) 3
           ["."; "/"; "1"; "x"; "1"]%char 2 3).
  - reflexivity.
  - lia.
  - lia.
  - reflexivity.
  - repeat constructor; discriminate.
  - simpl. lia.
Defined.

(** X18. [read_data] does not check the length of a row either: when a
    line before the end of the file or its first empty line holds more than
    [nC] numbers, the run ends in a fault (at the latest when that line is
    copied past the end of its row). *)
Theorem X18_read_data_faults_on_a_long_line
    (from_string : list ascii -> option Qc) (new_ok : Z -> bool) (fuel : nat)
    (argv1 : list ascii) (nL nC : Z)
    (lines tail : list (list ascii)) (line : list ascii) (v : list Qc) :
  get_dimension fuel argv1 = Some (Ok (nL, nC)) ->
  0 <= nL -> 0 <= nC ->
  new_ok 0 = true ->
  Forall (fun line => line <> []) lines ->
  In line lines ->
  string_to_vector from_string line = Some v ->
  nC < Z.of_nat (length v) ->
  read_data from_string new_ok fuel argv1 (Some (lines ++ tail)) = Some Fault.
Proof.
  intros Hdim HnL HnC Hok Hne Hin Hv Hlong. unfold read_data. rewrite Hdim.
  destruct (alocate_matrix new_ok nL nC) as [tableau| |] eqn:E.
  - apply alocate_matrix_shape in E as [_ Hrows]; [|left; lia].
    rewrite (read_lines_too_long from_string nC tail line v);
      (reflexivity || assumption || lia).
  - exfalso. unfold alocate_matrix in E.
    destruct (nL <? 0); [discriminate|]. rewrite Hok in E.
    rewrite alocate_rows in E by assumption. discriminate.
  - reflexivity.
Qed.

Lemma X18_witness :
  read_data numeral_word (fun _ => true) 3 ["."; "/"; "1"; "x"; "1"]%char
    (Some ([["1"; " "; "1"; " "; "4"]; ["1"; " "; "0"; " "; "0"; " "; "5"]]%char ++ []))
  = Some Fault.
Proof.
  apply (X18_read_data_faults_on_a_long_line numeral_word (fun _ => true) 3
           ["."; "/"; "1"; "x"; "1"]%char 2 3 _ _
           ["1"; " "; "0"; " "; "0"; " "; "5"]%char (qrow [1; 0; 0; 5])).
  - reflexivity.
  - lia.
  - lia.
  - reflexivity.
  - repeat constructor; discriminate.
  - right. left. reflexivity.
  - reflexivity.
  - simpl. lia.
Defined.

Lemma for_loop_last {T : Type} (body : Z -> T -> res T) : forall (n : nat) (from : Z) (s : T),
  for_loop (S n) from body s
  = do s' <- for_loop n from body s; body (from + Z.of_nat n) s'.
Proof.
  induction n as [|n IH]; intros from s.
  - simpl. rewrite Z.add_0_r. now destruct (body from s).
  - change (for_loop (S (S n)) from body s)
      with (do s' <- body from s; for_loop (S n) (from + 1) body s').
    change (for_loop (S n) from body s)
      with (do s' <- body from s; for_loop n (from + 1) body s').
    destruct (body from s) as [s'| |]; cbn [bind]; try reflexivity.
    rewrite IH. now replace (from + 1 + Z.of_nat n) with (from + Z.of_nat (S n)) by lia.
Qed.

Lemma delete_rows (tableau : table) : forall (n : nat),
  (n <= length tableau)%nat ->
  for_loop n 0 delete_row tableau = Ok (replicate n None ++ drop n tableau).
Proof.
  intros n Hn.
  destruct (for_loop_from
              (fun k t => 0 <= k /\ t = replicate (Z.to_nat k) None ++ drop (Z.to_nat k) tableau)
              delete_row n 0 tableau) as (t' & Hrun & _ & Ht').
  - split; [lia|]. simpl. now rewrite drop_0.
  - intros k t Hk [_ ->]. unfold delete_row.
    assert (Hlt : (Z.to_nat k < length tableau)%nat) by lia.
    destruct (lookup_lt_is_Some_2 tableau (Z.to_nat k) Hlt) as [r Hr].
    rewrite lookup_app_r by (rewrite length_replicate; lia).
    rewrite length_replicate, Nat.sub_diag, lookup_drop, Nat.add_0_r, Hr.
    eexists. split; [reflexivity|]. split; [lia|].
    rewrite insert_app_r_alt by (rewrite length_replicate; lia).
    rewrite length_replicate, Nat.sub_diag.
    rewrite (drop_S tableau r (Z.to_nat k)) by assumption. cbn [insert list_insert].
    replace (Z.to_nat (k + 1)) with (S (Z.to_nat k)) by lia.
    rewrite replicate_S_end. now rewrite <- app_assoc.
  - rewrite Hrun, Ht'. replace (Z.to_nat (0 + Z.of_nat n)) with n by lia. reflexivity.
Qed.

Lemma omap_id_unset (n : nat) (t : table) : omap id (replicate n None ++ t) = omap id t.
Proof. induction n as [|n IH]; [reflexivity|]. simpl. exact IH. Qed.

(** X19. Called with the number of rows that were allocated,
    [delete_matrix] gives every row back; called with that number less one,
    as line 383 does after the decrement of line 265, it gives back all
    rows but the last, so the objective row stays allocated.  A count above
    the number of rows goes past the end of the array. *)
Theorem X19_delete_matrix_leaves_the_objective_row
    (tableau : table) (last_row : option cells) :
  (delete_matrix (tableau ++ [last_row]) (Z.of_nat (length (tableau ++ [last_row]))) = Ok []) /\
  (delete_matrix (tableau ++ [last_row]) (Z.of_nat (length (tableau ++ [last_row])) - 1)
   = Ok (match last_row with Some row => [row] | None => [] end)) /\
  (delete_matrix (tableau ++ [last_row]) (Z.of_nat (length (tableau ++ [last_row])) + 1)
   = Fault).
Proof.
  unfold delete_matrix. rewrite length_app. simpl length.
  split; [|split].
  - rewrite Nat2Z.id. rewrite delete_rows by (rewrite length_app; simpl; lia).
    cbn [bind]. rewrite omap_id_unset.
    rewrite drop_ge by (rewrite length_app; simpl; lia). reflexivity.
  - replace (Z.to_nat (Z.of_nat (length tableau + 1) - 1)) with (length tableau) by lia.
    rewrite delete_rows by (rewrite length_app; simpl; lia).
    cbn [bind]. rewrite omap_id_unset. rewrite drop_app_length.
    now destruct last_row.
  - replace (Z.to_nat (Z.of_nat (length tableau + 1) + 1))
      with (S (length tableau + 1)) by lia.
    rewrite for_loop_last. replace (0 + Z.of_nat (length tableau + 1))
      with (Z.of_nat (length tableau + 1)) by lia.
    rewrite delete_rows by (rewrite length_app; simpl; lia).
    cbn [bind]. unfold delete_row.
    rewrite lookup_ge_None_2; [reflexivity|].
    rewrite length_app, length_replicate, length_drop, length_app. simpl. lia.
Qed.

(** ** The first search with several threads *)

Lemma most_negative_on_init f : most_negative_on f [] Compare_Max.init.
Proof. left. repeat split. intros j Hj. inversion Hj. Qed.

Lemma most_negative_on_same f js js' mx :
  (forall j, j ∈ js <-> j ∈ js') ->
  most_negative_on f js mx -> most_negative_on f js' mx.
Proof.
  intros Hsame [(Hi & Hv & Hall)|(Hi & Hneg & Hv & Hall)].
  - left. repeat split; try assumption. intros j Hj. apply Hall. now apply Hsame.
  - right. repeat split; try assumption; [now apply Hsame|].
    intros j Hj. apply Hall. now apply Hsame.
Qed.

Lemma most_negative_on_step f js k mx :
  most_negative_on f js mx ->
  most_negative_on f (js ++ [k]) (scan_step (f k) k mx).
Proof.
  intros [(Hi & Hv & Hall)|(Hi & Hneg & Hv & Hall)]; unfold scan_step.
  - rewrite Hv. case_bool_decide as Hx; simpl.
    + case_bool_decide as Hlt; [|exfalso; apply Hlt; clear -Hx; qc_lra].
      right. simpl. repeat split; try assumption.
      * apply elem_of_app. right. apply list_elem_of_singleton. reflexivity.
      * intros j Hj. apply elem_of_app in Hj as [Hj|Hj].
        -- assert (0 <= f j)%Qc by now apply Hall. clear -Hx H. qc_lra.
        -- apply list_elem_of_singleton in Hj as ->. apply Qcle_refl.
    + left. repeat split; try assumption.
      intros j Hj. apply elem_of_app in Hj as [Hj|Hj].
      * now apply Hall.
      * apply list_elem_of_singleton in Hj as ->. now apply Qcnot_lt_le.
  - case_bool_decide as Hx; simpl; [case_bool_decide as Hlt|]; simpl.
    + right. simpl. repeat split; try assumption.
      * apply elem_of_app. right. apply list_elem_of_singleton. reflexivity.
      * intros j Hj. apply elem_of_app in Hj as [Hj|Hj].
        -- assert (f (Compare_Max.index mx) <= f j)%Qc by now apply Hall.
           rewrite Hv in Hlt. clear -Hlt H. qc_lra.
        -- apply list_elem_of_singleton in Hj as ->. apply Qcle_refl.
    + right. repeat split; try assumption.
      * apply elem_of_app. now left.
      * intros j Hj. apply elem_of_app in Hj as [Hj|Hj]; [now apply Hall|].
        apply list_elem_of_singleton in Hj as ->.
        rewrite Hv in Hlt. apply Qcnot_lt_le in Hlt. clear -Hlt. qc_lra.
    + right. repeat split; try assumption.
      * apply elem_of_app. now left.
      * intros j Hj. apply elem_of_app in Hj as [Hj|Hj]; [now apply Hall|].
        apply list_elem_of_singleton in Hj as ->.
        apply Qcnot_lt_le in Hx. clear -Hx Hneg. qc_lra.
Qed.

Lemma most_negative_on_maximo f js1 js2 a b :
  most_negative_on f js1 a -> most_negative_on f js2 b ->
  most_negative_on f (js1 ++ js2) (maximo a b).
Proof.
  intros [(Hi & Hv & Hall)|(Hi & Hneg & Hv & Hall)]
         [(Hi' & Hv' & Hall')|(Hi' & Hneg' & Hv' & Hall')];
    unfold maximo; rewrite Hv, Hv'.
  - case_bool_decide as H0; [inversion H0|]. left. repeat split; try assumption.
    intros j Hj. apply elem_of_app in Hj as [Hj|Hj]; auto.
  - case_bool_decide as H0; [exfalso; clear -H0 Hneg'; qc_lra|].
    right. repeat split; try assumption; [apply elem_of_app; now right|].
    intros j Hj. apply elem_of_app in Hj as [Hj|Hj]; [|now apply Hall'].
    assert (0 <= f j)%Qc by now apply Hall. clear -H Hneg'. qc_lra.
  - case_bool_decide as H0; [|exfalso; apply H0; clear -Hneg; qc_lra].
    right. repeat split; try assumption; [apply elem_of_app; now left|].
    intros j Hj. apply elem_of_app in Hj as [Hj|Hj]; [now apply Hall|].
    assert (0 <= f j)%Qc by now apply Hall'. clear -H Hneg. qc_lra.
  - case_bool_decide as H0.
    + right. repeat split; try assumption; [apply elem_of_app; now left|].
      intros j Hj. apply elem_of_app in Hj as [Hj|Hj]; [now apply Hall|].
      assert (f (Compare_Max.index b) <= f j)%Qc by now apply Hall'.
      clear -H H0. qc_lra.
    + right. repeat split; try assumption; [apply elem_of_app; now right|].
      intros j Hj. apply elem_of_app in Hj as [Hj|Hj]; [|now apply Hall'].
      assert (f (Compare_Max.index a) <= f j)%Qc by now apply Hall.
      apply Qcnot_lt_le in H0. clear -H H0. qc_lra.
Qed.

Lemma scan_thread_most_negative constraintNumb colNumb t :
  well_formed constraintNumb colNumb t ->
  forall js done priv,
    (forall j, j ∈ js -> 0 <= j <= colNumb) ->
    most_negative_on (cell t constraintNumb) done priv ->
    exists priv',
      scan_thread constraintNumb t js priv = Ok priv' /\
      most_negative_on (cell t constraintNumb) (done ++ js) priv'.
Proof.
  intros Hwf. induction js as [|j js IH]; intros done priv Hjs Hpriv.
  - exists priv. split; [reflexivity|]. now rewrite app_nil_r.
  - cbn [scan_thread].
    rewrite (scan_body_step constraintNumb colNumb) by (try assumption; apply Hjs; left).
    cbn [bind].
    destruct (IH (done ++ [j]) (scan_step (cell t constraintNumb j) j priv))
      as (priv' & Hrun & Hres).
    + intros i Hi. apply Hjs. now right.
    + now apply most_negative_on_step.
    + exists priv'. split; [assumption|]. now rewrite <- app_assoc in Hres.
Qed.

Lemma scan_team_most_negative constraintNumb colNumb t :
  well_formed constraintNumb colNumb t ->
  forall team done shared,
    (forall j, j ∈ concat team -> 0 <= j <= colNumb) ->
    most_negative_on (cell t constraintNumb) done shared ->
    exists mx,
      scan_team constraintNumb t team shared = Ok mx /\
      most_negative_on (cell t constraintNumb) (concat team ++ done) mx.
Proof.
  intros Hwf. induction team as [|js team IH]; intros done shared Hjs Hshared.
  - exists shared. split; [reflexivity|assumption].
  - cbn [scan_team].
    destruct (scan_thread_most_negative constraintNumb colNumb t Hwf js []
                Compare_Max.init) as (priv & Hrun & Hpriv).
    + intros j Hj. apply Hjs. simpl. apply elem_of_app. now left.
    + apply most_negative_on_init.
    + rewrite Hrun. cbn [bind]. simpl in Hpriv.
      destruct (IH (js ++ done) (maximo priv shared)) as (mx & Hteam & Hmx).
      * intros j Hj. apply Hjs. simpl. apply elem_of_app. now right.
      * now apply most_negative_on_maximo.
      * exists mx. split; [assumption|].
        eapply most_negative_on_same; [|exact Hmx].
        intros j. simpl. rewrite !elem_of_app. tauto.
Qed.

Lemma initial_scan_team_spec
    (constraintNumb colNumb : Z) (t : matrix) (team : list (list Z)) :
  well_formed constraintNumb colNumb t ->
  concat team ≡ₚ seqZ 0 (colNumb + 1) ->
  exists s,
    initial_scan_team constraintNumb team (enter t) = Ok s /\
    St.tableau s = t /\
    Compare_Max.val (St.max s) = 0%Qc /\
    entering (cell t constraintNumb) (colNumb + 1) (-1) (Compare_Max.index (St.max s)).
Proof.
  intros Hwf Hteam.
  assert (Hin : forall j, j ∈ concat team <-> 0 <= j < colNumb + 1).
  { intros j. rewrite Hteam, elem_of_seqZ. lia. }
  destruct (scan_team_most_negative constraintNumb colNumb t Hwf team []
              Compare_Max.init) as (mx & Hrun & Hmx).
  - intros j Hj. apply Hin in Hj. lia.
  - apply most_negative_on_init.
  - unfold initial_scan_team. simpl. rewrite Hrun. cbn [bind].
    eexists. split; [reflexivity|]. simpl. repeat split.
    rewrite app_nil_r in Hmx.
    destruct Hmx as [(Hi & Hv & Hall)|(Hi & Hneg & Hv & Hall)].
    + left. split; [assumption|]. intros j Hj. apply Hall. now apply Hin.
    + right. split; [now apply Hin|]. split; [assumption|].
      intros j Hj. apply Hall. now apply Hin.
Qed.

(** X20. The first search is right for every team and every schedule.
    Whatever the number of threads, whichever iterations of the
    loop of line 295 each of them runs and in whatever order they combine
    their private copies, the search ends without a fault and leaves in
    [max.index] a column where the objective row, its last entry included,
    has its most negative value, or -1 when no entry is negative; the
    tableau is left as it was.  Columns that tie for that value are the
    only freedom the schedule has. *)
Theorem X20_first_search_for_any_team
    (constraintNumb colNumb : Z) (t : matrix) (team : list (list Z)) :
  well_formed constraintNumb colNumb t ->
  concat team ≡ₚ seqZ 0 (colNumb + 1) ->
  exists s,
    initial_scan_team constraintNumb team (enter t) = Ok s /\
    St.tableau s = t /\
    Compare_Max.val (St.max s) = 0%Qc /\
    entering (cell t constraintNumb) (colNumb + 1) (-1) (Compare_Max.index (St.max s)).
Proof. apply initial_scan_team_spec. Qed.

Lemma X20_witness :
  exists s,
    initial_scan_team 3 [[3; 4; 5]; [0]; [1; 2]] (enter scenario_optimal) = Ok s /\
    St.tableau s = scenario_optimal /\
    Compare_Max.val (St.max s) = 0%Qc /\
    entering (cell scenario_optimal 3) (5 + 1) (-1) (Compare_Max.index (St.max s)).
Proof.
  apply (X20_first_search_for_any_team 3 5 scenario_optimal [[3; 4; 5]; [0]; [1; 2]]).
  - unfold well_formed. simpl. repeat split; try lia. repeat constructor.
  - apply (Permutation_app_comm [3; 4; 5] [0; 1; 2]).
Defined.

(** ** The ratio test with several threads *)

Lemma least_ratio_on_same colNumb t c rows rows' acc :
  rows ≡ₚ rows' ->
  least_ratio_on colNumb t c rows acc -> least_ratio_on colNumb t c rows' acc.
Proof.
  intros Hp [(Hv & Hcnt & Hall)|(Hi & Hpos & Hv & Hcnt & Hall)].
  - left. rewrite <- Hp. repeat split; try assumption.
    intros i Hi. apply Hall. now rewrite Hp.
  - right. rewrite <- Hp. repeat split; try assumption; try lia.
    intros i Hi0. apply Hall. now rewrite Hp.
Qed.

Lemma ratio_body_on constraintNumb colNumb t c rows k acc :
  well_formed constraintNumb colNumb t ->
  0 <= c <= colNumb -> 0 <= k < constraintNumb ->
  least_ratio_on colNumb t c rows acc ->
  exists acc',
    ratio_body colNumb t c k acc = Ok acc' /\
    least_ratio_on colNumb t c (rows ++ [k]) acc'.
Proof.
  intros Hwf Hc Hk Hacc. destruct acc as [mn cnt]. unfold ratio_body.
  rewrite (rd_in_bounds constraintNumb colNumb) by (try assumption; lia). simpl.
  assert (Hlast : k ∈ rows ++ [k])
    by (apply elem_of_app; right; now apply list_elem_of_singleton).
  assert (Hlen : Z.of_nat (length (rows ++ [k])) = Z.of_nat (length rows) + 1)
    by (rewrite length_app; simpl; lia).
  case_bool_decide as Ha.
  - rewrite (rd_in_bounds constraintNumb colNumb) by (try assumption; destruct Hwf; lia).
    simpl. fold (ratio colNumb t c k).
    destruct Hacc as [(Hv & Hcnt & Hall)|(Hi & Hpos & Hv & Hcnt & Hall)];
      simpl in *; rewrite Hv; simpl.
    + eexists. split; [reflexivity|]. right. simpl.
      repeat split; try lia; try assumption.
      intros i Hi' Hpi. apply elem_of_app in Hi' as [Hi'|Hi'].
      * exfalso. apply (Qclt_not_le _ _ Hpi). now apply Hall.
      * apply list_elem_of_singleton in Hi' as ->. apply Qcle_refl.
    + case_bool_decide as Hlt; eexists; (split; [reflexivity|]); right; simpl.
      * repeat split; try lia; try assumption.
        intros i Hi' Hpi. apply elem_of_app in Hi' as [Hi'|Hi'].
        -- apply Qclt_le_weak. eapply Qclt_le_trans; [exact Hlt|]. now apply Hall.
        -- apply list_elem_of_singleton in Hi' as ->. apply Qcle_refl.
      * repeat split; try lia; try assumption; [apply elem_of_app; now left|].
        intros i Hi' Hpi. apply elem_of_app in Hi' as [Hi'|Hi'].
        -- now apply Hall.
        -- apply list_elem_of_singleton in Hi' as ->. now apply Qcnot_lt_le.
  - apply Qcnot_lt_le in Ha.
    destruct Hacc as [(Hv & Hcnt & Hall)|(Hi & Hpos & Hv & Hcnt & Hall)];
      simpl in *; eexists; (split; [reflexivity|]).
    + left. simpl. repeat split; try lia; try assumption.
      intros i Hi'. apply elem_of_app in Hi' as [Hi'|Hi']; [now apply Hall|].
      now apply list_elem_of_singleton in Hi' as ->.
    + right. simpl. repeat split; try lia; try assumption; [apply elem_of_app; now left|].
      intros i Hi' Hpi. apply elem_of_app in Hi' as [Hi'|Hi']; [now apply Hall|].
      apply list_elem_of_singleton in Hi' as ->.
      exfalso. now apply (Qclt_not_le _ _ Hpi).
Qed.

Lemma least_ratio_on_minimo colNumb t c rows1 rows2 a b :
  least_ratio_on colNumb t c rows1 a -> least_ratio_on colNumb t c rows2 b ->
  least_ratio_on colNumb t c (rows1 ++ rows2) (minimo (fst a) (fst b), snd b + snd a).
Proof.
  assert (Hlen : Z.of_nat (length (rows1 ++ rows2))
                 = Z.of_nat (length rows1) + Z.of_nat (length rows2))
    by (rewrite length_app; lia).
  intros [(Hv & Hcnt & Hall)|(Hi & Hpos & Hv & Hcnt & Hall)]
         [(Hv' & Hcnt' & Hall')|(Hi' & Hpos' & Hv' & Hcnt' & Hall')];
    unfold minimo; rewrite Hv, Hv'; simpl.
  - left. simpl. repeat split; try assumption; try lia.
    intros i Hi. apply elem_of_app in Hi as [Hi|Hi]; auto.
  - right. simpl. repeat split; try assumption; try lia; [apply elem_of_app; now right|].
    intros i Hi Hpi. apply elem_of_app in Hi as [Hi|Hi]; [|now apply Hall'].
    exfalso. apply (Qclt_not_le _ _ Hpi). now apply Hall.
  - right. simpl. repeat split; try assumption; try lia; [apply elem_of_app; now left|].
    intros i Hi' Hpi. apply elem_of_app in Hi' as [Hi'|Hi']; [now apply Hall|].
    exfalso. apply (Qclt_not_le _ _ Hpi). now apply Hall'.
  - case_bool_decide as Hlt; right; simpl.
    + repeat split; try assumption; try lia; [apply elem_of_app; now left|].
      intros i Hi0 Hpi. apply elem_of_app in Hi0 as [Hi0|Hi0]; [now apply Hall|].
      apply Qclt_le_weak. eapply Qclt_le_trans; [exact Hlt|]. now apply Hall'.
    + repeat split; try assumption; try lia; [apply elem_of_app; now right|].
      intros i Hi0 Hpi. apply elem_of_app in Hi0 as [Hi0|Hi0]; [|now apply Hall'].
      apply Qcnot_lt_le in Hlt. eapply Qcle_trans; [exact Hlt|]. now apply Hall.
Qed.

Lemma ratio_thread_least constraintNumb colNumb t c :
  well_formed constraintNumb colNumb t -> 0 <= c <= colNumb ->
  forall rows done priv,
    (forall i, i ∈ rows -> 0 <= i < constraintNumb) ->
    least_ratio_on colNumb t c done priv ->
    exists priv',
      ratio_thread colNumb t c rows priv = Ok priv' /\
      least_ratio_on colNumb t c (done ++ rows) priv'.
Proof.
  intros Hwf Hc. induction rows as [|i rows IH]; intros done priv Hrows Hpriv.
  - exists priv. split; [reflexivity|]. now rewrite app_nil_r.
  - cbn [ratio_thread].
    destruct (ratio_body_on constraintNumb colNumb t c done i priv Hwf Hc)
      as (priv1 & Hbody & Hpriv1); [apply Hrows; left|assumption|].
    rewrite Hbody. cbn [bind].
    destruct (IH (done ++ [i]) priv1) as (priv' & Hrun & Hres).
    + intros k Hk. apply Hrows. now right.
    + assumption.
    + exists priv'. split; [assumption|]. now rewrite <- app_assoc in Hres.
Qed.

Lemma ratio_team_least constraintNumb colNumb t c :
  well_formed constraintNumb colNumb t -> 0 <= c <= colNumb ->
  forall team done shared,
    (forall i, i ∈ concat team -> 0 <= i < constraintNumb) ->
    least_ratio_on colNumb t c done shared ->
    exists r,
      ratio_team colNumb t c team shared = Ok r /\
      least_ratio_on colNumb t c (concat team ++ done) r.
Proof.
  intros Hwf Hc. induction team as [|rows team IH]; intros done shared Hrows Hshared.
  - exists shared. split; [reflexivity|assumption].
  - cbn [ratio_team].
    destruct (ratio_thread_least constraintNumb colNumb t c Hwf Hc rows []
                (Compare_Min.init, 0)) as (priv & Hrun & Hpriv).
    + intros i Hi. apply Hrows. simpl. apply elem_of_app. now left.
    + left. simpl. repeat split. intros i Hi. inversion Hi.
    + rewrite Hrun. cbn [bind]. simpl in Hpriv.
      destruct (IH (rows ++ done) (minimo (fst priv) (fst shared), snd shared + snd priv))
        as (r & Hteam & Hr).
      * intros i Hi. apply Hrows. simpl. apply elem_of_app. now right.
      * now apply least_ratio_on_minimo.
      * exists r. split; [assumption|].
        eapply least_ratio_on_same; [|exact Hr].
        simpl. rewrite <- !app_assoc. rewrite (Permutation_app_comm (concat team)).
        rewrite <- !app_assoc. apply Permutation_app_head. apply Permutation_app_comm.
Qed.

Lemma ratio_test_team_spec
    (constraintNumb colNumb : Z) (s : St.t) (team : list (list Z)) :
  well_formed constraintNumb colNumb (St.tableau s) ->
  0 <= Compare_Max.index (St.max s) <= colNumb ->
  St.count s = 0 -> Compare_Min.val (St.min s) = HUGE_VAL ->
  concat team ≡ₚ seqZ 0 constraintNumb ->
  exists s',
    ratio_test_team colNumb team s = Ok s' /\
    St.tableau s' = St.tableau s /\ St.max s' = St.max s /\
    ((St.count s' = constraintNumb /\
      forall i, 0 <= i < constraintNumb ->
        (cell (St.tableau s) i (Compare_Max.index (St.max s)) <= 0)%Qc)
     \/
     (0 <= St.count s' < constraintNumb /\
      0 <= Compare_Min.index (St.min s') < constraintNumb /\
      (0 < cell (St.tableau s) (Compare_Min.index (St.min s'))
             (Compare_Max.index (St.max s)))%Qc /\
      Compare_Min.val (St.min s')
      = Num (ratio colNumb (St.tableau s) (Compare_Max.index (St.max s))
               (Compare_Min.index (St.min s'))) /\
      forall i, 0 <= i < constraintNumb ->
        (0 < cell (St.tableau s) i (Compare_Max.index (St.max s)))%Qc ->
        (ratio colNumb (St.tableau s) (Compare_Max.index (St.max s))
           (Compare_Min.index (St.min s'))
         <= ratio colNumb (St.tableau s) (Compare_Max.index (St.max s)) i)%Qc)).
Proof.
  intros Hwf Hc Hcount Hmin Hteam.
  assert (Hin : forall i, i ∈ concat team <-> 0 <= i < constraintNumb).
  { intros i. rewrite Hteam, elem_of_seqZ. lia. }
  assert (Hlen : Z.of_nat (length (concat team)) = constraintNumb).
  { rewrite Hteam, length_seqZ. destruct Hwf. lia. }
  destruct (ratio_team_least constraintNumb colNumb (St.tableau s)
              (Compare_Max.index (St.max s)) Hwf Hc team [] (St.min s, St.count s))
    as (r & Hrun & Hr).
  - intros i Hi. now apply Hin.
  - left. simpl. repeat split; try assumption. intros i Hi. inversion Hi.
  - unfold ratio_test_team. rewrite Hrun. cbn [bind].
    eexists. split; [reflexivity|]. simpl. split; [reflexivity|]. split; [reflexivity|].
    rewrite app_nil_r in Hr.
    destruct Hr as [(Hv & Hcnt & Hall)|(Hi & Hpos & Hv & Hcnt & Hall)].
    + left. split; [lia|]. intros i Hi. apply Hall. now apply Hin.
    + right. split; [lia|]. split; [now apply Hin|]. split; [assumption|].
      split; [assumption|]. intros i Hi0. apply Hall. now apply Hin.
Qed.

(** X21. The ratio test is right for every team and every schedule.
    Entered as every pass enters it ([count] 0 and [min.val]
    [HUGE_VAL]) with an entering column, it ends without a fault however the
    rows are given to the threads and in whatever order the threads combine
    their private copies; [count] is then [constraintNumb] exactly when no
    row is eligible, and otherwise [min.index] is an eligible row of least
    ratio and [min.val] that ratio.  Rows that tie for the least ratio are
    the only freedom the schedule has. *)
Theorem X21_ratio_test_for_any_team
    (constraintNumb colNumb : Z) (s : St.t) (team : list (list Z)) :
  well_formed constraintNumb colNumb (St.tableau s) ->
  0 <= Compare_Max.index (St.max s) <= colNumb ->
  St.count s = 0 -> Compare_Min.val (St.min s) = HUGE_VAL ->
  concat team ≡ₚ seqZ 0 constraintNumb ->
  exists s',
    ratio_test_team colNumb team s = Ok s' /\
    St.tableau s' = St.tableau s /\ St.max s' = St.max s /\
    ((St.count s' = constraintNumb /\
      forall i, 0 <= i < constraintNumb ->
        (cell (St.tableau s) i (Compare_Max.index (St.max s)) <= 0)%Qc)
     \/
     (0 <= St.count s' < constraintNumb /\
      0 <= Compare_Min.index (St.min s') < constraintNumb /\
      (0 < cell (St.tableau s) (Compare_Min.index (St.min s'))
             (Compare_Max.index (St.max s)))%Qc /\
      Compare_Min.val (St.min s')
      = Num (ratio colNumb (St.tableau s) (Compare_Max.index (St.max s))
               (Compare_Min.index (St.min s'))) /\
      forall i, 0 <= i < constraintNumb ->
        (0 < cell (St.tableau s) i (Compare_Max.index (St.max s)))%Qc ->
        (ratio colNumb (St.tableau s) (Compare_Max.index (St.max s))
           (Compare_Min.index (St.min s'))
         <= ratio colNumb (St.tableau s) (Compare_Max.index (St.max s)) i)%Qc)).
Proof. apply ratio_test_team_spec. Qed.

Lemma X21_witness :
  exists s',
    ratio_test_team 5 [[2]; [0; 1]] scenario_optimal_0 = Ok s' /\
    St.tableau s' = St.tableau scenario_optimal_0 /\
    St.max s' = St.max scenario_optimal_0 /\
    ((St.count s' = 3 /\
      forall i, 0 <= i < 3 ->
        (cell (St.tableau scenario_optimal_0) i
           (Compare_Max.index (St.max scenario_optimal_0)) <= 0)%Qc)
     \/
     (0 <= St.count s' < 3 /\
      0 <= Compare_Min.index (St.min s') < 3 /\
      (0 < cell (St.tableau scenario_optimal_0) (Compare_Min.index (St.min s'))
             (Compare_Max.index (St.max scenario_optimal_0)))%Qc /\
      Compare_Min.val (St.min s')
      = Num (ratio 5 (St.tableau scenario_optimal_0)
               (Compare_Max.index (St.max scenario_optimal_0))
               (Compare_Min.index (St.min s'))) /\
      forall i, 0 <= i < 3 ->
        (0 < cell (St.tableau scenario_optimal_0) i
               (Compare_Max.index (St.max scenario_optimal_0)))%Qc ->
        (ratio 5 (St.tableau scenario_optimal_0)
           (Compare_Max.index (St.max scenario_optimal_0))
           (Compare_Min.index (St.min s'))
         <= ratio 5 (St.tableau scenario_optimal_0)
              (Compare_Max.index (St.max scenario_optimal_0)) i)%Qc)).
Proof.
  apply (X21_ratio_test_for_any_team 3 5 scenario_optimal_0 [[2]; [0; 1]]).
  - unfold well_formed. simpl. repeat split; try lia. repeat constructor.
  - simpl. lia.
  - reflexivity.
  - reflexivity.
  - apply (Permutation_app_comm [2] [0; 1]).
Defined.

(** ** What the schedule decides *)

Lemma alone_is_a_schedule k n :
  0 <= k < n -> concat (alone k n) ≡ₚ seqZ 0 n.
Proof.
  intros Hk. unfold alone. simpl. rewrite app_nil_r.
  replace n with (k + (1 + (n - k - 1))) at 2 by lia.
  rewrite seqZ_app by lia. rewrite (seqZ_app (0 + k) 1 (n - k - 1)) by lia.
  change (seqZ (0 + k) 1) with ([0 + k]). simpl.
  replace (0 + k + 1) with (k + 1) by lia. replace (0 + k) with k by lia.
  apply Permutation_middle.
Qed.

Lemma alone_in_range k n j :
  0 <= k < n -> j ∈ seqZ 0 k ++ seqZ (k + 1) (n - k - 1) -> 0 <= j < n.
Proof.
  intros Hk Hj. apply elem_of_app in Hj as [Hj|Hj]; apply elem_of_seqZ in Hj; lia.
Qed.





(** ** The pivot with several threads *)

Section PivotTeam.
Variables constraintNumb colNumb : Z.
Local Abbreviation wf := (well_formed constraintNumb colNumb).

Lemma matrix_ext t1 t2 :
  wf t1 -> wf t2 ->
  (forall i j, 0 <= i <= constraintNumb -> 0 <= j <= colNumb ->
               cell t1 i j = cell t2 i j) ->
  t1 = t2.
Proof.
  intros (Hc & Hl & Hlen1 & Hrows1) (_ & _ & Hlen2 & Hrows2) Hcell.
  apply list_eq_same_length with (n := length t1); [lia|lia|].
  intros i r1 r2 Hi H1 H2.
  pose proof (Forall_lookup_1 _ _ _ _ Hrows1 H1) as Hr1.
  pose proof (Forall_lookup_1 _ _ _ _ Hrows2 H2) as Hr2. simpl in Hr1, Hr2.
  apply list_eq_same_length with (n := length r1); [lia|lia|].
  intros j x1 x2 Hj Hx1 Hx2.
  specialize (Hcell (Z.of_nat i) (Z.of_nat j) ltac:(lia) ltac:(lia)).
  unfold cell, rd in Hcell.
  replace (0 <=? Z.of_nat i) with true in Hcell by lia.
  replace (0 <=? Z.of_nat j) with true in Hcell by lia.
  simpl in Hcell. rewrite !Nat2Z.id, H1, H2, Hx1, Hx2 in Hcell. exact Hcell.
Qed.

Lemma not_done {A : Type} (done order : list A) (k : A) :
  NoDup (done ++ k :: order) -> k ∉ done.
Proof.
  intros Hnd Hk. apply list.NoDup_app in Hnd as (_ & Hdis & _).
  apply (Hdis k Hk). left.
Qed.

Lemma NoDup_next {A : Type} (done order : list A) (k : A) :
  NoDup (done ++ k :: order) -> NoDup ((done ++ [k]) ++ order).
Proof. now rewrite <- app_assoc. Qed.

(** lines 334-336, the iterations in any order *)
Lemma normalize_any t0 p pivot :
  0 <= p <= constraintNumb ->
  forall order done x,
    wf x -> NoDup (done ++ order) ->
    (forall j, j ∈ order -> 0 <= j <= colNumb) ->
    (forall i j, cell x i j =
                 if (i =? p) && bool_decide (j ∈ done)
                 then (cell t0 p j / pivot)%Qc else cell t0 i j) ->
    exists t',
      for_order order (normalize_body p pivot) x = Ok t' /\ wf t' /\
      forall i j, cell t' i j =
                  if (i =? p) && bool_decide (j ∈ done ++ order)
                  then (cell t0 p j / pivot)%Qc else cell t0 i j.
Proof.
  intros Hp. induction order as [|k order IH]; intros done x Hx Hnd Hrange Hc.
  - exists x. rewrite app_nil_r. auto.
  - cbn [for_order]. unfold normalize_body at 1.
    assert (Hk : 0 <= k <= colNumb) by (apply Hrange; left).
    pose proof (not_done _ _ _ Hnd) as Hnew.
    rewrite (rd_in_bounds constraintNumb colNumb) by (try assumption; lia). cbn [bind].
    destruct (wr_in_bounds constraintNumb colNumb x p k (cell x p k / pivot)%Qc)
      as (x' & Hw & Hx'); [assumption|lia|lia|].
    rewrite Hw. cbn [bind].
    destruct (IH (done ++ [k]) x' Hx' (NoDup_next _ _ _ Hnd)) as (t' & Hrun & Hwf' & Hc').
    + intros j Hj. apply Hrange. now right.
    + intros i j. rewrite (cell_wr _ _ _ _ _ i j Hw), !Hc.
      rewrite Z.eqb_refl. rewrite (bool_decide_eq_false_2 (k ∈ done)) by assumption.
      simpl.
      destruct (Z.eqb_spec i p) as [->|Hip]; simpl; [|reflexivity].
      destruct (Z.eqb_spec j k) as [->|Hjk].
      * rewrite bool_decide_eq_true_2; [reflexivity|].
        apply elem_of_app. right. now apply list_elem_of_singleton.
      * rewrite (bool_decide_ext (j ∈ done ++ [k]) (j ∈ done)); [reflexivity|].
        rewrite elem_of_app, list_elem_of_singleton. tauto.
    + exists t'. split; [assumption|]. split; [assumption|].
      intros i j. rewrite Hc'. now rewrite <- app_assoc.
Qed.

(** lines 339-347, the rows in any order *)
Lemma eliminate_any t0 p c :
  0 <= p <= constraintNumb -> 0 <= c <= colNumb ->
  forall order done x,
    wf x -> NoDup (done ++ order) ->
    (forall i, i ∈ order -> 0 <= i < constraintNumb) ->
    (forall i j, cell x i j =
                 if bool_decide (i ∈ done) && negb (i =? p)
                    && (0 <=? j) && (j <=? colNumb)
                 then (- cell t0 i c * cell t0 p j + cell t0 i j)%Qc
                 else cell t0 i j) ->
    exists t',
      for_order order (eliminate_body colNumb p c) x = Ok t' /\ wf t' /\
      forall i j, cell t' i j =
                  if bool_decide (i ∈ done ++ order) && negb (i =? p)
                     && (0 <=? j) && (j <=? colNumb)
                  then (- cell t0 i c * cell t0 p j + cell t0 i j)%Qc
                  else cell t0 i j.
Proof.
  intros Hp Hcol. induction order as [|k order IH]; intros done x Hx Hnd Hrange Hc.
  - exists x. rewrite app_nil_r. auto.
  - cbn [for_order].
    assert (Hk : 0 <= k < constraintNumb) by (apply Hrange; left).
    pose proof (not_done _ _ _ Hnd) as Hnew.
    assert (Hstep : exists x',
              eliminate_body colNumb p c k x = Ok x' /\ wf x' /\
              forall i j, cell x' i j =
                          if bool_decide (i ∈ done ++ [k]) && negb (i =? p)
                             && (0 <=? j) && (j <=? colNumb)
                          then (- cell t0 i c * cell t0 p j + cell t0 i j)%Qc
                          else cell t0 i j).
    { unfold eliminate_body. destruct (Z.eqb_spec k p) as [->|Hkp]; simpl.
      - exists x. split; [reflexivity|]. split; [assumption|].
        intros i j. rewrite Hc. destruct (Z.eqb_spec i p) as [->|Hip].
        + now rewrite !andb_false_r.
        + rewrite (bool_decide_ext (i ∈ done ++ [p]) (i ∈ done)); [reflexivity|].
          rewrite elem_of_app, list_elem_of_singleton. tauto.
      - rewrite (rd_in_bounds constraintNumb colNumb) by (try assumption; lia). simpl.
        destruct (eliminate_row_loop constraintNumb colNumb x p (- cell x k c)%Qc k)
          as (x' & Hl & Hx' & Hc'); try assumption; try lia.
        exists x'. split; [assumption|]. split; [assumption|].
        assert (Hrowk : forall j, cell x k j = cell t0 k j).
        { intros j. rewrite Hc. now rewrite (bool_decide_eq_false_2 (k ∈ done)) by assumption. }
        assert (Hrowp : forall j, cell x p j = cell t0 p j).
        { intros j. rewrite Hc. rewrite Z.eqb_refl. now rewrite andb_false_r. }
        intros i j. rewrite Hc', !Hrowk, Hrowp.
        destruct (Z.eqb_spec i k) as [->|Hik]; simpl.
        + rewrite (bool_decide_eq_true_2 (k ∈ done ++ [k]))
            by (apply elem_of_app; right; now apply list_elem_of_singleton).
          replace (k =? p) with false by lia. rewrite Hrowk. reflexivity.
        + rewrite Hc.
          rewrite (bool_decide_ext (i ∈ done ++ [k]) (i ∈ done)); [reflexivity|].
          rewrite elem_of_app, list_elem_of_singleton. tauto. }
    destruct Hstep as (x' & Hbody & Hx' & Hc').
    rewrite Hbody. cbn [bind].
    destruct (IH (done ++ [k]) x' Hx' (NoDup_next _ _ _ Hnd)) as (t' & Hrun & Hwf' & Hc'').
    + intros i Hi. apply Hrange. now right.
    + assumption.
    + exists t'. split; [assumption|]. split; [assumption|].
      intros i j. rewrite Hc''. now rewrite <- app_assoc.
Qed.

(** lines 350-359, the iterations of one thread *)
Lemma objective_thread t0 p pivot3 :
  0 <= p < constraintNumb ->
  let g := fun j => (pivot3 * cell t0 p j + cell t0 constraintNumb j)%Qc in
  forall js done x cnt mx scanned,
    wf x -> NoDup (done ++ js) ->
    (forall j, j ∈ js -> 0 <= j <= colNumb) ->
    (forall i j, cell x i j =
                 if (i =? constraintNumb) && bool_decide (j ∈ done)
                 then g j else cell t0 i j) ->
    most_negative_on g scanned mx ->
    exists t' mx',
      for_order js (objective_body constraintNumb colNumb p pivot3) (x, cnt, mx)
      = Ok (t', cnt + count_neg_on g colNumb js, mx') /\
      wf t' /\
      (forall i j, cell t' i j =
                   if (i =? constraintNumb) && bool_decide (j ∈ done ++ js)
                   then g j else cell t0 i j) /\
      most_negative_on g (scanned ++ filter (fun j => j < colNumb) js) mx'.
Proof.
  intros Hp g. induction js as [|k js IH]; intros done x cnt mx scanned Hx Hnd Hrange Hc Hmx.
  - exists x, mx. simpl. rewrite Z.add_0_r, !app_nil_r. auto.
  - cbn [for_order].
    assert (Hk : 0 <= k <= colNumb) by (apply Hrange; left).
    pose proof (not_done _ _ _ Hnd) as Hnew.
    assert (Hpk : cell x p k = cell t0 p k).
    { rewrite Hc. replace (p =? constraintNumb) with false by lia. reflexivity. }
    assert (Hok : cell x constraintNumb k = cell t0 constraintNumb k).
    { rewrite Hc. rewrite (bool_decide_eq_false_2 (k ∈ done)) by assumption.
      now rewrite andb_false_r. }
    destruct (wr_in_bounds constraintNumb colNumb x constraintNumb k (g k))
      as (x' & Hw & Hx'); [assumption|destruct Hx; lia|lia|].
    assert (Hc' : forall i j, cell x' i j =
                   if (i =? constraintNumb) && bool_decide (j ∈ done ++ [k])
                   then g j else cell t0 i j).
    { intros i j. rewrite (cell_wr _ _ _ _ _ i j Hw), Hc.
      destruct (Z.eqb_spec i constraintNumb) as [->|Hi]; simpl; [|reflexivity].
      destruct (Z.eqb_spec j k) as [->|Hjk].
      - rewrite bool_decide_eq_true_2; [reflexivity|].
        apply elem_of_app. right. now apply list_elem_of_singleton.
      - rewrite (bool_decide_ext (j ∈ done ++ [k]) (j ∈ done)); [reflexivity|].
        rewrite elem_of_app, list_elem_of_singleton. tauto. }
    assert (Hbody : objective_body constraintNumb colNumb p pivot3 k (x, cnt, mx)
                    = Ok (x', cnt + (if (k <? colNumb) && bool_decide (g k < 0)%Qc
                                     then 1 else 0),
                          if k <? colNumb then scan_step (g k) k mx else mx)).
    { unfold objective_body, eliminate_cell.
      rewrite !(rd_in_bounds constraintNumb colNumb) by (try assumption; destruct Hx; lia).
      cbn [bind]. rewrite Hpk, Hok. fold (g k). rewrite Hw. cbn [bind].
      rewrite (rd_in_bounds constraintNumb colNumb) by (try assumption; destruct Hx; lia).
      cbn [bind]. rewrite (cell_wr _ _ _ _ _ constraintNumb k Hw), !Z.eqb_refl. simpl.
      unfold scan_step.
      destruct (k <? colNumb); simpl; [|now rewrite Z.add_0_r].
      case_bool_decide; simpl; [|now rewrite Z.add_0_r].
      now case_bool_decide. }
    rewrite Hbody. cbn [bind].
    destruct (Z.ltb_spec k colNumb) as [Hlt|Hge].
    + destruct (IH (done ++ [k]) x'
                  (cnt + (if true && bool_decide (g k < 0)%Qc then 1 else 0))
                  (scan_step (g k) k mx) (scanned ++ [k]) Hx' (NoDup_next _ _ _ Hnd))
        as (t' & mx' & Hrun & Hwf' & Hcell & Hmx').
      * intros j Hj. apply Hrange. now right.
      * assumption.
      * now apply most_negative_on_step.
      * exists t', mx'. rewrite Hrun. split; [|split; [assumption|split]].
        -- f_equal. f_equal. f_equal. cbn [count_neg_on].
           replace (k <? colNumb) with true by lia. lia.
        -- intros i j. rewrite Hcell. now rewrite <- app_assoc.
        -- rewrite filter_cons_True by assumption.
           now rewrite <- app_assoc in Hmx'.
    + destruct (IH (done ++ [k]) x'
                  (cnt + (if false && bool_decide (g k < 0)%Qc then 1 else 0))
                  mx scanned Hx' (NoDup_next _ _ _ Hnd))
        as (t' & mx' & Hrun & Hwf' & Hcell & Hmx').
      * intros j Hj. apply Hrange. now right.
      * assumption.
      * assumption.
      * exists t', mx'. rewrite Hrun. split; [|split; [assumption|split]].
        -- f_equal. f_equal. f_equal. cbn [count_neg_on].
           replace (k <? colNumb) with false by lia. simpl. lia.
        -- intros i j. rewrite Hcell. now rewrite <- app_assoc.
        -- rewrite filter_cons_False by lia. assumption.
Qed.

Lemma entering_on_maximo f js1 js2 keep priv shared :
  most_negative_on f js1 priv -> entering_on f js2 keep shared ->
  entering_on f (js2 ++ js1) keep (maximo priv shared).
Proof.
  intros [(Hi & Hv & Hall)|(Hi & Hneg & Hv & Hall)]
         [(Hi' & Hv' & Hall')|(Hi' & Hneg' & Hv' & Hall')];
    unfold maximo; rewrite Hv, Hv'.
  - case_bool_decide as H0; [inversion H0|]. left. repeat split; try assumption.
    intros j Hj. apply elem_of_app in Hj as [Hj|Hj]; auto.
  - case_bool_decide as H0; [exfalso; clear -H0 Hneg'; qc_lra|].
    right. repeat split; try assumption; [apply elem_of_app; now left|].
    intros j Hj. apply elem_of_app in Hj as [Hj|Hj]; [now apply Hall'|].
    assert (0 <= f j)%Qc by now apply Hall. clear -H Hneg'. qc_lra.
  - case_bool_decide as H0; [|exfalso; apply H0; clear -Hneg; qc_lra].
    right. repeat split; try assumption; [apply elem_of_app; now right|].
    intros j Hj. apply elem_of_app in Hj as [Hj|Hj]; [|now apply Hall].
    assert (0 <= f j)%Qc by now apply Hall'. clear -H Hneg. qc_lra.
  - case_bool_decide as H0.
    + right. repeat split; try assumption; [apply elem_of_app; now right|].
      intros j Hj. apply elem_of_app in Hj as [Hj|Hj]; [|now apply Hall].
      assert (f (Compare_Max.index shared) <= f j)%Qc by now apply Hall'.
      clear -H H0. qc_lra.
    + right. repeat split; try assumption; [apply elem_of_app; now left|].
      intros j Hj. apply elem_of_app in Hj as [Hj|Hj]; [now apply Hall'|].
      assert (f (Compare_Max.index priv) <= f j)%Qc by now apply Hall.
      apply Qcnot_lt_le in H0. clear -H H0. qc_lra.
Qed.

Lemma count_neg_on_app f n js1 js2 :
  count_neg_on f n (js1 ++ js2) = count_neg_on f n js1 + count_neg_on f n js2.
Proof. induction js1 as [|j js1 IH]; simpl; [reflexivity|]. rewrite IH. lia. Qed.

Lemma count_neg_on_perm f n js1 js2 :
  js1 ≡ₚ js2 -> count_neg_on f n js1 = count_neg_on f n js2.
Proof. induction 1; simpl; lia. Qed.

Lemma count_neg_on_range f n : forall m : nat,
  Z.of_nat m <= n ->
  count_neg_on f n (seqZ 0 (Z.of_nat m)) = count_neg f m.
Proof.
  induction m as [|m IH]; intros Hm; [reflexivity|].
  replace (Z.of_nat (S m)) with (Z.of_nat m + 1) by lia.
  rewrite seqZ_app by lia. rewrite count_neg_on_app, IH by lia.
  change (seqZ (0 + Z.of_nat m) 1) with [0 + Z.of_nat m].
  rewrite Z.add_0_l. simpl.
  replace (Z.of_nat m <? n) with true by lia. simpl. case_bool_decide; lia.
Qed.

Lemma count_neg_on_all f n js :
  0 <= n -> js ≡ₚ seqZ 0 (n + 1) ->
  count_neg_on f n js = count_neg f (Z.to_nat n).
Proof.
  intros Hn Hjs. rewrite (count_neg_on_perm f n _ _ Hjs).
  rewrite seqZ_app by lia. rewrite count_neg_on_app.
  change (seqZ (0 + n) 1) with [0 + n]. rewrite Z.add_0_l. simpl.
  replace (n <? n) with false by lia. simpl.
  rewrite <- (Z2Nat.id n) at 2 by lia. rewrite count_neg_on_range by lia. lia.
Qed.

(** lines 349-359, the threads one after the other *)
Lemma objective_team_spec t0 p pivot3 keep :
  0 <= p < constraintNumb ->
  let g := fun j => (pivot3 * cell t0 p j + cell t0 constraintNumb j)%Qc in
  forall team done x conta shared scanned,
    wf x -> NoDup (done ++ concat team) ->
    (forall j, j ∈ concat team -> 0 <= j <= colNumb) ->
    (forall i j, cell x i j =
                 if (i =? constraintNumb) && bool_decide (j ∈ done)
                 then g j else cell t0 i j) ->
    entering_on g scanned keep shared ->
    exists t' mx',
      objective_team constraintNumb colNumb p pivot3 team (x, conta, shared)
      = Ok (t', conta + count_neg_on g colNumb (concat team), mx') /\
      wf t' /\
      (forall i j, cell t' i j =
                   if (i =? constraintNumb) && bool_decide (j ∈ done ++ concat team)
                   then g j else cell t0 i j) /\
      entering_on g (scanned ++ filter (fun j => j < colNumb) (concat team)) keep mx'.
Proof.
  intros Hp g. induction team as [|js team IH];
    intros done x conta shared scanned Hx Hnd Hrange Hc Hshared.
  - exists x, shared. simpl. rewrite Z.add_0_r, !app_nil_r. auto.
  - cbn [objective_team]. simpl concat in *.
    destruct (objective_thread t0 p pivot3 Hp js done x 0 Compare_Max.init [])
      as (x1 & priv & Hrun & Hx1 & Hc1 & Hpriv); try assumption.
    + rewrite app_assoc in Hnd. now apply list.NoDup_app in Hnd as (Hnd & _).
    + intros j Hj. apply Hrange. apply elem_of_app. now left.
    + apply most_negative_on_init.
    + fold g in Hrun, Hc1, Hpriv. rewrite Hrun. cbn [bind]. simpl in Hpriv.
      destruct (IH (done ++ js) x1 (conta + (0 + count_neg_on g colNumb js))
                  (maximo priv shared)
                  (scanned ++ filter (fun j => j < colNumb) js))
        as (t' & mx' & Hteam & Hwf' & Hcell & Hmx'); try assumption.
      * now rewrite <- app_assoc.
      * intros j Hj. apply Hrange. apply elem_of_app. now right.
      * now apply entering_on_maximo.
      * exists t', mx'. rewrite Hteam. split; [|split; [assumption|split]].
        -- f_equal. f_equal. f_equal. rewrite count_neg_on_app. lia.
        -- intros i j. rewrite Hcell. now rewrite <- app_assoc.
        -- rewrite list.filter_app. now rewrite <- app_assoc in Hmx'.
Qed.

(** lines 329-366 for a team, from a state in which [max.val] has been
    reset: what [pivoting_spec] says of one thread *)
Lemma pivoting_team_spec sch s :
  let t := St.tableau s in
  let p := Compare_Min.index (St.min s) in
  let c := Compare_Max.index (St.max s) in
  wf t -> 0 <= p < constraintNumb -> 0 <= c <= colNumb ->
  complete constraintNumb colNumb sch ->
  Compare_Max.val (St.max s) = 0%Qc ->
  exists t' idx,
    pivoting_team constraintNumb colNumb sch s
    = Ok (St.make t' (Compare_Max.make 0%Qc idx) (Compare_Min.make HUGE_VAL p)
            (St.count s)
            (St.conta s + count_neg (cell t' constraintNumb) (Z.to_nat colNumb))
            (St.ni s + 1)) /\
    wf t' /\
    (forall i j, 0 <= i <= constraintNumb -> 0 <= j <= colNumb ->
                 cell t' i j = pivoted t p c i j) /\
    entering (cell t' constraintNumb) colNumb c idx.
Proof.
  intros t p c Hwf Hp Hc (Hn & He & Ho) Hval. unfold pivoting_team. fold t p c.
  assert (Hcol : 0 <= colNumb) by (destruct Hwf; lia).
  rewrite !(rd_in_bounds constraintNumb colNumb) by (try assumption; lia). cbn [bind].
  assert (Hin1 : forall j, j ∈ Schedule.normalize sch <-> 0 <= j <= colNumb)
    by (intros j; rewrite Hn, elem_of_seqZ; lia).
  assert (Hin2 : forall i, i ∈ Schedule.eliminate sch <-> 0 <= i < constraintNumb)
    by (intros i; rewrite He, elem_of_seqZ; lia).
  assert (Hin3 : forall j, j ∈ concat (Schedule.objective sch) <-> 0 <= j <= colNumb)
    by (intros j; rewrite Ho, elem_of_seqZ; lia).
  destruct (normalize_any t p (cell t p c) ltac:(lia) (Schedule.normalize sch) [] t)
    as (t1 & H1 & Hwf1 & Hc1); try assumption.
  { simpl. rewrite Hn. apply NoDup_seqZ. }
  { intros j Hj. now apply Hin1. }
  { intros i j. now rewrite andb_false_r. }
  rewrite H1. cbn [bind]. simpl in Hc1.
  destruct (eliminate_any t1 p c ltac:(lia) Hc (Schedule.eliminate sch) [] t1)
    as (t2 & H2 & Hwf2 & Hc2); try assumption.
  { simpl. rewrite He. apply NoDup_seqZ. }
  { intros i Hi. now apply Hin2. }
  { intros i j. reflexivity. }
  rewrite H2. cbn [bind]. simpl in Hc2.
  destruct (objective_team_spec t2 p (- cell t constraintNumb c)%Qc c Hp
              (Schedule.objective sch) [] t2 (St.conta s) (St.max s) [])
    as (t3 & mx & H3 & Hwf3 & Hc3 & Hmx); try assumption.
  { simpl. rewrite Ho. apply NoDup_seqZ. }
  { intros j Hj. now apply Hin3. }
  { intros i j. now rewrite andb_false_r. }
  { left. repeat split; try assumption. intros j Hj. inversion Hj. }
  rewrite H3. cbn [bind]. simpl in Hc3, Hmx.
  assert (Hrow : forall j, 0 <= j <= colNumb ->
            cell t3 constraintNumb j
            = (- cell t constraintNumb c * cell t2 p j + cell t2 constraintNumb j)%Qc).
  { intros j Hj. rewrite Hc3, Z.eqb_refl.
    rewrite bool_decide_eq_true_2 by now apply Hin3. reflexivity. }
  exists t3, (Compare_Max.index mx). split; [|split; [assumption|split]].
  - f_equal. f_equal.
    rewrite (count_neg_on_all _ colNumb _ Hcol Ho).
    f_equal. apply count_neg_ext. intros j Hj. rewrite Hrow by lia. reflexivity.
  - intros i j Hi Hj. unfold pivoted. rewrite Hc3, !Hc2, !Hc1.
    rewrite !(bool_decide_eq_true_2 (j ∈ _)) by (apply Hin1 || apply Hin3; lia).
    rewrite (bool_decide_eq_true_2 (c ∈ _)) by (apply Hin1; lia).
    destruct (decide (i ∈ Schedule.eliminate sch)) as [Hi2|Hi2].
    + rewrite (bool_decide_eq_true_2 _ Hi2). apply Hin2 in Hi2.
      rewrite (bool_decide_eq_false_2 (constraintNumb ∈ Schedule.eliminate sch))
        by (rewrite Hin2; lia).
      rewrite (bool_decide_eq_true_2 (p ∈ Schedule.eliminate sch)) by (apply Hin2; lia).
      rewrite !andb_true_r. simpl. zbool.
    + rewrite (bool_decide_eq_false_2 _ Hi2). rewrite Hin2 in Hi2.
      assert (Hic : i = constraintNumb) by lia. rewrite Hic.
      rewrite (bool_decide_eq_false_2 (constraintNumb ∈ Schedule.eliminate sch))
        by (rewrite Hin2; lia).
      rewrite (bool_decide_eq_true_2 (p ∈ Schedule.eliminate sch)) by (apply Hin2; lia).
      rewrite !andb_true_r. simpl. zbool.
  - destruct Hmx as [(Hi & Hv & Hall)|(Hi & Hneg & Hv & Hall)].
    + left. split; [assumption|]. intros j Hj. rewrite Hrow by lia.
      apply Hall. apply list_elem_of_filter. split; [lia|]. apply Hin3. lia.
    + apply list_elem_of_filter in Hi as [Hlt Hi]. apply Hin3 in Hi.
      right. split; [lia|]. rewrite Hrow by lia. split; [assumption|].
      intros j Hj. rewrite Hrow by lia.
      apply Hall. apply list_elem_of_filter. split; [lia|]. apply Hin3. lia.
Qed.
End PivotTeam.



(** ** The run with several threads *)

Lemma entering_unique f n keep i1 i2 :
  no_tied_columns f n ->
  entering f n keep i1 -> entering f n keep i2 -> i1 = i2.
Proof.
  intros Hties [(H1 & Hall1)|(Hi1 & Hneg1 & Hmin1)] [(H2 & Hall2)|(Hi2 & Hneg2 & Hmin2)].
  - congruence.
  - exfalso. apply (Qclt_not_le _ _ Hneg2). now apply Hall1.
  - exfalso. apply (Qclt_not_le _ _ Hneg1). now apply Hall2.
  - apply Hties; try assumption. apply Qcle_antisym; auto.
Qed.

Section RunTeam.
Variables constraintNumb colNumb : Z.
Local Abbreviation wf := (well_formed constraintNumb colNumb).

Lemma ratio_test_team_fields team s s1 :
  ratio_test_team colNumb team s = Ok s1 ->
  St.conta s1 = St.conta s /\ St.ni s1 = St.ni s.
Proof.
  unfold ratio_test_team. intros H.
  destruct (ratio_team _ _ _ _ _) as [r| |]; try discriminate.
  injection H as <-. now split.
Qed.

(** a pass of a team is the pass of one thread, when they meet no tie *)
Lemma iteration_team_same sch s :
  loop_top constraintNumb colNumb s ->
  0 <= Compare_Max.index (St.max s) <= colNumb ->
  complete_pass constraintNumb colNumb sch ->
  no_tied_rows constraintNumb colNumb (St.tableau s) (Compare_Max.index (St.max s)) ->
  (forall s', iteration constraintNumb colNumb s = Ok s' ->
              no_tied_columns (cell (St.tableau s') constraintNumb) colNumb) ->
  iteration_team constraintNumb colNumb sch s = iteration constraintNumb colNumb s.
Proof.
  intros Htop Hc (Hr & Hpv) Hrows Hcols.
  pose proof Htop as (Hwf & Hcount & Hmax & Hmin).
  destruct (ratio_test_team_spec constraintNumb colNumb s (Pass.ratio sch)
              Hwf Hc Hcount Hmin Hr) as (s1 & Hrun & Ht1 & Hm1 & Hres).
  destruct (ratio_test_team_fields _ _ _ Hrun) as (Hconta1 & Hni1).
  unfold iteration_team. rewrite Hrun. cbn [bind].
  destruct (iteration_spec constraintNumb colNumb s Htop Hc)
    as [(Hall & Hex)|(p & t' & idx & Hp & Hpos & Hleast & Hit & Hwf' & Hcell & Hent)].
  - rewrite Hex. destruct Hres as [(Hcnt & _)|(Hcnt & Hi & Hpos' & _)].
    + unfold check_unbounded. now rewrite Hcnt, Z.eqb_refl.
    + exfalso. apply (Qclt_not_le _ _ Hpos'). now apply Hall.
  - rewrite Hit. destruct Hres as [(Hcnt & Hall)|(Hcnt & Hi & Hpos' & Hv & Hleast')].
    + exfalso. apply (Qclt_not_le _ _ Hpos). now apply Hall.
    + assert (Hpp : Compare_Min.index (St.min s1) = p).
      { apply Hrows; try assumption. apply Qcle_antisym; auto. }
      unfold check_unbounded. replace (St.count s1 =? constraintNumb) with false by lia.
      cbn [bind].
      destruct (pivoting_team_spec constraintNumb colNumb (Pass.pivot sch)
                  (St.make (St.tableau s1) (St.max s1) (St.min s1) 0 0 (St.ni s1)))
        as (t2 & idx2 & Hrun2 & Hwf2 & Hcell2 & Hent2);
        cbn [St.tableau St.max St.min]; rewrite ?Ht1, ?Hm1, ?Hpp; try assumption.
      cbn [St.tableau St.max St.min St.count St.conta St.ni] in Hrun2, Hcell2, Hent2.
      rewrite Ht1, Hm1, Hpp in Hcell2. rewrite Hm1 in Hent2. rewrite Hpp, Hni1 in Hrun2.
      assert (Heq : t2 = t').
      { apply (matrix_ext constraintNumb colNumb); try assumption.
        intros i j Hi' Hj. now rewrite Hcell, Hcell2. }
      subst t2.
      assert (Hidx : idx2 = idx).
      { eapply entering_unique; [|exact Hent2|exact Hent].
        apply (Hcols _ Hit). }
      subst idx2. rewrite Ht1, Hm1 in Hrun2. rewrite Hni1, Hrun2.
      now rewrite Z.add_0_l.
Qed.

Lemma ratio_team_out t c : forall team shared,
  c < 0 -> concat team <> [] ->
  ratio_team colNumb t c team shared = Fault.
Proof.
  induction team as [|rows team IH]; intros shared Hc Hne; [contradiction|].
  cbn [ratio_team]. destruct rows as [|i rows].
  - cbn [ratio_thread bind]. apply IH; assumption.
  - cbn [ratio_thread]. unfold ratio_body at 1.
    now rewrite rd_column_out by assumption.
Qed.

Lemma ratio_team_idle t c : forall team shared,
  concat team = [] ->
  ratio_team colNumb t c team shared = Ok shared.
Proof.
  induction team as [|rows team IH]; intros [mn cnt] He; [reflexivity|].
  simpl in He. apply app_eq_nil in He as [-> He].
  cbn [ratio_team ratio_thread bind fst snd]. rewrite IH by assumption.
  unfold minimo. simpl. now rewrite Z.add_0_r.
Qed.

(** the pass that is entered with [max.index] still at -1 *)
Lemma iteration_team_sentinel sch s :
  St.count s = 0 -> Compare_Max.index (St.max s) = -1 -> 0 <= constraintNumb ->
  concat (Pass.ratio sch) ≡ₚ seqZ 0 constraintNumb ->
  iteration_team constraintNumb colNumb sch s = iteration constraintNumb colNumb s.
Proof.
  intros Hcount Hidx Hn Hr. unfold iteration_team, iteration.
  destruct (Z.eq_dec constraintNumb 0) as [H0|H0].
  - unfold ratio_test_team, ratio_test. rewrite H0 in *. simpl in Hr.
    apply Permutation_nil_r in Hr. rewrite ratio_team_idle by assumption.
    simpl. unfold check_unbounded. simpl. rewrite Hcount. reflexivity.
  - rewrite ratio_test_sentinel by (try assumption; lia).
    unfold ratio_test_team. rewrite Hidx. rewrite ratio_team_out; [reflexivity|lia|].
    intros He. rewrite He in Hr. symmetry in Hr. apply Permutation_nil_r in Hr.
    apply (f_equal length) in Hr. rewrite length_seqZ in Hr. simpl in Hr. lia.
Qed.

Lemma initial_scan_team_same first t :
  wf t ->
  concat first ≡ₚ seqZ 0 (colNumb + 1) ->
  no_tied_columns (cell t constraintNumb) (colNumb + 1) ->
  initial_scan_team constraintNumb first (enter t)
  = initial_scan constraintNumb colNumb (enter t).
Proof.
  intros Hwf Hfirst Hties.
  destruct (initial_scan_spec constraintNumb colNumb t Hwf) as (idx & Hs & He).
  destruct (initial_scan_team_spec constraintNumb colNumb t first Hwf Hfirst)
    as (s & Hrun & _ & _ & He').
  rewrite Hs, Hrun. f_equal. unfold initial_scan_team in Hrun.
  destruct (scan_team _ _ _ _) as [mx| |]; try discriminate.
  injection Hrun as <-. simpl in *. f_equal. f_equal.
  now apply (entering_unique _ _ _ _ _ Hties He' He).
Qed.

Lemma do_while_team_same sch t :
  wf t ->
  (forall k, complete_pass constraintNumb colNumb (sch k)) ->
  no_ties constraintNumb colNumb t ->
  forall fuel k s,
    at_iteration constraintNumb colNumb t k s ->
    do_while_team constraintNumb colNumb fuel sch k s
    = do_while constraintNumb colNumb fuel s.
Proof.
  intros Hwf Hsch (_ & Hties). induction fuel as [|fuel IH]; intros k s Hat; [reflexivity|].
  cbn [do_while_team do_while].
  assert (Hsame : iteration_team constraintNumb colNumb (sch k) s
                  = iteration constraintNumb colNumb s).
  { destruct (at_iteration_ready constraintNumb colNumb t k s Hwf Hat)
      as (Htop & [Hidx|(Hidx & _)]).
    - apply iteration_team_sentinel; try assumption.
      + now destruct Htop as (_ & H & _).
      + now destruct Hwf.
      + apply Hsch.
    - destruct (Hties k s Hat) as (Hrows & Hcols).
      apply iteration_team_same; try assumption. apply Hsch. }
  rewrite Hsame. destruct (iteration constraintNumb colNumb s) as [s'| |] eqn:Hit;
    try reflexivity.
  destruct (Z.eqb_spec (St.conta s') 0) as [|Hconta]; [reflexivity|].
  apply IH. now apply (at_next _ _ _ k s s').
Qed.

Lemma engine_team_same fuel first sch t :
  wf t ->
  concat first ≡ₚ seqZ 0 (colNumb + 1) ->
  (forall k, complete_pass constraintNumb colNumb (sch k)) ->
  no_ties constraintNumb colNumb t ->
  engine_team constraintNumb colNumb fuel first sch t
  = engine constraintNumb colNumb fuel t.
Proof.
  intros Hwf Hfirst Hsch Hties. unfold engine_team, engine.
  rewrite initial_scan_team_same by (try assumption; apply Hties).
  destruct (initial_scan constraintNumb colNumb (enter t)) as [s| |] eqn:Hs;
    try reflexivity.
  apply (do_while_team_same sch t); try assumption. now apply at_first.
Qed.
End RunTeam.


Lemma range_cases2 (P : Z -> Z -> Prop) (n m : Z) :
  Forall (fun j1 => Forall (fun j2 => P j1 j2) (seqZ 0 m)) (seqZ 0 n) ->
  forall j1 j2, 0 <= j1 < n -> 0 <= j2 < m -> P j1 j2.
Proof.
  intros H j1 j2 H1 H2.
  assert (Hin1 : j1 ∈ seqZ 0 n) by (apply elem_of_seqZ; lia).
  assert (Hin2 : j2 ∈ seqZ 0 m) by (apply elem_of_seqZ; lia).
  rewrite list.Forall_forall in H. specialize (H j1 Hin1).
  rewrite list.Forall_forall in H. exact (H j2 Hin2).
Qed.

Ltac each_case :=
  repeat first [apply Forall_nil_2 | apply Forall_cons_2].

Ltac no_tie :=
  first [ reflexivity
        | match goal with H : (_ < _)%Qc |- _ => vm_compute in H; discriminate H end
        | match goal with
          | H : @eq Qc _ _ |- _ => apply Qc_eq_Qeq in H; vm_compute in H; discriminate H
          end ].

Lemma no_tied_columns_cases (f : Z -> Qc) (n : Z) :
  Forall (fun j1 => Forall (fun j2 => (f j1 < 0)%Qc -> f j1 = f j2 -> j1 = j2)
                      (seqZ 0 n)) (seqZ 0 n) ->
  no_tied_columns f n.
Proof.
  intros H j1 j2 H1 H2.
  exact (range_cases2 (fun j1 j2 => (f j1 < 0)%Qc -> f j1 = f j2 -> j1 = j2)
           n n H j1 j2 H1 H2).
Qed.

Lemma no_tied_rows_cases (constraintNumb colNumb : Z) (t : matrix) (c : Z) :
  Forall (fun i1 =>
    Forall (fun i2 => (0 < cell t i1 c)%Qc -> (0 < cell t i2 c)%Qc ->
                      ratio colNumb t c i1 = ratio colNumb t c i2 -> i1 = i2)
      (seqZ 0 constraintNumb)) (seqZ 0 constraintNumb) ->
  no_tied_rows constraintNumb colNumb t c.
Proof.
  intros H i1 i2 H1 H2.
  exact (range_cases2
           (fun i1 i2 => (0 < cell t i1 c)%Qc -> (0 < cell t i2 c)%Qc ->
                         ratio colNumb t c i1 = ratio colNumb t c i2 -> i1 = i2)
           constraintNumb constraintNumb H i1 i2 H1 H2).
Qed.

Lemma Ok_inj {A : Type} (a b : A) : Ok a = Ok b -> a = b.
Proof. now intros [= ->]. Qed.

Lemma scenario_optimal_run k s :
  at_iteration 3 5 scenario_optimal k s ->
  (k = 0%nat /\ s = scenario_optimal_0) \/ (k = 1%nat /\ s = scenario_optimal_1).
Proof.
  induction 1 as [s H|k s s' _ IH Hit Hconta].
  - left. split; [reflexivity|].
    assert (H0 : initial_scan 3 5 (enter scenario_optimal) = Ok scenario_optimal_0)
      by (vm_compute; reflexivity).
    congruence.
  - destruct IH as [(-> & ->)|(-> & ->)].
    + right. split; [reflexivity|].
      unfold scenario_optimal_1. cbn [steps]. fold scenario_optimal_0. rewrite Hit.
      now destruct (Z.eqb_spec (St.conta s') 0).
    + exfalso. apply Hconta.
      assert (H2 : iteration 3 5 scenario_optimal_1 = Ok scenario_optimal_end)
        by (vm_compute; reflexivity).
      rewrite H2 in Hit. apply Ok_inj in Hit. rewrite <- Hit. vm_compute. reflexivity.
Qed.

Lemma scenario_optimal_no_ties : no_ties 3 5 scenario_optimal.
Proof.
  split.
  - apply no_tied_columns_cases. each_case; intros; no_tie.
  - intros k s Hat.
    assert (H1 : iteration 3 5 scenario_optimal_0 = Ok scenario_optimal_1)
      by (vm_compute; reflexivity).
    assert (H2 : iteration 3 5 scenario_optimal_1 = Ok scenario_optimal_end)
      by (vm_compute; reflexivity).
    destruct (scenario_optimal_run k s Hat) as [(-> & ->)|(-> & ->)]; split.
    + clear. apply no_tied_rows_cases. each_case; intros; no_tie.
    + intros s' Hit. rewrite H1 in Hit. apply Ok_inj in Hit. rewrite <- Hit.
      clear. apply no_tied_columns_cases. each_case; intros; no_tie.
    + clear. apply no_tied_rows_cases. each_case; intros; no_tie.
    + intros s' Hit. rewrite H2 in Hit. apply Ok_inj in Hit. rewrite <- Hit.
      clear. apply no_tied_columns_cases. each_case; intros; no_tie.
Qed.


(** ** What every run of a team reports *)

Section TeamResult.
Variables constraintNumb colNumb : Z.
Local Abbreviation wf := (well_formed constraintNumb colNumb).

(** the pass of a team is a pivot on the entering column and on an eligible
    row of least ratio: what [iteration_spec] says of one thread *)
Lemma iteration_team_spec sch s :
  let t := St.tableau s in
  let c := Compare_Max.index (St.max s) in
  loop_top constraintNumb colNumb s -> 0 <= c <= colNumb ->
  complete_pass constraintNumb colNumb sch ->
  ((forall i, 0 <= i < constraintNumb -> (cell t i c <= 0)%Qc) /\
   iteration_team constraintNumb colNumb sch s = Exit1)
  \/
  (exists p t' idx,
     0 <= p < constraintNumb /\ (0 < cell t p c)%Qc /\
     (forall i, 0 <= i < constraintNumb -> (0 < cell t i c)%Qc ->
                (ratio colNumb t c p <= ratio colNumb t c i)%Qc) /\
     iteration_team constraintNumb colNumb sch s
     = Ok (St.make t' (Compare_Max.make 0%Qc idx) (Compare_Min.make HUGE_VAL p) 0
             (count_neg (cell t' constraintNumb) (Z.to_nat colNumb)) (St.ni s + 1)) /\
     wf t' /\
     (forall i j, 0 <= i <= constraintNumb -> 0 <= j <= colNumb ->
                  cell t' i j = pivoted t p c i j) /\
     entering (cell t' constraintNumb) colNumb c idx).
Proof.
  intros t c Htop Hc (Hr & Hpv).
  pose proof Htop as (Hwf & Hcount & Hmax & Hmin).
  destruct (ratio_test_team_spec constraintNumb colNumb s (Pass.ratio sch)
              Hwf Hc Hcount Hmin Hr) as (s1 & Hrun & Ht1 & Hm1 & Hres).
  destruct (ratio_test_team_fields colNumb _ _ _ Hrun) as (Hconta1 & Hni1).
  unfold iteration_team. rewrite Hrun. cbn [bind]. fold t c in Hres.
  destruct Hres as [(Hcnt & Hall)|(Hcnt & Hi & Hpos & Hv & Hleast)].
  - left. split; [assumption|]. unfold check_unbounded. now rewrite Hcnt, Z.eqb_refl.
  - right. unfold check_unbounded.
    replace (St.count s1 =? constraintNumb) with false by lia. cbn [bind].
    destruct (pivoting_team_spec constraintNumb colNumb (Pass.pivot sch)
                (St.make (St.tableau s1) (St.max s1) (St.min s1) 0 0 (St.ni s1)))
      as (t2 & idx2 & Hrun2 & Hwf2 & Hcell2 & Hent2);
      cbn [St.tableau St.max St.min]; try (rewrite ?Ht1, ?Hm1; assumption).
    cbn [St.tableau St.max St.min St.count St.conta St.ni] in Hrun2, Hcell2, Hent2.
    rewrite Ht1, Hm1 in Hcell2. rewrite Hm1 in Hent2. rewrite Hni1 in Hrun2.
    exists (Compare_Min.index (St.min s1)), t2, idx2.
    split; [assumption|]. split; [assumption|]. split; [assumption|].
    split; [|auto]. rewrite Hni1, Hrun2. now rewrite Z.add_0_l.
Qed.

Lemma do_while_team_bound sch t x z : forall fuel k s r,
  (forall k, complete_pass constraintNumb colNumb (sch k)) ->
  entering_ready constraintNumb colNumb s ->
  (satisfies constraintNumb colNumb t x z <->
   satisfies constraintNumb colNumb (St.tableau s) x z) ->
  do_while_team constraintNumb colNumb fuel sch k s = Some (Ok r) ->
  wf (St.tableau r) /\
  (forall j, 0 <= j < colNumb -> (0 <= cell (St.tableau r) constraintNumb j)%Qc) /\
  (satisfies constraintNumb colNumb t x z <->
   satisfies constraintNumb colNumb (St.tableau r) x z).
Proof.
  induction fuel as [|fuel IH]; intros k s r Hsch Hready Hsat Hrun; [discriminate|].
  cbn [do_while_team] in Hrun.
  destruct Hready as (Htop & Hidx).
  pose proof Htop as (Hwf & Hcount & Hmax & Hmin).
  assert (Hn : 0 <= constraintNumb) by now destruct Hwf.
  destruct Hidx as [Hidx|(Hidx & Hneg)].
  { rewrite iteration_team_sentinel in Hrun by (try assumption; apply Hsch).
    pose proof (iteration_sentinel constraintNumb colNumb s Hcount Hidx Hn) as Hno.
    destruct (iteration constraintNumb colNumb s) as [s'| |]; try discriminate.
    now destruct (Hno s'). }
  destruct (iteration_team_spec (sch k) s Htop Hidx (Hsch k))
    as [(_ & Hex)|(p & t' & idx & Hp & Hpos & _ & Hit & Hwf' & Hcell & Hent)];
    [rewrite Hex in Hrun; discriminate|].
  rewrite Hit in Hrun. cbn [St.conta] in Hrun.
  assert (Hsat' : satisfies constraintNumb colNumb t x z <->
                  satisfies constraintNumb colNumb t' x z).
  { rewrite Hsat.
    apply (pivoted_satisfies constraintNumb colNumb _ _ p (Compare_Max.index (St.max s)));
      try assumption; [apply Hwf|now apply Qc_pos_neq0]. }
  destruct (Z.eqb_spec (count_neg (cell t' constraintNumb) (Z.to_nat colNumb)) 0)
    as [Hzero|Hmore].
  - injection Hrun as Hrun. subst r. simpl.
    split; [assumption|]. split; [|assumption].
    intros j Hj. apply (proj1 (count_neg_zero _ _) Hzero). lia.
  - apply (IH _ _ _ Hsch) in Hrun; [assumption| |assumption].
    split; [exact (conj Hwf' (conj eq_refl (conj eq_refl eq_refl)))|]. simpl.
    destruct Hent as [(_ & Hall)|(Hi & Hlt & _)]; [|right; split; [lia|assumption]].
    exfalso. apply Hmore. apply count_neg_zero. intros j Hj. apply Hall. lia.
Qed.

Lemma engine_team_bound fuel first sch t s x z :
  wf t ->
  concat first ≡ₚ seqZ 0 (colNumb + 1) ->
  (forall k, complete_pass constraintNumb colNumb (sch k)) ->
  engine_team constraintNumb colNumb fuel first sch t = Some (Ok s) ->
  nonneg_point colNumb x ->
  satisfies constraintNumb colNumb t x z ->
  (forall j, 0 <= j < colNumb -> (0 <= cell (St.tableau s) constraintNumb j)%Qc) /\
  exists v, report constraintNumb colNumb s = Ok (St.ni s, v) /\ (z <= v)%Qc.
Proof.
  intros Hwf Hfirst Hsch Hrun Hx Hsat. unfold engine_team in Hrun.
  destruct (initial_scan_team_spec constraintNumb colNumb t first Hwf Hfirst)
    as (s0 & Hscan & Ht0 & Hv0 & Hent).
  rewrite Hscan in Hrun.
  assert (Hready : entering_ready constraintNumb colNumb s0).
  { unfold initial_scan_team in Hscan.
    destruct (scan_team _ _ _ _) as [mx| |]; try discriminate.
    apply Ok_inj in Hscan. subst s0. simpl in *. split.
    - unfold loop_top. simpl. auto.
    - simpl. destruct Hent as [(Hi & _)|(Hi & Hneg & _)]; [now left|right].
      split; [lia|assumption]. }
  destruct (do_while_team_bound sch t x z fuel 0%nat s0 s Hsch Hready)
    as (Hwf' & Hall & Hsat'); [now rewrite Ht0|assumption|].
  split; [assumption|].
  apply Hsat' in Hsat. destruct Hsat as (_ & Hobj).
  exists (cell (St.tableau s) constraintNumb colNumb). split.
  - unfold report.
    rewrite (rd_in_bounds constraintNumb colNumb); try assumption; destruct Hwf; try lia.
    reflexivity.
  - rewrite <- Hobj.
    assert (H0 : (0 <= row_dot (St.tableau s) constraintNumb x (Z.to_nat colNumb))%Qc).
    { apply row_dot_nonneg; intros j Hj; [apply Hall|apply Hx]; lia. }
    revert H0. generalize (row_dot (St.tableau s) constraintNumb x (Z.to_nat colNumb)).
    intros d H0. qc_lra.
Qed.
End TeamResult.


Lemma tied_pass_complete k : complete_pass 2 4 (tied_pass k).
Proof.
  split; [|split; [|split]].
  - now apply alone_is_a_schedule.
  - apply (reverse_Permutation [0; 1; 2; 3; 4]).
  - apply perm_swap.
  - now apply (alone_is_a_schedule 1 (4 + 1)).
Qed.

Lemma tied_point_satisfies : satisfies 2 4 tied tied_point (qz 4).
Proof.
  split.
  - intros i Hi.
    assert (i = 0 \/ i = 1) as [->| ->] by lia; apply this_inj; vm_compute; reflexivity.
  - apply this_inj. vm_compute. reflexivity.
Qed.

Lemma tied_point_nonneg : nonneg_point 4 tied_point.
Proof.
  intros j Hj.
  assert (j = 0 \/ j = 1 \/ j = 2 \/ j = 3) as [->|[->|[->| ->]]] by lia;
    vm_compute; discriminate.
Qed.

